(** * XChange: a price-time priority limit order book and its async wrapper

    Shallow embedding of [OrderBook] (OrderBook.h), of the common types
    (Types.h) and of [ConcurrentQueue] / [AsyncMatchingEngine] (main.cpp).

    - [Price] and [Qty] are [std::int64_t]: modelled as [Z], with the
      two's-complement wrap-around of the two subtractions in [add_order]
      written out ([wrap64]).
    - [OrderId] is [std::uint64_t]: modelled as [N].
    - [std::map<Price, std::deque<Order>, Cmp>] is an ordered map whose
      [begin()] is the best level: modelled as an association list kept
      sorted by the comparator, best level first.
    - [std::unordered_map<OrderId, std::pair<Side, Price>>] is a [gmap]. *)

From stdpp Require Import gmap list fin_maps sorting.
From Stdlib Require Import ZArith Lia.

Local Open Scope Z_scope.

(** ** Types.h *)

(** The aliases [OrderId], [Price], [Qty] and [TimePoint] of Types.h. *)
Abbreviation OrderId := N (only parsing).
Abbreviation Price := Z (only parsing).
Abbreviation Qty := Z (only parsing).
Abbreviation TimePoint := Z (only parsing).

Inductive Side := Buy | Sell.

#[global] Instance Side_eq_dec : EqDecision Side.
Proof. solve_decision. Defined.

Record Order := mkOrder {
  id : OrderId;
  side : Side;
  price : Price;
  qty : Qty;
  ts : TimePoint
}.

(** The fields [price] and [qty] of the C++ [Trade] are named
    [trade_price] and [trade_qty] here, a record field name being global. *)
Record Trade := mkTrade {
  maker_id : OrderId;
  taker_id : OrderId;
  trade_price : Price;
  trade_qty : Qty
}.

(** Range of [std::int64_t] and of [std::uint64_t]. *)
Definition int64_range (z : Z) : Prop := - 2 ^ 63 <= z < 2 ^ 63.
Definition uint64_range (n : N) : Prop := (n < 2 ^ 64)%N.

(** Result of a 64-bit signed operation, reduced to the representable range. *)
Definition wrap64 (z : Z) : Z := (z + 2 ^ 63) mod 2 ^ 64 - 2 ^ 63.

(** [order.qty -= traded] and [resting.qty -= traded]. *)
Definition sub_qty (o : Order) (traded : Qty) : Order :=
  {| id := id o; side := side o; price := price o;
     qty := wrap64 (qty o - traded); ts := ts o |}.

(** ** OrderBook.h *)

(** One side of the book: price levels, best first, each with its FIFO. *)
Definition Levels := list (Price * list Order).

Record OrderBook := mkBook {
  bids_ : Levels;                          (* highest bid first *)
  asks_ : Levels;                          (* lowest ask first *)
  id_index_ : gmap OrderId (Side * Price)  (* id -> (side, price) *)
}.

Definition empty_book : OrderBook :=
  {| bids_ := []; asks_ := []; id_index_ := ∅ |}.

(** State of the crossing loops: the incoming order, the ladder it crosses,
    the id index and the trades emitted so far. *)
Definition CrossState : Type :=
  Order * Levels * gmap OrderId (Side * Price) * list Trade.

(** The inner loop of [add_order]:
    [while (order.qty > 0 && !queue.empty())] over the FIFO of one level. *)
Fixpoint match_queue (order : Order) (queue : list Order)
    (idx : gmap OrderId (Side * Price)) (trades : list Trade)
    : Order * list Order * gmap OrderId (Side * Price) * list Trade :=
  match queue with
  | [] => (order, [], idx, trades)
  | resting :: rest =>
    if 0 <? qty order then
      let traded := Z.min (qty order) (qty resting) in
      let trades' :=
        trades ++ [mkTrade (id resting) (id order) (price resting) traded] in
      let order' := sub_qty order traded in
      let resting' := sub_qty resting traded in
      if qty resting' =? 0 then
        match_queue order' rest (delete (id resting) idx) trades'
      else
        (order', resting' :: rest, idx, trades')   (* break: partial on resting *)
    else (order, queue, idx, trades)
  end.

(** The outer loop of [add_order]:
    [while (order.qty > 0 && !levels.empty())].  [worse p best] is the
    test that breaks the loop ([order.price < best_px] for a buy,
    [order.price > best_px] for a sell).  The loop is written with fuel,
    one unit per evaluation of the loop condition; [cross_loop_terminates]
    below shows that [cross_fuel] units always suffice. *)
Fixpoint cross_loop (fuel : nat) (worse : Price → Price → bool)
    (order : Order) (levels : Levels)
    (idx : gmap OrderId (Side * Price)) (trades : list Trade)
    : option CrossState :=
  match fuel with
  | O => None
  | S fuel' =>
    if 0 <? qty order then
      match levels with
      | [] => Some (order, levels, idx, trades)
      | (best_px, queue) :: others =>
        if worse (price order) best_px then
          Some (order, levels, idx, trades)        (* break: not crossable *)
        else
          let '(order', queue', idx', trades') :=
            match_queue order queue idx trades in
          let levels' :=
            match queue' with
            | [] => others                          (* erase(best_it) *)
            | _ :: _ => (best_px, queue') :: others
            end in
          cross_loop fuel' worse order' levels' idx' trades'
      end
    else Some (order, levels, idx, trades)
  end.

Definition cross_fuel (levels : Levels) : nat := S (length levels).

(** [m[order.price].push_back(order)] on a ladder ordered by [before]:
    the level is created in its place when it is absent. *)
Fixpoint level_push (before : Price → Price → bool) (order : Order)
    (levels : Levels) : Levels :=
  match levels with
  | [] => [(price order, [order])]
  | (px, queue) :: others =>
    if px =? price order then (px, queue ++ [order]) :: others
    else if before (price order) px then (price order, [order]) :: levels
    else (px, queue) :: level_push before order others
  end.

Definition enqueue (b : OrderBook) (order : Order) : OrderBook :=
  match side order with
  | Buy =>
    {| bids_ := level_push Z.gtb order (bids_ b);
       asks_ := asks_ b;
       id_index_ := <[id order := (side order, price order)]> (id_index_ b) |}
  | Sell =>
    {| bids_ := bids_ b;
       asks_ := level_push Z.ltb order (asks_ b);
       id_index_ := <[id order := (side order, price order)]> (id_index_ b) |}
  end.

(** [add_order] with the fuel of the crossing loop explicit. *)
Definition add_order_fuel (fuel : nat) (b : OrderBook) (order : Order)
    : option (list Trade * OrderBook) :=
  match side order with
  | Buy =>
    match cross_loop fuel Z.ltb order (asks_ b) (id_index_ b) [] with
    | None => None
    | Some (order', asks', idx', trades) =>
      let b' := {| bids_ := bids_ b; asks_ := asks'; id_index_ := idx' |} in
      Some (trades, if 0 <? qty order' then enqueue b' order' else b')
    end
  | Sell =>
    match cross_loop fuel Z.gtb order (bids_ b) (id_index_ b) [] with
    | None => None
    | Some (order', bids', idx', trades) =>
      let b' := {| bids_ := bids'; asks_ := asks_ b; id_index_ := idx' |} in
      Some (trades, if 0 <? qty order' then enqueue b' order' else b')
    end
  end.

(** The ladder an incoming order crosses against. *)
Definition opposite (b : OrderBook) (s : Side) : Levels :=
  match s with Buy => asks_ b | Sell => bids_ b end.

(** [add_order]: the trades generated and the book afterwards.
    [add_order_fuel_enough] shows that the fuel never runs out, so the
    default is never taken. *)
Definition add_order (b : OrderBook) (order : Order)
    : list Trade * OrderBook :=
  match add_order_fuel (cross_fuel (opposite b (side order))) b order with
  | Some r => r
  | None => ([], b)
  end.

(** [m.find(price)]. *)
Fixpoint level_find (p : Price) (levels : Levels) : option (list Order) :=
  match levels with
  | [] => None
  | (px, queue) :: others =>
    if px =? p then Some queue else level_find p others
  end.

(** The scan of [cancel]: erase the first order of the queue with that id;
    [None] when the scan reaches [dq.end()]. *)
Fixpoint erase_id (i : OrderId) (dq : list Order) : option (list Order) :=
  match dq with
  | [] => None
  | o :: rest =>
    if (id o =? i)%N then Some rest
    else match erase_id i rest with
         | None => None
         | Some rest' => Some (o :: rest')
         end
  end.

(** The level at [p] after the scan: its queue is replaced, and the level
    is erased when the queue became empty. *)
Fixpoint level_store (p : Price) (dq : list Order) (levels : Levels)
    : Levels :=
  match levels with
  | [] => []
  | (px, queue) :: others =>
    if px =? p then
      match dq with
      | [] => others
      | _ :: _ => (px, dq) :: others
      end
    else (px, queue) :: level_store p dq others
  end.

Definition cancel (b : OrderBook) (i : OrderId) : bool * OrderBook :=
  match id_index_ b !! i with
  | None => (false, b)
  | Some (Buy, p) =>
    match level_find p (bids_ b) with
    | None => (false, b)
    | Some dq =>
      match erase_id i dq with
      | None => (false, b)
      | Some dq' =>
        (true, {| bids_ := level_store p dq' (bids_ b);
                  asks_ := asks_ b;
                  id_index_ := delete i (id_index_ b) |})
      end
    end
  | Some (Sell, p) =>
    match level_find p (asks_ b) with
    | None => (false, b)
    | Some dq =>
      match erase_id i dq with
      | None => (false, b)
      | Some dq' =>
        (true, {| bids_ := bids_ b;
                  asks_ := level_store p dq' (asks_ b);
                  id_index_ := delete i (id_index_ b) |})
      end
    end
  end.

Definition best_bid (b : OrderBook) : option Price :=
  match bids_ b with
  | [] => None
  | (px, _) :: _ => Some px
  end.

Definition best_ask (b : OrderBook) : option Price :=
  match asks_ b with
  | [] => None
  | (px, _) :: _ => Some px
  end.


(** ** Runs of the book *)

Inductive Op :=
  | Add (o : Order)
  | Cancel (i : OrderId).

Inductive Out :=
  | Trades (l : list Trade)
  | Cancelled (ok : bool).

Definition apply_op (b : OrderBook) (op : Op) : Out * OrderBook :=
  match op with
  | Add o => let '(l, b') := add_order b o in (Trades l, b')
  | Cancel i => let '(ok, b') := cancel b i in (Cancelled ok, b')
  end.

(** The book and the outputs, oldest first, after a sequence of calls. *)
Fixpoint run (b : OrderBook) (ops : list Op) : list Out * OrderBook :=
  match ops with
  | [] => ([], b)
  | op :: ops' =>
    let '(out, b') := apply_op b op in
    let '(outs, b'') := run b' ops' in
    (out :: outs, b'')
  end.

Definition book_after (ops : list Op) : OrderBook := snd (run empty_book ops).

(** The orders submitted by a sequence of calls, in submission order. *)
Fixpoint submitted (ops : list Op) : list Order :=
  match ops with
  | [] => []
  | Add o :: ops' => o :: submitted ops'
  | Cancel _ :: ops' => submitted ops'
  end.

(** The trades emitted by a sequence of outputs, in emission order. *)
Fixpoint emitted (outs : list Out) : list Trade :=
  match outs with
  | [] => []
  | Trades l :: outs' => l ++ emitted outs'
  | Cancelled _ :: outs' => emitted outs'
  end.

(** The orders resting on a ladder, in priority order, and in the book. *)
Definition resting (levels : Levels) : list Order := concat (levels.*2).

Definition all_resting (b : OrderBook) : list Order :=
  resting (bids_ b) ++ resting (asks_ b).

Definition total_qty (l : list Order) : Z := foldr Z.add 0 (qty <$> l).

Definition traded_qty (l : list Trade) : Z := foldr Z.add 0 (trade_qty <$> l).

(** An order within the ranges of its field types, and one that also meets
    the contract of [add_order] ([qty > 0]). *)
Definition well_typed (o : Order) : Prop :=
  uint64_range (id o) ∧ int64_range (price o) ∧ int64_range (qty o).

Definition valid_order (o : Order) : Prop := well_typed o ∧ 0 < qty o.

(** A sequence of calls whose orders have [qty > 0] and ids never used
    before in the sequence. *)
Definition valid_ops (ops : list Op) : Prop :=
  Forall valid_order (submitted ops) ∧ NoDup (id <$> submitted ops).

Definition only_adds (ops : list Op) : Prop :=
  Forall (λ op, match op with Add _ => True | Cancel _ => False end) ops.

(** ** main.cpp: ConcurrentQueue

    Every member function runs its body under the mutex [m_], so each is one
    atomic transition of the queue state [(q_, closed_)]. *)

Record ConcurrentQueue (T : Type) := mkQueue {
  q_ : list T;
  closed_ : bool
}.
Arguments mkQueue {T} _ _.
Arguments q_ {T} _.
Arguments closed_ {T} _.

Definition new_queue {T : Type} : ConcurrentQueue T :=
  {| q_ := []; closed_ := false |}.

(** [push] returns [void]: the caller gets nothing back either way. *)
Definition push {T : Type} (v : T) (s : ConcurrentQueue T)
    : ConcurrentQueue T :=
  if closed_ s then s                                   (* drop if closed *)
  else {| q_ := q_ s ++ [v]; closed_ := closed_ s |}.

(** Blocking [pop].  [None]: the caller keeps waiting on the condition
    variable (the queue is open and empty).  [Some (None, _)]: [pop]
    returns [false].  [Some (Some v, _)]: [pop] returns [true] with
    [out = v]. *)
Definition pop {T : Type} (s : ConcurrentQueue T)
    : option (option T * ConcurrentQueue T) :=
  match q_ s with
  | [] => if closed_ s then Some (None, s) else None
  | v :: rest => Some (Some v, {| q_ := rest; closed_ := closed_ s |})
  end.

(** [try_pop]: [None] is the return value [false]. *)
Definition try_pop {T : Type} (s : ConcurrentQueue T)
    : option T * ConcurrentQueue T :=
  match q_ s with
  | [] => (None, s)
  | v :: rest => (Some v, {| q_ := rest; closed_ := closed_ s |})
  end.

Definition close {T : Type} (s : ConcurrentQueue T) : ConcurrentQueue T :=
  {| q_ := q_ s; closed_ := true |}.

(** [n] consecutive blocking pops by one consumer: the values obtained, in
    the order obtained, whether the last call returned [false], and the
    queue afterwards.  The consumer stops at the first [false], and is left
    waiting ([None]) when a call blocks. *)
Fixpoint pop_many {T : Type} (n : nat) (s : ConcurrentQueue T)
    : option (list T * bool * ConcurrentQueue T) :=
  match n with
  | O => Some ([], false, s)
  | S n' =>
    match pop s with
    | None => None
    | Some (None, s') => Some ([], true, s')
    | Some (Some v, s') =>
      match pop_many n' s' with
      | None => None
      | Some (vs, fin, s'') => Some (v :: vs, fin, s'')
      end
    end
  end.

(** [n] consecutive [try_pop] calls, stopping at the first [false]. *)
Fixpoint try_pop_many {T : Type} (n : nat) (s : ConcurrentQueue T)
    : list T * bool * ConcurrentQueue T :=
  match n with
  | O => ([], false, s)
  | S n' =>
    match try_pop s with
    | (None, s') => ([], true, s')
    | (Some v, s') =>
      let '(vs, fin, s'') := try_pop_many n' s' in (v :: vs, fin, s'')
    end
  end.

(** ** main.cpp: AsyncMatchingEngine *)

Inductive EventType := TradeBatch | BookSnapshot.

Record EngineEvent := mkEvent {
  type : EventType;
  trades : list Trade
}.

(** Where the worker thread stands in [run()]. *)
Inductive WorkerPc :=
  | WTest                         (* at [while (running_)] *)
  | WPop                          (* at [inq_.pop(o)] *)
  | WAdd (o : Order)              (* at [book_.add_order(o)] *)
  | WPublish (l : list Trade)     (* at [outq_.push(...)], [l] non-empty *)
  | WExited.                      (* [run()] has returned *)

(** Where the invocation of [shutdown()] whose compare-exchange succeeds
    stands ([SCas]: no invocation has made its compare-exchange yet). *)
Inductive ShutdownPc :=
  | SCas                          (* at [running_.compare_exchange_strong] *)
  | SCloseIn                      (* at [inq_.close()] *)
  | SJoin                         (* at [worker_.join()] *)
  | SCloseOut                     (* at [outq_.close()] *)
  | SReturned.                    (* [shutdown()] has returned *)

(** The engine: its members, the two program counters, and four history
    fields that no transition reads: the orders the inbound [push]
    enqueued, the orders handed to [add_order], the events handed to the
    outbound [push], the events that [poll_event] and [wait_event] handed
    to consumers, each oldest first.  [caller_] follows the invocation of
    [shutdown()] whose compare-exchange succeeds; the other invocations
    are the action [ShutdownAgain]. *)
Record Engine := mkEngine {
  book_ : OrderBook;
  inq_ : ConcurrentQueue Order;
  outq_ : ConcurrentQueue EngineEvent;
  running_ : bool;
  worker_ : WorkerPc;
  caller_ : ShutdownPc;
  accepted : list Order;
  processed : list Order;
  published : list EngineEvent;
  delivered : list EngineEvent
}.

(** After the constructor: [running_(true)] and the worker started. *)
Definition new_engine : Engine :=
  {| book_ := empty_book; inq_ := new_queue; outq_ := new_queue;
     running_ := true; worker_ := WTest; caller_ := SCas;
     accepted := []; processed := []; published := []; delivered := [] |}.

(** The atomic actions of the threads around the engine. *)
Inductive Action :=
  | Submit (o : Order)            (* a producer: [submit(o)] *)
  | Worker                        (* the worker's next action *)
  | Shutdown                      (* the next action of the invocation of
                                     [shutdown()] that [caller_] follows *)
  | ShutdownAgain                 (* one more invocation of [shutdown()], at
                                     its compare-exchange *)
  | PollEvent                     (* a consumer: [poll_event] *)
  | WaitEvent.                    (* a consumer: [wait_event] *)

Definition worker_step (e : Engine) : option Engine :=
  match worker_ e with
  | WTest =>
    Some {| book_ := book_ e; inq_ := inq_ e; outq_ := outq_ e;
            running_ := running_ e;
            worker_ := if running_ e then WPop else WExited;
            caller_ := caller_ e; accepted := accepted e;
            processed := processed e; published := published e;
            delivered := delivered e |}
  | WPop =>
    match pop (inq_ e) with
    | None => None                                       (* waiting *)
    | Some (None, q') =>                                 (* break *)
      Some {| book_ := book_ e; inq_ := q'; outq_ := outq_ e;
              running_ := running_ e; worker_ := WExited;
              caller_ := caller_ e; accepted := accepted e;
              processed := processed e; published := published e;
              delivered := delivered e |}
    | Some (Some o, q') =>
      Some {| book_ := book_ e; inq_ := q'; outq_ := outq_ e;
              running_ := running_ e; worker_ := WAdd o;
              caller_ := caller_ e; accepted := accepted e;
              processed := processed e; published := published e;
              delivered := delivered e |}
    end
  | WAdd o =>
    let '(l, b') := add_order (book_ e) o in
    Some {| book_ := b'; inq_ := inq_ e; outq_ := outq_ e;
            running_ := running_ e;
            worker_ := match l with [] => WTest | _ :: _ => WPublish l end;
            caller_ := caller_ e; accepted := accepted e;
            processed := processed e ++ [o]; published := published e;
            delivered := delivered e |}
  | WPublish l =>
    Some {| book_ := book_ e; inq_ := inq_ e;
            outq_ := push (mkEvent TradeBatch l) (outq_ e);
            running_ := running_ e; worker_ := WTest;
            caller_ := caller_ e; accepted := accepted e;
            processed := processed e;
            published := published e ++ [mkEvent TradeBatch l];
            delivered := delivered e |}
  | WExited => None
  end.

Definition shutdown_step (e : Engine) : option Engine :=
  match caller_ e with
  | SCas =>
    Some {| book_ := book_ e; inq_ := inq_ e; outq_ := outq_ e;
            running_ := false;
            caller_ := if running_ e then SCloseIn else SReturned;
            worker_ := worker_ e; accepted := accepted e;
            processed := processed e; published := published e;
            delivered := delivered e |}
  | SCloseIn =>
    Some {| book_ := book_ e; inq_ := close (inq_ e); outq_ := outq_ e;
            running_ := running_ e; caller_ := SJoin;
            worker_ := worker_ e; accepted := accepted e;
            processed := processed e; published := published e;
            delivered := delivered e |}
  | SJoin =>
    match worker_ e with
    | WExited =>
      Some {| book_ := book_ e; inq_ := inq_ e; outq_ := outq_ e;
              running_ := running_ e; caller_ := SCloseOut;
              worker_ := worker_ e; accepted := accepted e;
              processed := processed e; published := published e;
              delivered := delivered e |}
    | _ => None                                          (* joining *)
    end
  | SCloseOut =>
    Some {| book_ := book_ e; inq_ := inq_ e; outq_ := close (outq_ e);
            running_ := running_ e; caller_ := SReturned;
            worker_ := worker_ e; accepted := accepted e;
            processed := processed e; published := published e;
            delivered := delivered e |}
  | SReturned => None
  end.

(** One more invocation of [shutdown()]: its compare-exchange clears
    [running_]; when [running_] was set, this invocation is the one that
    goes on to close the inbound queue, and [caller_] follows it; when it
    was already cleared the invocation returns at once, whatever the other
    one has done so far (the destructor's call after a [shutdown()] is of
    this kind). *)
Definition shutdown_again (e : Engine) : Engine :=
  {| book_ := book_ e; inq_ := inq_ e; outq_ := outq_ e;
     running_ := false;
     caller_ := if running_ e then SCloseIn else caller_ e;
     worker_ := worker_ e; accepted := accepted e;
     processed := processed e; published := published e;
     delivered := delivered e |}.

Definition exec (a : Action) (e : Engine) : option Engine :=
  match a with
  | Submit o =>
    Some {| book_ := book_ e; inq_ := push o (inq_ e); outq_ := outq_ e;
            running_ := running_ e; worker_ := worker_ e;
            caller_ := caller_ e;
            accepted := if closed_ (inq_ e) then accepted e
                        else accepted e ++ [o];
            processed := processed e; published := published e;
            delivered := delivered e |}
  | Worker => worker_step e
  | Shutdown => shutdown_step e
  | ShutdownAgain => Some (shutdown_again e)
  | PollEvent =>
    Some {| book_ := book_ e; inq_ := inq_ e;
            outq_ := snd (try_pop (outq_ e));
            running_ := running_ e; worker_ := worker_ e;
            caller_ := caller_ e; accepted := accepted e;
            processed := processed e; published := published e;
            delivered := delivered e ++ option_list (fst (try_pop (outq_ e))) |}
  | WaitEvent =>
    match pop (outq_ e) with
    | None => None
    | Some (ev, q') =>
      Some {| book_ := book_ e; inq_ := inq_ e; outq_ := q';
              running_ := running_ e; worker_ := worker_ e;
              caller_ := caller_ e; accepted := accepted e;
              processed := processed e; published := published e;
              delivered := delivered e ++ option_list ev |}
    end
  end.

(** A schedule: the actions taken, in order.  [None] when the schedule
    asks for an action that is not enabled at that point. *)
Fixpoint exec_all (sched : list Action) (e : Engine) : option Engine :=
  match sched with
  | [] => Some e
  | a :: sched' =>
    match exec a e with
    | None => None
    | Some e' => exec_all sched' e'
    end
  end.

(** ** Invariants of the book *)

(** What holds of an order resting at level [px] of side [s]. *)
Definition resting_ok (s : Side) (px : Price) (o : Order) : Prop :=
  side o = s ∧ price o = px ∧ 0 < qty o < 2 ^ 63.

(** A ladder of side [s] ordered by [before]: keys strictly ordered, no
    empty level, every order filed under its own side and price. *)
Definition ladder_ok (s : Side) (before : Price → Price → bool)
    (levels : Levels) : Prop :=
  StronglySorted (λ a b, before a b = true) (levels.*1) ∧
  Forall (λ lvl, lvl.2 ≠ [] ∧ Forall (resting_ok s lvl.1) lvl.2) levels.

(** The index that a list of resting orders calls for. *)
Definition index_of (l : list Order) : gmap OrderId (Side * Price) :=
  list_to_map ((λ o, (id o, (side o, price o))) <$> l).

Definition not_crossed (b : OrderBook) : Prop :=
  ∀ pb pa, pb ∈ (bids_ b).*1 → pa ∈ (asks_ b).*1 → pb < pa.

Record book_inv (b : OrderBook) : Prop := mkInv {
  inv_bids : ladder_ok Buy Z.gtb (bids_ b);
  inv_asks : ladder_ok Sell Z.ltb (asks_ b);
  inv_nodup : NoDup (id <$> all_resting b);
  inv_index : id_index_ b = index_of (all_resting b);
  inv_cross : not_crossed b
}.

(** A comparator of a ladder: a strict total order on prices. *)
Class Comparator (before : Price → Price → bool) : Prop := {
  before_irrefl : ∀ a, before a a = false;
  before_trans : ∀ a b c,
    before a b = true → before b c = true → before a c = true;
  before_total : ∀ a b, before a b = false → a ≠ b → before b a = true
}.

(** The comparator of the ladder that an order of side [s] crosses: it is
    also the test that breaks the crossing loop. *)
Definition crossed_by (s : Side) : Price → Price → bool :=
  match s with Buy => Z.ltb | Sell => Z.gtb end.

(** The book with the ladder crossed by side [s] and the index replaced. *)
Definition with_opposite (b : OrderBook) (s : Side) (levels : Levels)
    (idx : gmap OrderId (Side * Price)) : OrderBook :=
  match s with
  | Buy => {| bids_ := bids_ b; asks_ := levels; id_index_ := idx |}
  | Sell => {| bids_ := levels; asks_ := asks_ b; id_index_ := idx |}
  end.

(** The ladder an order of side [s] rests on. *)
Definition own (b : OrderBook) (s : Side) : Levels :=
  match s with Buy => bids_ b | Sell => asks_ b end.

(** Why the crossing loop stopped. *)
Definition loop_exit (before : Price → Price → bool) (o : Order)
    (levels : Levels) : Prop :=
  ¬ 0 < qty o ∨
  match levels with
  | [] => True
  | (px, _) :: _ => before (price o) px = true
  end.

(** What is left of the incoming order when the crossing loop of
    [add_order] exits. *)
Definition residual (b : OrderBook) (o : Order) : Qty :=
  match cross_loop (cross_fuel (opposite b (side o))) (crossed_by (side o)) o
          (opposite b (side o)) (id_index_ b) [] with
  | Some (o', _, _, _) => qty o'
  | None => qty o
  end.

(** ** Scenarios of the synchronous demo and of the specification *)

Module S2.
Definition sell1 : Order := mkOrder 1%N Sell 101 50 0.
Definition sell2 : Order := mkOrder 2%N Sell 102 40 0.
Definition buy3 : Order := mkOrder 3%N Buy 100 70 0.
Definition buy4 : Order := mkOrder 4%N Buy 102 80 0.
Definition before4 : OrderBook :=
  book_after [Add sell1; Add sell2; Add buy3].
Definition ops : list Op := [Add sell1; Add sell2; Add buy3; Add buy4].
End S2.

Module S4.
Definition sell1 : Order := mkOrder 1%N Sell 101 10 0.
Definition sell2 : Order := mkOrder 2%N Sell 101 10 0.
Definition buy3 : Order := mkOrder 3%N Buy 101 15 0.
Definition before3 : OrderBook := book_after [Add sell1; Add sell2].
Definition ops : list Op := [Add sell1; Add sell2; Add buy3].
End S4.

(** A trade of the taker [i] against the resting orders [makers]: its maker
    is one of them, its price is the maker's, its quantity is positive and
    at most the maker's. *)
Definition trade_ok (i : OrderId) (makers : list Order) (t : Trade) : Prop :=
  taker_id t = i ∧
  ∃ m, m ∈ makers ∧ maker_id t = id m ∧ trade_price t = price m ∧
       0 < trade_qty t ≤ qty m.

(** The invariant of the crossing loop of [add_order], for an incoming
    order [o0] crossing the ladder [levels0] of side [s] ordered by
    [before], [x] being the orders resting on the other ladder. *)
Record cross_inv (s : Side) (before : Price → Price → bool) (o0 : Order)
    (levels0 : Levels) (x : list Order) (o : Order) (levels : Levels)
    (idx : gmap OrderId (Side * Price)) (tr : list Trade) : Prop := mkCrossInv {
  ci_id : id o = id o0;
  ci_side : side o = side o0;
  ci_price : price o = price o0;
  ci_qty : 0 ≤ qty o ≤ qty o0;
  ci_ladder : ladder_ok s before levels;
  ci_keys : levels.*1 ⊆ levels0.*1;
  ci_ids : id <$> resting levels ⊆ id <$> resting levels0;
  ci_nodup : NoDup (id <$> (resting levels ++ x));
  ci_index : idx = index_of (resting levels ++ x);
  ci_sum :
    qty o + total_qty (resting levels) + 2 * traded_qty tr =
    qty o0 + total_qty (resting levels0);
  ci_trades : Forall (trade_ok (id o0) (resting levels0)) tr;
  ci_same : 0 < qty o → resting levels `suffix_of` resting levels0;
  ci_prefix : maker_id <$> tr `prefix_of` id <$> resting levels0;
  ci_fifo :
    0 < qty o →
    (maker_id <$> tr) ++ (id <$> resting levels) = id <$> resting levels0;
  ci_levels :
    Forall (λ lvl, ∃ q, (lvl.1, q) ∈ levels0 ∧
                        id <$> lvl.2 `suffix_of` id <$> q) levels
}.

(** The side of the ladder that an order of side [s] crosses. *)
Definition other_side (s : Side) : Side :=
  match s with Buy => Sell | Sell => Buy end.

(** The FIFO queues of the book, level by level. *)
Definition queues (b : OrderBook) : list (list Order) :=
  (bids_ b).*2 ++ (asks_ b).*2.

Module S3.
Definition sell1 : Order := mkOrder 1%N Sell 101 50 0.
Definition buy2 : Order := mkOrder 2%N Buy 101 30 0.
Definition ops : list Op := [Add sell1; Add buy2].
End S3.

Module S5.
Definition buy1 : Order := mkOrder 1%N Buy 100 10 0.
Definition buy2 : Order := mkOrder 2%N Buy 100 10 0.
Definition sell3 : Order := mkOrder 3%N Sell 100 10 0.
Definition ops : list Op :=
  [Add buy1; Add buy2; Cancel 1%N; Add sell3; Cancel 1%N; Cancel 2%N].
End S5.

(** ** The engine around its shutdown *)

(** The order the worker has popped and not yet handed to the book. *)
Definition inflight (pc : WorkerPc) : list Order :=
  match pc with
  | WAdd o => [o]
  | _ => []
  end.

(** What holds of every state the engine reaches. *)
Record engine_inv (e : Engine) : Prop := mkEngineInv {
  ei_fifo : accepted e = processed e ++ inflight (worker_ e) ++ q_ (inq_ e);
  ei_book : book_ e = book_after (Add <$> processed e);
  ei_running :
    running_ e = match caller_ e with SCas => true | _ => false end;
  ei_inq :
    closed_ (inq_ e) =
      match caller_ e with SCas | SCloseIn => false | _ => true end;
  ei_outq :
    closed_ (outq_ e) = match caller_ e with SReturned => true | _ => false end;
  ei_exit : worker_ e = WExited → caller_ e ≠ SCas;
  ei_join :
    match caller_ e with
    | SCloseOut | SReturned => worker_ e = WExited
    | _ => True
    end
}.

(** Two orders are submitted, then [shutdown()] runs up to the join; the
    worker, scheduled only then, reads [running_] and returns; [shutdown()]
    joins it, closes the outbound queue and returns.  In the second
    schedule the worker has popped the first order before [shutdown()]
    starts: it hands that order to the book, reads [running_] and returns,
    and the second order stays in the inbound queue. *)
Module Drop.
Definition o1 : Order := mkOrder 1%N Sell 101 50 0.
Definition o2 : Order := mkOrder 2%N Buy 101 30 0.
Definition schedule : list Action :=
  [Submit o1; Submit o2; Shutdown; Shutdown; Worker; Shutdown; Shutdown].
(** The state before the worker's only step. *)
Definition before_exit : Engine :=
  {| book_ := empty_book;
     inq_ := {| q_ := [o1; o2]; closed_ := true |};
     outq_ := {| q_ := []; closed_ := false |};
     running_ := false; worker_ := WTest; caller_ := SJoin;
     accepted := [o1; o2]; processed := []; published := [];
     delivered := [] |}.
(** The state the schedule ends in. *)
Definition final : Engine :=
  {| book_ := empty_book;
     inq_ := {| q_ := [o1; o2]; closed_ := true |};
     outq_ := {| q_ := []; closed_ := true |};
     running_ := false; worker_ := WExited; caller_ := SReturned;
     accepted := [o1; o2]; processed := []; published := [];
     delivered := [] |}.
Definition schedule_mid : list Action :=
  [Submit o1; Submit o2; Worker; Worker; Shutdown; Shutdown;
   Worker; Worker; Shutdown; Shutdown].
(** The state the second schedule ends in. *)
Definition final_mid : Engine :=
  {| book_ := book_after [Add o1];
     inq_ := {| q_ := [o2]; closed_ := true |};
     outq_ := {| q_ := []; closed_ := true |};
     running_ := false; worker_ := WExited; caller_ := SReturned;
     accepted := [o1; o2]; processed := [o1]; published := [];
     delivered := [] |}.
End Drop.

(** One invocation of [shutdown()] wins the compare-exchange; a second
    invocation then finds [running_] cleared and returns at once, while
    the first has not yet closed a queue or joined the worker. *)
Module Again.
Definition schedule : list Action := [Shutdown; ShutdownAgain].
Definition final : Engine :=
  {| book_ := empty_book;
     inq_ := {| q_ := []; closed_ := false |};
     outq_ := {| q_ := []; closed_ := false |};
     running_ := false; worker_ := WTest; caller_ := SCloseIn;
     accepted := []; processed := []; published := [];
     delivered := [] |}.
(** The same with two crossing orders submitted and the worker holding
    the second one when the two invocations make their compare-exchange:
    the second invocation has returned in [returned_early], and the
    worker then matches the order and publishes the trade. *)
Definition schedule_late : list Action :=
  [Submit Drop.o1; Submit Drop.o2; Worker; Worker; Worker; Worker; Worker;
   Shutdown; ShutdownAgain].
Definition returned_early : Engine :=
  {| book_ := book_after [Add Drop.o1];
     inq_ := {| q_ := []; closed_ := false |};
     outq_ := {| q_ := []; closed_ := false |};
     running_ := false; worker_ := WAdd Drop.o2; caller_ := SCloseIn;
     accepted := [Drop.o1; Drop.o2]; processed := [Drop.o1];
     published := []; delivered := [] |}.
Definition event : EngineEvent := mkEvent TradeBatch [mkTrade 1%N 2%N 101 30].
Definition later : Engine :=
  {| book_ := book_after [Add Drop.o1; Add Drop.o2];
     inq_ := {| q_ := []; closed_ := false |};
     outq_ := {| q_ := [event]; closed_ := false |};
     running_ := false; worker_ := WTest; caller_ := SCloseIn;
     accepted := [Drop.o1; Drop.o2]; processed := [Drop.o1; Drop.o2];
     published := [event]; delivered := [] |}.
End Again.

(** ** Further notions about [add_order] *)

(** The incoming order crosses the book: the best price of the opposite
    side is within its limit. *)
Definition crosses (b : OrderBook) (o : Order) : Prop :=
  match side o with
  | Buy => match best_ask b with Some pa => pa ≤ price o | None => False end
  | Sell => match best_bid b with Some pb => price o ≤ pb | None => False end
  end.

(** The price [p] is within the limit of a taker of side [s]. *)
Definition within_limit (s : Side) (limit p : Price) : Prop :=
  match s with Buy => p ≤ limit | Sell => limit ≤ p end.

(** The resting order [r] is what is left of the order [o]: the same order
    but for a quantity that is positive and at most that of [o]. *)
Definition remainder_of (o r : Order) : Prop :=
  id r = id o ∧ side r = side o ∧ price r = price o ∧ ts r = ts o ∧
  0 < qty r ≤ qty o.

(** ** Histories of a ConcurrentQueue *)

(** The calls made on a queue, in the order in which they take the mutex. *)
Inductive QueueOp (T : Type) :=
  | QPush (v : T)
  | QPop
  | QTryPop
  | QClose.
Arguments QPush {T} _.
Arguments QPop {T}.
Arguments QTryPop {T}.
Arguments QClose {T}.

(** The values obtained by the pops of a history, in order, and the queue
    afterwards; [None] when a blocking [pop] of the history would still be
    waiting at its turn. *)
Fixpoint queue_run {T : Type} (ops : list (QueueOp T)) (s : ConcurrentQueue T)
    : option (list T * ConcurrentQueue T) :=
  match ops with
  | [] => Some ([], s)
  | QPush v :: ops' => queue_run ops' (push v s)
  | QPop :: ops' =>
    match pop s with
    | None => None
    | Some (v, s') =>
      match queue_run ops' s' with
      | None => None
      | Some (got, s'') => Some (option_list v ++ got, s'')
      end
    end
  | QTryPop :: ops' =>
    match queue_run ops' (try_pop s).2 with
    | None => None
    | Some (got, s'') => Some (option_list (try_pop s).1 ++ got, s'')
    end
  | QClose :: ops' => queue_run ops' (close s)
  end.

(** The values pushed by a history before its first [close]. *)
Fixpoint pushed_before_close {T : Type} (ops : list (QueueOp T)) : list T :=
  match ops with
  | [] => []
  | QPush v :: ops' => v :: pushed_before_close ops'
  | QClose :: _ => []
  | _ :: ops' => pushed_before_close ops'
  end.

Fixpoint has_close {T : Type} (ops : list (QueueOp T)) : bool :=
  match ops with
  | [] => false
  | QClose :: _ => true
  | _ :: ops' => has_close ops'
  end.

(** ** Events of the engine *)

(** The events that a list of outputs of the book calls for: one
    [TradeBatch] per non-empty list of trades. *)
Fixpoint batches (outs : list Out) : list EngineEvent :=
  match outs with
  | [] => []
  | Trades (t :: l) :: outs' => mkEvent TradeBatch (t :: l) :: batches outs'
  | _ :: outs' => batches outs'
  end.

(** The event the worker is about to publish. *)
Definition pending (pc : WorkerPc) : list EngineEvent :=
  match pc with
  | WPublish l => [mkEvent TradeBatch l]
  | _ => []
  end.

Record events_inv (e : Engine) : Prop := mkEventsInv {
  ev_published :
    published e ++ pending (worker_ e) =
    batches (run empty_book (Add <$> processed e)).1;
  ev_pending : match worker_ e with WPublish l => l ≠ [] | _ => True end;
  ev_queue : published e = delivered e ++ q_ (outq_ e)
}.

(** How far the worker is from its next [pop], in worker steps. *)
Definition worker_rank (pc : WorkerPc) : nat :=
  match pc with
  | WPop => 0
  | WTest => 1
  | WPublish _ => 2
  | WAdd _ => 3
  | WExited => 0
  end.

(** Two crossing orders are submitted and processed, and the event is
    taken by a consumer. *)
Module Flow.
Definition sell : Order := mkOrder 1%N Sell 101 10 0.
Definition buy : Order := mkOrder 2%N Buy 101 10 0.
Definition event : EngineEvent := mkEvent TradeBatch [mkTrade 1%N 2%N 101 10].
Definition schedule : list Action :=
  [Submit sell; Submit buy; Worker; Worker; Worker; Worker; Worker; Worker;
   Worker; PollEvent].
Definition final : Engine :=
  {| book_ := empty_book;
     inq_ := {| q_ := []; closed_ := false |};
     outq_ := {| q_ := []; closed_ := false |};
     running_ := true; worker_ := WTest; caller_ := SCas;
     accepted := [sell; buy]; processed := [sell; buy];
     published := [event]; delivered := [event] |}.
(** The state after the two submissions only. *)
Definition submitted_only : Engine :=
  {| book_ := empty_book;
     inq_ := {| q_ := [sell; buy]; closed_ := false |};
     outq_ := {| q_ := []; closed_ := false |};
     running_ := true; worker_ := WTest; caller_ := SCas;
     accepted := [sell; buy]; processed := []; published := [];
     delivered := [] |}.
End Flow.

(** Validity of a concrete sequence of calls, by computation. *)
Ltac solve_valid_ops :=
  split;
  [ repeat constructor; cbn; unfold int64_range, uint64_range; lia
  | cbn; repeat (apply NoDup_cons_2;
                 [ let H := fresh in
                   intros H;
                   repeat (apply elem_of_cons in H as [H|H]; [discriminate H|]);
                   by apply elem_of_nil in H
                 | ]);
    apply NoDup_nil_2 ].

(** * Proofs *)

#[global] Instance ltb_comparator : Comparator Z.ltb.
Proof. split; intros; lia. Qed.

#[global] Instance gtb_comparator : Comparator Z.gtb.
Proof. split; intros; lia. Qed.

(** ** 64-bit arithmetic *)

Lemma wrap64_id z : int64_range z → wrap64 z = z.
Proof.
  unfold int64_range, wrap64. intros H.
  rewrite Z.mod_small; lia.
Qed.

Lemma wrap64_0 : wrap64 0 = 0.
Proof. reflexivity. Qed.

Lemma sub_qty_id o t : id (sub_qty o t) = id o.
Proof. reflexivity. Qed.

Lemma sub_qty_side o t : side (sub_qty o t) = side o.
Proof. reflexivity. Qed.

Lemma sub_qty_price o t : price (sub_qty o t) = price o.
Proof. reflexivity. Qed.

Lemma sub_qty_qty o t :
  int64_range (qty o - t) → qty (sub_qty o t) = qty o - t.
Proof. intros H. simpl. by apply wrap64_id. Qed.

(** ** The inner loop *)

(** One unfolding of [match_queue] on a non-empty queue. *)
Lemma match_queue_cons order resting rest idx trades :
  match_queue order (resting :: rest) idx trades =
  if 0 <? qty order then
    let traded := Z.min (qty order) (qty resting) in
    let trades' :=
      trades ++ [mkTrade (id resting) (id order) (price resting) traded] in
    if qty (sub_qty resting traded) =? 0 then
      match_queue (sub_qty order traded) rest (delete (id resting) idx) trades'
    else (sub_qty order traded, sub_qty resting traded :: rest, idx, trades')
  else (order, resting :: rest, idx, trades).
Proof. reflexivity. Qed.

(** Induction over the runs of the inner loop: a property of the input and
    the result that holds when the loop does not run, when it breaks on a
    partial fill, and that is carried over a full fill, holds of every
    run. *)
Lemma match_queue_ind
    (P : Order → list Order → gmap OrderId (Side * Price) → list Trade →
         Order * list Order * gmap OrderId (Side * Price) * list Trade → Prop) :
  (∀ o idx tr, P o [] idx tr (o, [], idx, tr)) →
  (∀ o r rest idx tr, ¬ 0 < qty o → P o (r :: rest) idx tr (o, r :: rest, idx, tr)) →
  (∀ o r rest idx tr,
     0 < qty o →
     let t := Z.min (qty o) (qty r) in
     qty (sub_qty r t) ≠ 0 →
     P o (r :: rest) idx tr
       (sub_qty o t, sub_qty r t :: rest, idx,
        tr ++ [mkTrade (id r) (id o) (price r) t])) →
  (∀ o r rest idx tr res,
     0 < qty o →
     let t := Z.min (qty o) (qty r) in
     qty (sub_qty r t) = 0 →
     P (sub_qty o t) rest (delete (id r) idx)
       (tr ++ [mkTrade (id r) (id o) (price r) t]) res →
     P o (r :: rest) idx tr res) →
  ∀ queue o idx tr, P o queue idx tr (match_queue o queue idx tr).
Proof.
  intros Hnil Hstop Hpart Hfull queue.
  induction queue as [|r rest IH]; intros o idx tr.
  - apply Hnil.
  - rewrite match_queue_cons.
    destruct (Z.ltb_spec 0 (qty o)) as [Hpos|Hneg].
    + cbv zeta. destruct (Z.eqb_spec (qty (sub_qty r (Z.min (qty o) (qty r)))) 0)
        as [Hz|Hnz].
      * apply Hfull; [done..|]. apply IH.
      * by apply Hpart.
    + apply Hstop. lia.
Qed.

(** The incoming order keeps its identity. *)
Lemma match_queue_order o queue idx tr :
  let o' := (match_queue o queue idx tr).1.1.1 in
  id o' = id o ∧ side o' = side o ∧ price o' = price o.
Proof.
  revert queue o idx tr.
  apply (match_queue_ind (λ o _ _ _ res,
    id res.1.1.1 = id o ∧ side res.1.1.1 = side o ∧ price res.1.1.1 = price o));
    simpl; done.
Qed.

(** When the inner loop leaves orders in the queue, the incoming order is
    exhausted. *)
Lemma match_queue_exhausted o queue idx tr :
  (match_queue o queue idx tr).1.1.2 ≠ [] →
  ¬ 0 < qty (match_queue o queue idx tr).1.1.1.
Proof.
  revert queue o idx tr.
  apply (match_queue_ind (λ o _ _ _ res, res.1.1.2 ≠ [] → ¬ 0 < qty res.1.1.1));
    simpl; try done.
  intros o r rest idx tr Hpos Hnz _.
  assert (Z.min (qty o) (qty r) = qty o) as ->.
  { destruct (Z.min_spec (qty o) (qty r)) as [[_ E]|[_ E]]; [done|].
    exfalso. apply Hnz. rewrite E, Z.sub_diag. apply wrap64_0. }
  rewrite Z.sub_diag, wrap64_0. lia.
Qed.

(** ** The outer loop *)

Lemma cross_loop_S fuel before o levels idx tr :
  cross_loop (S fuel) before o levels idx tr =
  if 0 <? qty o then
    match levels with
    | [] => Some (o, levels, idx, tr)
    | (best_px, queue) :: others =>
      if before (price o) best_px then Some (o, levels, idx, tr)
      else
        let '(o', queue', idx', tr') := match_queue o queue idx tr in
        cross_loop fuel before o'
          (match queue' with [] => others | _ :: _ => (best_px, queue') :: others end)
          idx' tr'
    end
  else Some (o, levels, idx, tr).
Proof. reflexivity. Qed.

(** The crossing loop terminates: one unit of fuel per level and one more
    always suffice. *)
Lemma cross_loop_terminates fuel before o levels idx tr :
  (length levels < fuel)%nat ∨ (¬ 0 < qty o ∧ (0 < fuel)%nat) →
  is_Some (cross_loop fuel before o levels idx tr).
Proof.
  revert o levels idx tr.
  induction fuel as [|fuel IH]; intros o levels idx tr Hf; [lia|].
  rewrite cross_loop_S.
  destruct (Z.ltb_spec 0 (qty o)) as [Hpos|Hneg]; [|by eexists].
  destruct levels as [|[px q] others]; [by eexists|].
  destruct (before (price o) px); [by eexists|].
  pose proof (match_queue_exhausted o q idx tr) as Hex.
  destruct (match_queue o q idx tr) as [[[o' q'] idx'] tr']. simpl in Hex.
  apply IH. destruct q' as [|r q'].
  - left. simpl in Hf. lia.
  - right. split; [by apply Hex|]. simpl in Hf. lia.
Qed.

(** More fuel does not change the result. *)
Lemma cross_loop_mono fuel fuel' before o levels idx tr res :
  cross_loop fuel before o levels idx tr = Some res →
  (fuel ≤ fuel')%nat →
  cross_loop fuel' before o levels idx tr = Some res.
Proof.
  revert fuel' o levels idx tr.
  induction fuel as [|fuel IH]; intros fuel' o levels idx tr H Hle; [done|].
  destruct fuel' as [|fuel']; [lia|].
  rewrite cross_loop_S in *.
  destruct (0 <? qty o); [|done].
  destruct levels as [|[px q] others]; [done|].
  destruct (before (price o) px); [done|].
  destruct (match_queue o q idx tr) as [[[o' q'] idx'] tr'].
  apply IH; [done|lia].
Qed.

(** The rule of the crossing loop: an invariant of its body holds at its
    exit, together with the reason of the exit. *)
Lemma cross_loop_rule before
    (I : Order → Levels → gmap OrderId (Side * Price) → list Trade → Prop) :
  (∀ o px q others idx tr,
     I o ((px, q) :: others) idx tr →
     0 < qty o → before (price o) px = false →
     ∀ o' q' idx' tr',
       match_queue o q idx tr = (o', q', idx', tr') →
       I o' (match q' with [] => others | _ :: _ => (px, q') :: others end)
         idx' tr') →
  ∀ fuel o levels idx tr o' levels' idx' tr',
    I o levels idx tr →
    cross_loop fuel before o levels idx tr = Some (o', levels', idx', tr') →
    I o' levels' idx' tr' ∧ loop_exit before o' levels'.
Proof.
  intros Hbody fuel.
  induction fuel as [|fuel IH]; intros o levels idx tr o' levels' idx' tr' HI H;
    [done|].
  rewrite cross_loop_S in H.
  destruct (Z.ltb_spec 0 (qty o)) as [Hpos|Hneg].
  - destruct levels as [|[px q] others].
    + injection H as <- <- <- <-. split; [done|]. by right.
    + destruct (before (price o) px) eqn:Hw.
      * injection H as <- <- <- <-. split; [done|]. by right.
      * destruct (match_queue o q idx tr) as [[[o1 q1] idx1] tr1] eqn:Hm.
        eapply IH; [|exact H]. by eapply Hbody.
  - injection H as <- <- <- <-. split; [done|]. left. lia.
Qed.

(** [add_order] never runs out of fuel: with at least [cross_fuel] units
    the fuelled function returns the result of [add_order]. *)
Lemma add_order_fuel_enough b o fuel :
  (cross_fuel (opposite b (side o)) ≤ fuel)%nat →
  add_order_fuel fuel b o = Some (add_order b o).
Proof.
  intros Hle. unfold add_order.
  assert (is_Some (add_order_fuel (cross_fuel (opposite b (side o))) b o))
    as [r Hr].
  { unfold add_order_fuel, opposite. destruct (side o).
    - destruct (cross_loop_terminates (cross_fuel (asks_ b)) Z.ltb o (asks_ b)
                  (id_index_ b) []) as [[[[o' l'] i'] t'] ->]; [|by eexists].
      left. unfold cross_fuel. lia.
    - destruct (cross_loop_terminates (cross_fuel (bids_ b)) Z.gtb o (bids_ b)
                  (id_index_ b) []) as [[[[o' l'] i'] t'] ->]; [|by eexists].
      left. unfold cross_fuel. lia. }
  rewrite Hr. revert Hr Hle. unfold add_order_fuel, opposite.
  destruct (side o); intros Hr Hle.
  - destruct (cross_loop (cross_fuel (asks_ b)) Z.ltb o (asks_ b) (id_index_ b) [])
      as [res|] eqn:E; [|done].
    by rewrite (cross_loop_mono _ fuel _ _ _ _ _ _ E Hle).
  - destruct (cross_loop (cross_fuel (bids_ b)) Z.gtb o (bids_ b) (id_index_ b) [])
      as [res|] eqn:E; [|done].
    by rewrite (cross_loop_mono _ fuel _ _ _ _ _ _ E Hle).
Qed.

(** [add_order] as the crossing loop followed by [enqueue]. *)
Lemma add_order_eq b o :
  ∃ o' levels' idx' tr,
    cross_loop (cross_fuel (opposite b (side o))) (crossed_by (side o)) o
      (opposite b (side o)) (id_index_ b) [] = Some (o', levels', idx', tr) ∧
    add_order b o =
      (tr, if 0 <? qty o'
           then enqueue (with_opposite b (side o) levels' idx') o'
           else with_opposite b (side o) levels' idx').
Proof.
  pose proof (add_order_fuel_enough b o _ (Nat.le_refl _)) as H.
  unfold add_order_fuel, opposite, crossed_by, with_opposite in *.
  destruct (side o).
  - destruct (cross_loop _ _ _ _ _ _) as [[[[o' l'] i'] t']|]; [|done].
    exists o', l', i', t'. split; [done|]. congruence.
  - destruct (cross_loop _ _ _ _ _ _) as [[[[o' l'] i'] t']|]; [|done].
    exists o', l', i', t'. split; [done|]. congruence.
Qed.

(** ** Orders without quantity *)

(** C10: for every order with [qty ≤ 0], [add_order] returns no trade and
    leaves the whole book as it was: neither ladder and no index entry
    changes, and the order is not rejected either, [add_order] having no
    other outcome than its list of trades. *)
Theorem add_order_nonpositive_qty_discarded (b : OrderBook) (o : Order) :
  qty o ≤ 0 →
  add_order b o = ([], b) ∧
  ∀ fuel, (0 < fuel)%nat → add_order_fuel fuel b o = Some ([], b).
Proof.
  intros Hq.
  assert (∀ fuel, (0 < fuel)%nat → add_order_fuel fuel b o = Some ([], b)) as H.
  { intros [|fuel] Hf; [lia|].
    unfold add_order_fuel. rewrite !cross_loop_S.
    destruct (Z.ltb_spec 0 (qty o)) as [?|_]; [lia|].
    destruct b, (side o); simpl; destruct (Z.ltb_spec 0 (qty o)); (done || lia). }
  split; [|done].
  unfold add_order. rewrite H; [done|]. unfold cross_fuel. lia.
Qed.

Lemma add_order_nonpositive_qty_discarded_witness :
  add_order S2.before4 (mkOrder 9%N Buy 102 0 0) = ([], S2.before4) ∧
  add_order S2.before4 (mkOrder 9%N Sell 100 (-5) 0) = ([], S2.before4).
Proof.
  split.
  - apply (add_order_nonpositive_qty_discarded S2.before4 (mkOrder 9%N Buy 102 0 0)).
    simpl. lia.
  - apply (add_order_nonpositive_qty_discarded S2.before4
             (mkOrder 9%N Sell 100 (-5) 0)).
    simpl. lia.
Defined.

(** ** Scenario S2 *)

(** The outcome listed for the scenario is not the one of the code: the
    asks side is not empty after order 4, ten units of order 2 are left. *)
Lemma s2_asks_not_empty :
  ¬ ((add_order S2.before4 S2.buy4).1 =
       [mkTrade 1%N 4%N 101 50; mkTrade 2%N 4%N 102 30] ∧
     residual S2.before4 S2.buy4 = 0 ∧
     asks_ (add_order S2.before4 S2.buy4).2 = [] ∧
     bids_ (add_order S2.before4 S2.buy4).2 = [(100, [S2.buy3])]).
Proof. intros (_ & _ & H & _). vm_compute in H. discriminate H. Qed.

(** C1 (amended): from the empty book, after Sell 1 @101 x50, Sell 2 @102
    x40 and Buy 3 @100 x70, [add_order] of Buy 4 @102 x80 returns the
    trades (1,4,101,50) then (2,4,102,30); order 4 is fully filled; the
    bids side holds only order 3 with 70 at 100, and the asks side holds
    only order 2 with its remaining 10 at 102. *)
Theorem s2_full_cross :
  (add_order S2.before4 S2.buy4).1 = [mkTrade 1%N 4%N 101 50; mkTrade 2%N 4%N 102 30] ∧
  residual S2.before4 S2.buy4 = 0 ∧
  bids_ (add_order S2.before4 S2.buy4).2 = [(100, [S2.buy3])] ∧
  asks_ (add_order S2.before4 S2.buy4).2 = [(102, [mkOrder 2%N Sell 102 10 0])] ∧
  id_index_ (add_order S2.before4 S2.buy4).2 =
    {[ 2%N := (Sell, 102); 3%N := (Buy, 100) ]}.
Proof. vm_compute. done. Qed.

(** ** ConcurrentQueue *)

Lemma pop_many_drain {T : Type} (vs : list T) (c : bool) :
  pop_many (length vs) (mkQueue vs c) = Some (vs, false, mkQueue [] c).
Proof.
  induction vs as [|v vs IH]; [done|].
  change (pop_many (length (v :: vs)) (mkQueue (v :: vs) c))
    with (match pop_many (length vs) (mkQueue vs c) with
          | None => None
          | Some (l, fin, s'') => Some (v :: l, fin, s'')
          end).
  by rewrite IH.
Qed.

Lemma try_pop_many_drain {T : Type} (vs : list T) (c : bool) :
  try_pop_many (length vs) (mkQueue vs c) = (vs, false, mkQueue [] c).
Proof.
  induction vs as [|v vs IH]; [done|].
  simpl. by rewrite IH.
Qed.

Lemma pop_many_drain_false {T : Type} (vs : list T) :
  pop_many (S (length vs)) (mkQueue vs true) = Some (vs, true, mkQueue [] true).
Proof.
  induction vs as [|v vs IH]; [done|].
  change (pop_many (S (length (v :: vs))) (mkQueue (v :: vs) true))
    with (match pop_many (S (length vs)) (mkQueue vs true) with
          | None => None
          | Some (l, fin, s'') => Some (v :: l, fin, s'')
          end).
  by rewrite IH.
Qed.

Lemma try_pop_many_drain_false {T : Type} (vs : list T) (c : bool) :
  try_pop_many (S (length vs)) (mkQueue vs c) = (vs, true, mkQueue [] c).
Proof.
  induction vs as [|v vs IH]; [done|].
  change (try_pop_many (S (length (v :: vs))) (mkQueue (v :: vs) c))
    with (let '(l, fin, s'') := try_pop_many (S (length vs)) (mkQueue vs c)
          in (v :: l, fin, s'')).
  by rewrite IH.
Qed.

Lemma pop_false_iff {T : Type} (s s' : ConcurrentQueue T) :
  pop s = Some (None, s') ↔ closed_ s = true ∧ q_ s = [] ∧ s' = s.
Proof.
  unfold pop. destruct s as [[|v vs] []]; simpl; split;
    try done; try (by intros (? & ? & ?)).
  - by intros [= <-].
  - by intros (_ & _ & ->).
Qed.

(** C8: a [push] after [close] drops the value: the queue is unchanged,
    and [push] has nothing to report to the producer; [close] is
    idempotent; the values enqueued before [close] are still obtained, in
    FIFO order, by blocking [pop] and by [try_pop]; the blocking [pop]
    returns [false] exactly when the queue is closed and empty, so only
    after the last of them. *)
Theorem queue_close_semantics {T : Type} (s : ConcurrentQueue T) :
  (∀ v, push v (close s) = close s) ∧
  (∀ vs, foldr push (close s) vs = close s) ∧
  close (close s) = close s ∧
  pop_many (length (q_ s)) (close s) = Some (q_ s, false, mkQueue [] true) ∧
  pop_many (S (length (q_ s))) (close s) = Some (q_ s, true, mkQueue [] true) ∧
  try_pop_many (length (q_ s)) (close s) = (q_ s, false, mkQueue [] true) ∧
  try_pop_many (S (length (q_ s))) (close s) = (q_ s, true, mkQueue [] true) ∧
  (∀ s0 s1 : ConcurrentQueue T,
     pop s0 = Some (None, s1) ↔ closed_ s0 = true ∧ q_ s0 = [] ∧ s1 = s0).
Proof.
  split_and!.
  - done.
  - induction vs as [|v vs IH]; [done|]. simpl. by rewrite IH.
  - done.
  - apply pop_many_drain.
  - apply pop_many_drain_false.
  - apply try_pop_many_drain.
  - apply try_pop_many_drain_false.
  - apply pop_false_iff.
Qed.

(** ** The index of a list of resting orders *)

Lemma index_of_keys (l : list Order) :
  ((λ o, (id o, (side o, price o))) <$> l).*1 = id <$> l.
Proof. rewrite <-list_fmap_compose. done. Qed.

Lemma index_of_cons o (l : list Order) :
  index_of (o :: l) = <[id o := (side o, price o)]> (index_of l).
Proof. done. Qed.

Lemma index_of_perm (l l' : list Order) :
  NoDup (id <$> l) → l ≡ₚ l' → index_of l = index_of l'.
Proof.
  intros Hnd Hp. apply list_to_map_proper.
  - by rewrite index_of_keys.
  - by rewrite Hp.
Qed.

Lemma index_of_None (l : list Order) i :
  index_of l !! i = None ↔ i ∉ id <$> l.
Proof.
  unfold index_of. rewrite <-not_elem_of_list_to_map, index_of_keys. done.
Qed.

Lemma index_of_Some (l : list Order) i s p :
  NoDup (id <$> l) →
  index_of l !! i = Some (s, p) ↔
  ∃ o, o ∈ l ∧ id o = i ∧ side o = s ∧ price o = p.
Proof.
  intros Hnd. unfold index_of.
  rewrite <-elem_of_list_to_map by (by rewrite index_of_keys).
  rewrite list_elem_of_fmap. split.
  - intros (o & [= -> -> ->] & Ho). by exists o.
  - intros (o & Ho & <- & <- & <-). by exists o.
Qed.

Lemma index_of_delete_head r (l : list Order) :
  id r ∉ id <$> l → delete (id r) (index_of (r :: l)) = index_of l.
Proof.
  intros Hr. rewrite index_of_cons. apply delete_insert_id.
  by apply index_of_None.
Qed.

Lemma index_of_delete_mid (l1 l2 : list Order) r :
  NoDup (id <$> (l1 ++ r :: l2)) →
  delete (id r) (index_of (l1 ++ r :: l2)) = index_of (l1 ++ l2).
Proof.
  intros Hnd.
  assert (l1 ++ r :: l2 ≡ₚ r :: (l1 ++ l2)) as Hp
    by (by rewrite Permutation_middle).
  rewrite (index_of_perm _ _ Hnd Hp).
  apply index_of_delete_head.
  rewrite Hp in Hnd. rewrite fmap_cons in Hnd.
  by apply NoDup_cons in Hnd as [? _].
Qed.

Lemma foldr_add_init z (l : list Z) : foldr Z.add z l = z + foldr Z.add 0 l.
Proof. induction l as [|y l IH]; simpl; lia. Qed.

Lemma total_qty_cons o l : total_qty (o :: l) = qty o + total_qty l.
Proof. done. Qed.

Lemma total_qty_app l k : total_qty (l ++ k) = total_qty l + total_qty k.
Proof.
  unfold total_qty. rewrite fmap_app, foldr_app, (foldr_add_init (foldr _ _ _)). lia.
Qed.

Lemma traded_qty_app l k : traded_qty (l ++ k) = traded_qty l + traded_qty k.
Proof.
  unfold traded_qty. rewrite fmap_app, foldr_app, (foldr_add_init (foldr _ _ _)). lia.
Qed.

Lemma traded_qty_snoc l t : traded_qty (l ++ [t]) = traded_qty l + trade_qty t.
Proof. rewrite traded_qty_app. unfold traded_qty. simpl. lia. Qed.

Lemma total_qty_perm l k : l ≡ₚ k → total_qty l = total_qty k.
Proof.
  induction 1 as [|x l k _ IH|x y l|l k m _ IH1 _ IH2];
    rewrite ?total_qty_cons; lia.
Qed.

(** ** The inner loop and the invariants *)

(** The index follows the queue: the orders removed from the queue are
    removed from the index, [x] being the rest of the book. *)
Lemma match_queue_index o queue idx tr (x : list Order) :
  NoDup (id <$> (queue ++ x)) →
  idx = index_of (queue ++ x) →
  NoDup (id <$> ((match_queue o queue idx tr).1.1.2 ++ x)) ∧
  (match_queue o queue idx tr).1.2 =
    index_of ((match_queue o queue idx tr).1.1.2 ++ x).
Proof.
  revert queue o idx tr.
  apply (match_queue_ind (λ o queue idx tr res,
    NoDup (id <$> (queue ++ x)) → idx = index_of (queue ++ x) →
    NoDup (id <$> (res.1.1.2 ++ x)) ∧ res.1.2 = index_of (res.1.1.2 ++ x)));
    cbn [fst snd]; try done.
  intros o r rest idx tr res _ _ IH Hnd ->.
  apply NoDup_cons in Hnd as [Hr Hnd].
  apply IH; [done|]. by apply (index_of_delete_head r (rest ++ x)).
Qed.

(** Quantities: no subtraction wraps, the orders left in the queue keep a
    positive quantity, and the quantity taken from both sides is twice the
    quantity traded. *)
Lemma match_queue_arith s px o queue idx tr :
  0 ≤ qty o < 2 ^ 63 →
  Forall (resting_ok s px) queue →
  let res := match_queue o queue idx tr in
  0 ≤ qty res.1.1.1 ≤ qty o ∧
  Forall (resting_ok s px) res.1.1.2 ∧
  qty o + total_qty queue + 2 * traded_qty tr =
    qty res.1.1.1 + total_qty res.1.1.2 + 2 * traded_qty res.2.
Proof.
  revert queue o idx tr.
  apply (match_queue_ind (λ o queue idx tr res,
    0 ≤ qty o < 2 ^ 63 → Forall (resting_ok s px) queue →
    0 ≤ qty res.1.1.1 ≤ qty o ∧ Forall (resting_ok s px) res.1.1.2 ∧
    qty o + total_qty queue + 2 * traded_qty tr =
      qty res.1.1.1 + total_qty res.1.1.2 + 2 * traded_qty res.2));
    cbn [fst snd].
  - intros. repeat split; (lia || done).
  - intros. repeat split; (lia || done).
  - intros o r rest idx tr Hpos Hnz Ho Hq.
    set (t := Z.min (qty o) (qty r)) in *.
    apply Forall_cons in Hq as [(Hs & Hp & Hr) Hq].
    assert (0 < t ≤ qty o ∧ t ≤ qty r) as Ht by (unfold t; lia).
    rewrite traded_qty_snoc, !total_qty_cons.
    unfold resting_ok. rewrite Forall_cons. cbn [qty sub_qty side price trade_qty] in *.
    rewrite !wrap64_id in * by (unfold int64_range; lia).
    repeat split; (lia || done).
  - intros o r rest idx tr res Hpos Hz IH Ho Hq.
    set (t := Z.min (qty o) (qty r)) in *.
    apply Forall_cons in Hq as [(Hs & Hp & Hr) Hq].
    assert (0 < t ≤ qty o ∧ t ≤ qty r) as Ht by (unfold t; lia).
    rewrite traded_qty_snoc, !total_qty_cons in *.
    cbn [qty sub_qty side price trade_qty] in *.
    rewrite !wrap64_id in * by (unfold int64_range; lia).
    destruct IH as (IH1 & IH2 & IH3); [lia|done|].
    repeat split; (lia || done).
Qed.

(** Every trade of the inner loop is made against an order of the queue,
    at that order's price, for a positive quantity. *)
Lemma match_queue_trades s px i (makers : list Order) o queue idx tr :
  0 ≤ qty o < 2 ^ 63 →
  Forall (resting_ok s px) queue →
  id o = i →
  queue ⊆ makers →
  Forall (trade_ok i makers) tr →
  Forall (trade_ok i makers) (match_queue o queue idx tr).2.
Proof.
  revert queue o idx tr.
  apply (match_queue_ind (λ o queue idx tr res,
    0 ≤ qty o < 2 ^ 63 → Forall (resting_ok s px) queue → id o = i →
    queue ⊆ makers → Forall (trade_ok i makers) tr →
    Forall (trade_ok i makers) res.2)); cbn [fst snd]; try done.
  - intros o r rest idx tr Hpos Hnz Ho Hq Hi Hsub Htr.
    apply Forall_cons in Hq as [(Hs & Hp & Hr) Hq].
    apply Forall_app. split; [done|]. apply Forall_singleton.
    split; [done|]. exists r. cbn.
    repeat split; [|lia|lia]. apply Hsub. by left.
  - intros o r rest idx tr res Hpos Hz IH Ho Hq Hi Hsub Htr.
    apply Forall_cons in Hq as [(Hs & Hp & Hr) Hq].
    apply IH; [|done|done| |].
    + cbn. rewrite wrap64_id by (unfold int64_range; lia). lia.
    + intros m Hm. apply Hsub. by right.
    + apply Forall_app. split; [done|]. apply Forall_singleton.
      split; [done|]. exists r. cbn.
      repeat split; [|lia|lia]. apply Hsub. by left.
Qed.

(** The makers of the inner loop are taken from the head of the queue, in
    queue order, and what is left of the queue is its tail end. *)
Lemma match_queue_fifo o queue idx tr :
  ∃ new,
    (match_queue o queue idx tr).2 = tr ++ new ∧
    maker_id <$> new `prefix_of` id <$> queue ∧
    ((match_queue o queue idx tr).1.1.2 = [] →
     maker_id <$> new = id <$> queue) ∧
    id <$> (match_queue o queue idx tr).1.1.2 `suffix_of` id <$> queue.
Proof.
  revert queue o idx tr.
  apply (match_queue_ind (λ o queue idx tr res,
    ∃ new, res.2 = tr ++ new ∧
      maker_id <$> new `prefix_of` id <$> queue ∧
      (res.1.1.2 = [] → maker_id <$> new = id <$> queue) ∧
      id <$> res.1.1.2 `suffix_of` id <$> queue)); cbn [fst snd].
  - intros. exists []. by rewrite app_nil_r.
  - intros. exists []. rewrite app_nil_r.
    repeat split; [apply prefix_nil|done|done].
  - intros o r rest idx tr _ _.
    eexists [_]. split; [done|]. repeat split; [|done|done].
    rewrite !fmap_cons. apply prefix_cons, prefix_nil.
  - intros o r rest idx tr res _ _ (new & -> & Hpre & Hall & Hsuf).
    eexists (_ :: new). rewrite <-app_assoc. split; [done|].
    rewrite !fmap_cons. cbn [maker_id].
    repeat split.
    + by apply prefix_cons.
    + intros E. by rewrite (Hall E).
    + by apply suffix_cons_r.
Qed.

(** ** Ladders *)

Lemma resting_cons px q (levels : Levels) :
  resting ((px, q) :: levels) = q ++ resting levels.
Proof. done. Qed.

Lemma resting_app (l1 l2 : Levels) : resting (l1 ++ l2) = resting l1 ++ resting l2.
Proof. unfold resting. by rewrite fmap_app, concat_app. Qed.

Lemma elem_of_resting o (levels : Levels) :
  o ∈ resting levels ↔ ∃ px q, (px, q) ∈ levels ∧ o ∈ q.
Proof.
  induction levels as [|[px q] levels IH].
  - split; [by intros ?%elem_of_nil|]. by intros (? & ? & ?%elem_of_nil & _).
  - rewrite resting_cons, elem_of_app, IH. split.
    + intros [Ho|(px' & q' & Hin & Ho)].
      * exists px, q. split; [by left|done].
      * exists px', q'. split; [by right|done].
    + intros (px' & q' & Hin & Ho). apply elem_of_cons in Hin as [[= -> ->]|Hin].
      * by left.
      * right. by exists px', q'.
Qed.

Lemma ladder_ok_nil s before : ladder_ok s before [].
Proof. split; constructor. Qed.

Lemma ladder_ok_tail s before lvl (levels : Levels) :
  ladder_ok s before (lvl :: levels) → ladder_ok s before levels.
Proof.
  intros [Hs Hf]. split.
  - rewrite fmap_cons in Hs. by apply StronglySorted_inv in Hs as [? _].
  - by apply Forall_cons in Hf as [_ ?].
Qed.

Lemma ladder_ok_head s before px q q' (levels : Levels) :
  ladder_ok s before ((px, q) :: levels) →
  q' ≠ [] → Forall (resting_ok s px) q' →
  ladder_ok s before ((px, q') :: levels).
Proof.
  intros [Hs Hf] Hne Hq. split; [done|].
  apply Forall_cons in Hf as [_ Hf]. by apply Forall_cons.
Qed.

Lemma ladder_ok_queue s before px q (levels : Levels) :
  ladder_ok s before levels → (px, q) ∈ levels →
  q ≠ [] ∧ Forall (resting_ok s px) q.
Proof.
  intros [_ Hf] Hin. rewrite Forall_forall in Hf. apply (Hf _ Hin).
Qed.

Lemma ladder_ok_resting s before (levels : Levels) :
  ladder_ok s before levels →
  Forall (λ o, side o = s ∧ 0 < qty o < 2 ^ 63) (resting levels).
Proof.
  intros Hl. apply Forall_forall. intros o (px & q & Hin & Ho)%elem_of_resting.
  destruct (ladder_ok_queue _ _ _ _ _ Hl Hin) as [_ Hq].
  rewrite Forall_forall in Hq. by destruct (Hq _ Ho) as (? & ? & ?).
Qed.

(** The head of a ladder is its best level: every other key comes after. *)
Lemma ladder_ok_best s before px q (levels : Levels) p :
  ladder_ok s before ((px, q) :: levels) →
  p ∈ levels.*1 → before px p = true.
Proof.
  intros [Hs _] Hp. rewrite fmap_cons in Hs.
  apply StronglySorted_inv in Hs as [_ Hall].
  rewrite Forall_forall in Hall. by apply Hall.
Qed.

(** ** The invariant of the crossing loop *)

Lemma cross_inv_init s before o0 levels0 x idx :
  0 ≤ qty o0 →
  ladder_ok s before levels0 →
  NoDup (id <$> (resting levels0 ++ x)) →
  idx = index_of (resting levels0 ++ x) →
  cross_inv s before o0 levels0 x o0 levels0 idx [].
Proof.
  intros Hq Hl Hnd Hidx. split; try done.
  - unfold traded_qty. simpl. lia.
  - apply prefix_nil.
  - apply Forall_forall. intros [px q] Hin. by exists q.
Qed.

Lemma cross_inv_body s before o0 levels0 x :
  qty o0 < 2 ^ 63 →
  ∀ o px q others idx tr,
    cross_inv s before o0 levels0 x o ((px, q) :: others) idx tr →
    0 < qty o → before (price o) px = false →
    ∀ o' q' idx' tr',
      match_queue o q idx tr = (o', q', idx', tr') →
      cross_inv s before o0 levels0 x o'
        (match q' with [] => others | _ :: _ => (px, q') :: others end)
        idx' tr'.
Proof.
  intros Hrange o px q others idx tr HI Hpos _ o' q' idx' tr' Hm.
  destruct HI as [Hid Hside Hprice Hqty Hlad Hkeys Hids Hnd Hidx Hsum Htr
                    Hsame Hpre Hfifo Hlev].
  specialize (Hsame Hpos). specialize (Hfifo Hpos).
  rewrite resting_cons in *.
  destruct (ladder_ok_queue _ _ _ _ _ Hlad (list_elem_of_here _ _)) as [Hne Hq].
  pose proof (match_queue_order o q idx tr) as Hord.
  pose proof (match_queue_exhausted o q idx tr) as Hex.
  pose proof (match_queue_index o q idx tr (resting others ++ x)) as Hix.
  pose proof (match_queue_arith s px o q idx tr) as Har.
  pose proof (match_queue_trades s px (id o0) (resting levels0) o q idx tr) as Hto.
  destruct (match_queue_fifo o q idx tr) as (new & Hnew & Hmk & Hall & Hsuf).
  rewrite Hm in *. cbn [fst snd] in *.
  destruct Hord as (Hid' & Hside' & Hprice').
  rewrite <-app_assoc in Hnd, Hidx.
  destruct (Hix Hnd Hidx) as [Hnd' Hidx'].
  destruct Har as (Hq1 & Hq2 & Hq3); [lia|done|].
  pose (levels' := match q' with [] => others | _ :: _ => (px, q') :: others end).
  change (cross_inv s before o0 levels0 x o' levels' idx' tr').
  assert (resting levels' = q' ++ resting others) as Hrest
    by (unfold levels'; by destruct q').
  assert (0 < qty o' → q' = []) as Hdone.
  { intros Hp. destruct q' as [|r q']; [done|]. by destruct Hex. }
  split.
  - congruence.
  - congruence.
  - congruence.
  - lia.
  - unfold levels'. destruct q' as [|r q'].
    + by eapply ladder_ok_tail.
    + by eapply ladder_ok_head.
  - intros p Hp. apply Hkeys. unfold levels' in Hp.
    destruct q'; [by right|done].
  - rewrite Hrest. intros i Hi. apply Hids.
    rewrite fmap_app in *. apply elem_of_app in Hi as [Hi|Hi].
    + apply elem_of_app. left. destruct Hsuf as [k ->]. apply elem_of_app. by right.
    + apply elem_of_app. by right.
  - by rewrite Hrest, <-app_assoc.
  - by rewrite Hrest, <-app_assoc.
  - rewrite Hrest. rewrite total_qty_app in *. lia.
  - apply Hto; [lia|done|done| |done].
    intros m Hm'. destruct Hsame as [k ->]. apply elem_of_app. right.
    apply elem_of_app. by left.
  - intros Hp. rewrite Hrest, (Hdone Hp). simpl.
    destruct Hsame as [k ->]. exists (k ++ q). by rewrite app_assoc.
  - rewrite Hnew, fmap_app, <-Hfifo, fmap_app.
    apply prefix_app, prefix_app_r, Hmk.
  - intros Hp. rewrite Hrest, (Hdone Hp). simpl.
    rewrite Hnew, fmap_app, (Hall (Hdone Hp)), <-Hfifo, fmap_app.
    by rewrite app_assoc.
  - apply Forall_cons in Hlev as [(q0 & Hin & Hs0) Hlev]. cbn [fst snd] in *.
    unfold levels'. destruct q' as [|r q']; [done|].
    apply Forall_cons. split; [|done]. exists q0. split; [done|].
    cbn [fst snd]. by etrans.
Qed.

(** The crossing loop from a book that satisfies the invariants. *)
Lemma cross_loop_inv s before fuel o0 levels0 x idx0 o' levels' idx' tr' :
  0 ≤ qty o0 < 2 ^ 63 →
  ladder_ok s before levels0 →
  NoDup (id <$> (resting levels0 ++ x)) →
  idx0 = index_of (resting levels0 ++ x) →
  cross_loop fuel before o0 levels0 idx0 [] = Some (o', levels', idx', tr') →
  cross_inv s before o0 levels0 x o' levels' idx' tr' ∧
  loop_exit before o' levels'.
Proof.
  intros Hq Hl Hnd Hidx Hrun.
  eapply (cross_loop_rule before (cross_inv s before o0 levels0 x));
    [|by apply cross_inv_init; [lia|..]|exact Hrun].
  apply cross_inv_body. lia.
Qed.

(** ** [enqueue] *)

Section level_push.
Context (before : Price → Price → bool) `{!Comparator before}.

Lemma level_push_resting o (levels : Levels) :
  resting (level_push before o levels) ≡ₚ o :: resting levels.
Proof.
  induction levels as [|[px q] levels IH]; [done|].
  cbn [level_push]. destruct (px =? price o).
  - rewrite !resting_cons, <-app_assoc. symmetry. apply Permutation_middle.
  - destruct (before (price o) px); [done|].
    rewrite !resting_cons, IH. by rewrite Permutation_middle.
Qed.

Lemma level_push_keys o (levels : Levels) p :
  p ∈ (level_push before o levels).*1 ↔ p = price o ∨ p ∈ levels.*1.
Proof.
  induction levels as [|[px q] levels IH].
  - simpl. rewrite list_elem_of_singleton. split; [by left|].
    by intros [?|?%elem_of_nil].
  - cbn [level_push]. destruct (Z.eqb_spec px (price o)) as [->|Hne].
    + rewrite !fmap_cons. cbn [fst]. rewrite !elem_of_cons. intuition congruence.
    + destruct (before (price o) px).
      * rewrite !fmap_cons. cbn [fst]. rewrite !elem_of_cons. intuition congruence.
      * rewrite !fmap_cons. cbn [fst]. rewrite !elem_of_cons, IH. intuition congruence.
Qed.

Lemma level_push_ok s o (levels : Levels) :
  ladder_ok s before levels →
  resting_ok s (price o) o →
  ladder_ok s before (level_push before o levels).
Proof.
  intros Hl Ho. induction levels as [|[px q] levels IH].
  - split; [repeat constructor|].
    apply Forall_singleton. split; [done|]. by apply Forall_singleton.
  - cbn [level_push]. destruct (Z.eqb_spec px (price o)) as [->|Hne].
    + destruct Hl as [Hs Hf]. split; [done|].
      apply Forall_cons in Hf as [[_ Hq] Hf]. apply Forall_cons. split; [|done].
      cbn [fst snd] in *. split; [by destruct q|].
      apply Forall_app. split; [done|]. by apply Forall_singleton.
    + destruct (before (price o) px) eqn:Hb.
      * destruct Hl as [Hs Hf]. split.
        -- rewrite fmap_cons. cbn [fst]. constructor; [done|].
           rewrite fmap_cons in *. cbn [fst] in *. apply Forall_cons. split; [done|].
           apply StronglySorted_inv in Hs as [_ Hall].
           eapply Forall_impl; [exact Hall|]. intros p Hp.
           by eapply before_trans.
        -- apply Forall_cons. split; [|done].
           split; [done|]. by apply Forall_singleton.
      * specialize (IH (ladder_ok_tail _ _ _ _ Hl)). destruct IH as [IHs IHf].
        split.
        -- rewrite fmap_cons. cbn [fst]. constructor; [done|].
           apply Forall_forall. intros p [->|Hp]%level_push_keys.
           ++ apply before_total; [done|congruence].
           ++ by eapply ladder_ok_best.
        -- destruct Hl as [_ Hf]. apply Forall_cons in Hf as [Hq _].
           by apply Forall_cons.
Qed.

(** Each level after the push: the new order alone, or a queue of before
    the push, with the new order at its tail when it is at its price. *)
Lemma level_push_levels o (levels : Levels) :
  Forall (λ lvl, lvl.2 = [o] ∨
                 ∃ q, (lvl.1, q) ∈ levels ∧ (lvl.2 = q ∨ lvl.2 = q ++ [o]))
         (level_push before o levels).
Proof.
  induction levels as [|[px q] levels IH].
  - apply Forall_singleton. by left.
  - cbn [level_push]. destruct (px =? price o).
    + apply Forall_cons. split.
      * right. exists q. split; [by left|by right].
      * apply Forall_forall. intros [px' q'] Hin. right. exists q'.
        split; [by right|by left].
    + destruct (before (price o) px).
      * apply Forall_cons. split; [by left|].
        apply Forall_forall. intros [px' q'] Hin. right. exists q'.
        split; [done|by left].
      * apply Forall_cons. split.
        -- right. exists q. split; [by left|by left].
        -- eapply Forall_impl; [exact IH|]. intros [px' q'] [?|(q0 & ? & ?)];
             [by left|]. right. exists q0. split; [by right|done].
Qed.
End level_push.

(** ** [add_order] on a book that satisfies the invariants *)

Lemma all_resting_sides b s :
  all_resting b ≡ₚ resting (opposite b s) ++ resting (own b s).
Proof.
  unfold all_resting. destruct s; simpl; [apply Permutation_app_comm|done].
Qed.

Lemma book_inv_opposite b s :
  book_inv b → ladder_ok (other_side s) (crossed_by s) (opposite b s).
Proof. intros [Hb Ha _ _ _]. by destruct s. Qed.

Lemma book_inv_own b s :
  book_inv b → ladder_ok s (crossed_by (other_side s)) (own b s).
Proof. intros [Hb Ha _ _ _]. by destruct s. Qed.

Lemma enqueue_eq b o :
  enqueue b o =
  match side o with
  | Buy => {| bids_ := level_push (crossed_by (other_side Buy)) o (bids_ b);
              asks_ := asks_ b;
              id_index_ := <[id o := (side o, price o)]> (id_index_ b) |}
  | Sell => {| bids_ := bids_ b;
               asks_ := level_push (crossed_by (other_side Sell)) o (asks_ b);
               id_index_ := <[id o := (side o, price o)]> (id_index_ b) |}
  end.
Proof. done. Qed.

#[global] Instance crossed_by_comparator s : Comparator (crossed_by s).
Proof. destruct s; apply _. Qed.

(** [add_order] as its crossing loop, with the invariant of the loop and
    the reason of its exit. *)
Lemma add_order_cross b o :
  book_inv b → 0 ≤ qty o < 2 ^ 63 →
  ∃ o' levels' idx' tr,
    add_order b o =
      (tr, if 0 <? qty o'
           then enqueue (with_opposite b (side o) levels' idx') o'
           else with_opposite b (side o) levels' idx') ∧
    residual b o = qty o' ∧
    cross_inv (other_side (side o)) (crossed_by (side o)) o
      (opposite b (side o)) (resting (own b (side o))) o' levels' idx' tr ∧
    loop_exit (crossed_by (side o)) o' levels'.
Proof.
  intros Hinv Hq.
  destruct (add_order_eq b o) as (o' & levels' & idx' & tr & Hrun & Hadd).
  exists o', levels', idx', tr. split; [done|].
  split; [unfold residual; by rewrite Hrun|].
  eapply cross_loop_inv; [done| | | |exact Hrun].
  - by apply book_inv_opposite.
  - rewrite <-all_resting_sides. apply Hinv.
  - rewrite (inv_index _ Hinv). apply index_of_perm; [apply Hinv|].
    apply all_resting_sides.
Qed.

Lemma with_opposite_resting b s levels idx :
  all_resting (with_opposite b s levels idx) ≡ₚ
  resting levels ++ resting (own b s).
Proof.
  unfold all_resting. destruct s; simpl; [apply Permutation_app_comm|done].
Qed.

Lemma enqueue_resting b o :
  all_resting (enqueue b o) ≡ₚ o :: all_resting b.
Proof.
  rewrite enqueue_eq. unfold all_resting. destruct (side o); simpl.
  - by rewrite level_push_resting by apply _.
  - rewrite level_push_resting by apply _. by rewrite Permutation_middle.
Qed.

Lemma with_opposite_inv b s levels idx :
  book_inv b →
  ladder_ok (other_side s) (crossed_by s) levels →
  levels.*1 ⊆ (opposite b s).*1 →
  NoDup (id <$> (resting levels ++ resting (own b s))) →
  idx = index_of (resting levels ++ resting (own b s)) →
  book_inv (with_opposite b s levels idx).
Proof.
  intros [Hb Ha Hnd Hidx Hcr] Hl Hkeys Hnd' ->.
  pose proof (with_opposite_resting b s levels ∅) as Hp.
  destruct s; simpl in *; split; simpl; try done.
  - unfold all_resting. cbn [bids_ asks_].
    by rewrite (Permutation_app_comm (resting (bids_ b))).
  - apply index_of_perm; [done|]. apply Permutation_app_comm.
  - intros pb pa Hpb Hpa. apply Hcr; [done|]. by apply Hkeys.
  - intros pb pa Hpb Hpa. apply Hcr; [|done]. by apply Hkeys.
Qed.

Lemma enqueue_inv b o :
  book_inv b →
  resting_ok (side o) (price o) o →
  id o ∉ id <$> all_resting b →
  (∀ p, p ∈ (opposite b (side o)).*1 → crossed_by (side o) (price o) p = true) →
  book_inv (enqueue b o).
Proof.
  intros Hinv Ho Hfresh Hcross.
  pose proof (enqueue_resting b o) as Hp.
  assert (NoDup (id <$> all_resting (enqueue b o))) as Hnd.
  { rewrite Hp, fmap_cons. apply NoDup_cons. split; [done|]. apply Hinv. }
  assert (id_index_ (enqueue b o) = index_of (all_resting (enqueue b o))) as Hix.
  { rewrite (index_of_perm _ _ Hnd Hp), index_of_cons, <-(inv_index _ Hinv).
    rewrite enqueue_eq. by destruct (side o). }
  destruct Hinv as [Hb Ha _ _ Hcr].
  rewrite enqueue_eq in *. destruct (side o) eqn:Hs; split; simpl in *; try done.
  - by apply level_push_ok; [apply _|..].
  - intros pb pa [->|Hpb]%level_push_keys Hpa; [|by apply Hcr].
    specialize (Hcross _ Hpa). lia.
  - by apply level_push_ok; [apply _|..].
  - intros pb pa Hpb [->|Hpa]%level_push_keys; [|by apply Hcr].
    specialize (Hcross _ Hpb). lia.
Qed.

Lemma with_opposite_opposite b s levels idx :
  opposite (with_opposite b s levels idx) s = levels.
Proof. by destruct s. Qed.

Lemma with_opposite_own b s levels idx :
  own (with_opposite b s levels idx) s = own b s.
Proof. by destruct s. Qed.

(** What [add_order] does to a book that satisfies the invariants, for an
    order of positive quantity whose id is not resting. *)
Lemma add_order_step b o :
  book_inv b → 0 ≤ qty o < 2 ^ 63 → id o ∉ id <$> all_resting b →
  book_inv (add_order b o).2 ∧
  Forall (trade_ok (id o) (resting (opposite b (side o)))) (add_order b o).1 ∧
  maker_id <$> (add_order b o).1 `prefix_of`
    id <$> resting (opposite b (side o)) ∧
  qty o + total_qty (all_resting b) =
    2 * traded_qty (add_order b o).1 + total_qty (all_resting (add_order b o).2) ∧
  id <$> all_resting (add_order b o).2 ⊆ id o :: (id <$> all_resting b).
Proof.
  intros Hinv Hq Hfresh.
  destruct (add_order_cross b o Hinv Hq)
    as (o' & levels' & idx' & tr & -> & _ & HI & Hexit).
  destruct HI as [Hid Hside Hprice Hqty Hlad Hkeys Hids Hnd Hidx Hsum Htr
                    Hsame Hpre Hfifo Hlev].
  cbn [fst snd].
  assert (book_inv (with_opposite b (side o) levels' idx')) as Hinv'
    by (by apply with_opposite_inv).
  pose proof (with_opposite_resting b (side o) levels' idx') as Hp.
  pose proof (all_resting_sides b (side o)) as Hp0.
  assert (id <$> all_resting (with_opposite b (side o) levels' idx')
          ⊆ id <$> all_resting b) as Hsub.
  { rewrite Hp, Hp0, !fmap_app. intros i [Hi|Hi]%elem_of_app; apply elem_of_app;
      [left; by apply Hids|by right]. }
  assert (total_qty (all_resting (with_opposite b (side o) levels' idx'))
          = total_qty (resting levels') + total_qty (resting (own b (side o))))
    as Hsum1 by (by rewrite (total_qty_perm _ _ Hp), total_qty_app).
  assert (total_qty (all_resting b)
          = total_qty (resting (opposite b (side o)))
            + total_qty (resting (own b (side o))))
    as Hsum0 by (by rewrite (total_qty_perm _ _ Hp0), total_qty_app).
  split_and!; try done.
  - destruct (Z.ltb_spec 0 (qty o')) as [Hpos|Hneg]; [|done].
    apply enqueue_inv; [done| | |].
    + unfold resting_ok. repeat split; lia.
    + rewrite Hid. intros Hin. by apply Hfresh, Hsub.
    + rewrite Hside, with_opposite_opposite. intros p Hp'.
      destruct Hexit as [?|Hexit]; [lia|].
      destruct levels' as [|[px q] levels']; [by apply elem_of_nil in Hp'|].
      rewrite fmap_cons in Hp'. apply elem_of_cons in Hp' as [->|Hp']; [done|].
      eapply before_trans; [exact Hexit|]. by eapply ladder_ok_best.
  - destruct (Z.ltb_spec 0 (qty o')) as [Hpos|Hneg].
    + rewrite (total_qty_perm _ _ (enqueue_resting _ _)), total_qty_cons. lia.
    + lia.
  - destruct (Z.ltb_spec 0 (qty o')) as [Hpos|Hneg].
    + rewrite enqueue_resting, fmap_cons, Hid.
      intros i [->|Hi]%elem_of_cons; [by left|]. right. by apply Hsub.
    + intros i Hi. right. by apply Hsub.
Qed.

(** ** [cancel] *)

Lemma erase_id_Some i dq dq' :
  erase_id i dq = Some dq' →
  ∃ l1 r l2, dq = l1 ++ r :: l2 ∧ id r = i ∧ dq' = l1 ++ l2.
Proof.
  revert dq'. induction dq as [|o rest IH]; intros dq' H; [done|].
  simpl in H. destruct (N.eqb_spec (id o) i) as [Hi|Hi].
  - injection H as <-. by exists [], o, rest.
  - destruct (erase_id i rest) as [rest'|]; [|done]. injection H as <-.
    destruct (IH _ eq_refl) as (l1 & r & l2 & -> & Hr & ->).
    by exists (o :: l1), r, l2.
Qed.

Lemma erase_id_None i dq : erase_id i dq = None ↔ i ∉ id <$> dq.
Proof.
  induction dq as [|o rest IH].
  - split; [intros _; apply not_elem_of_nil|done].
  - cbn [erase_id]. rewrite fmap_cons, not_elem_of_cons, <-IH.
    destruct (N.eqb_spec (id o) i) as [Hi|Hi].
    + split; [done|]. by intros [? _].
    + destruct (erase_id i rest); split; try done.
      by intros [_ ?].
Qed.

Lemma level_find_elem p (levels : Levels) dq :
  level_find p levels = Some dq → (p, dq) ∈ levels.
Proof.
  induction levels as [|[px q] levels IH]; [done|].
  simpl. destruct (Z.eqb_spec px p) as [->|_].
  - intros [= ->]. by left.
  - intros H. right. by apply IH.
Qed.

Lemma level_find_Some s before `{!Comparator before} p (levels : Levels) dq :
  ladder_ok s before levels → (p, dq) ∈ levels → level_find p levels = Some dq.
Proof.
  intros Hl Hin. induction levels as [|[px q] levels IH];
    [by apply elem_of_nil in Hin|].
  cbn [level_find]. apply elem_of_cons in Hin as [[= <- <-]|Hin].
  - by rewrite Z.eqb_refl.
  - destruct (Z.eqb_spec px p) as [->|_].
    + assert (before p p = true) as Hpp.
      { eapply ladder_ok_best; [exact Hl|].
        apply list_elem_of_fmap. by exists (p, dq). }
      by rewrite before_irrefl in Hpp.
    + apply IH; [|done]. by eapply ladder_ok_tail.
Qed.

(** The ladder after a successful scan of [cancel]: one order less, the
    others in place, and the level erased when it became empty. *)
Lemma level_store_erase s before i p (levels : Levels) q q' :
  ladder_ok s before levels →
  level_find p levels = Some q →
  erase_id i q = Some q' →
  ladder_ok s before (level_store p q' levels) ∧
  (level_store p q' levels).*1 ⊆ levels.*1 ∧
  (∃ a r c, resting levels = a ++ r :: c ∧ id r = i ∧
            resting (level_store p q' levels) = a ++ c) ∧
  Forall (λ lvl, ∃ q0, (lvl.1, q0) ∈ levels ∧ lvl.2 `sublist_of` q0)
         (level_store p q' levels).
Proof.
  intros Hl Hfind Herase.
  destruct (erase_id_Some _ _ _ Herase) as (l1 & r & l2 & -> & Hr & ->).
  induction levels as [|[px q0] levels IH]; [done|].
  cbn [level_find level_store] in *.
  assert (Forall (λ lvl : Z * list Order,
            ∃ q1, (lvl.1, q1) ∈ (px, q0) :: levels ∧ lvl.2 `sublist_of` q1)
            levels) as Hsame.
  { apply Forall_forall. intros [px' q1] Hin. exists q1. split; [by right|done]. }
  destruct (Z.eqb_spec px p) as [->|Hne].
  - injection Hfind as ->.
    destruct (ladder_ok_queue _ _ _ _ _ Hl (list_elem_of_here _ _)) as [_ Hq].
    assert (l1 ++ l2 `sublist_of` l1 ++ r :: l2) as Hsub
      by (apply sublist_app; [done|by apply sublist_cons]).
    assert (resting (match l1 ++ l2 with
                     | [] => levels
                     | _ :: _ => (p, l1 ++ l2) :: levels
                     end) = (l1 ++ l2) ++ resting levels) as Hrest
      by (by destruct (l1 ++ l2)).
    split_and!.
    + destruct (l1 ++ l2) as [|r' q'] eqn:E; [by eapply ladder_ok_tail|].
      eapply ladder_ok_head; [done|done|]. rewrite <-E.
      apply Forall_app in Hq as [Hq1 Hq2]. apply Forall_cons in Hq2 as [_ Hq2].
      by apply Forall_app.
    + destruct (l1 ++ l2); [|done]. intros x Hx. by right.
    + exists l1, r, (l2 ++ resting levels).
      rewrite Hrest, resting_cons, <-!app_assoc. done.
    + destruct (l1 ++ l2) as [|r' q'] eqn:E; [done|].
      apply Forall_cons. split; [|done]. exists (l1 ++ r :: l2).
      split; [by left|done].
  - destruct (IH (ladder_ok_tail _ _ _ _ Hl) Hfind)
      as (IH1 & IH2 & (a & r' & c & IH3 & IH4 & IH5) & IH6).
    split_and!.
    + destruct Hl as [Hs Hf], IH1 as [IHs IHf]. split.
      * rewrite fmap_cons in *. cbn [fst] in *.
        apply StronglySorted_inv in Hs as [_ Hall]. constructor; [done|].
        apply Forall_forall. intros x Hx. rewrite Forall_forall in Hall.
        by apply Hall, IH2.
      * apply Forall_cons in Hf as [Hq _]. by apply Forall_cons.
    + rewrite !fmap_cons. intros x [->|Hx]%elem_of_cons; [by left|].
      right. by apply IH2.
    + exists (q0 ++ a), r', c. rewrite !resting_cons, IH3, IH5, <-!app_assoc.
      done.
    + apply Forall_cons. split.
      * exists q0. split; [by left|done].
      * eapply Forall_impl; [exact IH6|]. intros [px' q1] (q2 & Hin & Hsub).
        exists q2. split; [by right|done].
Qed.

Lemma cancel_eq b i :
  cancel b i =
  match id_index_ b !! i with
  | None => (false, b)
  | Some (s, p) =>
    match level_find p (own b s) with
    | None => (false, b)
    | Some dq =>
      match erase_id i dq with
      | None => (false, b)
      | Some dq' =>
        (true, with_opposite b (other_side s) (level_store p dq' (own b s))
                 (delete i (id_index_ b)))
      end
    end
  end.
Proof. unfold cancel. by destruct (id_index_ b !! i) as [[[] p]|]. Qed.

Lemma queues_sides b s q :
  q ∈ queues b ↔ q ∈ (own b s).*2 ∨ q ∈ (opposite b s).*2.
Proof. unfold queues. rewrite elem_of_app. destruct s; simpl; tauto. Qed.

(** An order listed in the index rests on the ladder of its side, in the
    queue of its price, which the scan of [cancel] finds. *)
Lemma index_finds b i s p :
  book_inv b → id_index_ b !! i = Some (s, p) →
  ∃ q q', level_find p (own b s) = Some q ∧ erase_id i q = Some q' ∧
          (p, q) ∈ own b s ∧ ∃ o, o ∈ q ∧ id o = i.
Proof.
  intros Hinv Hlook.
  rewrite (inv_index _ Hinv) in Hlook.
  apply index_of_Some in Hlook as (o & Ho & Hi & Hs & Hp); [|apply Hinv].
  assert (o ∈ resting (own b s)) as Hown.
  { rewrite (all_resting_sides b s) in Ho. apply elem_of_app in Ho as [Ho|Ho];
      [|done].
    pose proof (ladder_ok_resting _ _ _ (book_inv_opposite b s Hinv)) as Hf.
    rewrite Forall_forall in Hf. destruct (Hf _ Ho) as [Hside _].
    rewrite Hs in Hside. by destruct s. }
  apply elem_of_resting in Hown as (px & q & Hin & Hoq).
  pose proof (book_inv_own b s Hinv) as Hl.
  destruct (ladder_ok_queue _ _ _ _ _ Hl Hin) as [_ Hq].
  rewrite Forall_forall in Hq. destruct (Hq _ Hoq) as (_ & Hpx & _).
  assert (px = p) as -> by congruence.
  exists q. rewrite (level_find_Some _ _ _ _ _ Hl Hin).
  destruct (erase_id i q) as [q'|] eqn:E.
  - exists q'. split_and!; [done..|]. by exists o.
  - apply erase_id_None in E. destruct E. rewrite <-Hi.
    apply list_elem_of_fmap. by exists o.
Qed.

Lemma other_side_involutive s : other_side (other_side s) = s.
Proof. by destruct s. Qed.

(** What [cancel] does to a book that satisfies the invariants. *)
Lemma cancel_step b i :
  book_inv b →
  book_inv (cancel b i).2 ∧
  ((cancel b i).1 = true ↔ i ∈ id <$> all_resting b) ∧
  ((cancel b i).1 = false → (cancel b i).2 = b) ∧
  ((cancel b i).1 = true →
   ∃ l1 r l2, all_resting b = l1 ++ r :: l2 ∧ id r = i ∧
              all_resting (cancel b i).2 = l1 ++ l2) ∧
  (∀ q', q' ∈ queues (cancel b i).2 → ∃ q, q ∈ queues b ∧ q' `sublist_of` q).
Proof.
  intros Hinv. rewrite cancel_eq.
  destruct (id_index_ b !! i) as [[s p]|] eqn:Hlook.
  - destruct (index_finds b i s p Hinv Hlook) as (q & q' & Hfind & Herase & _).
    rewrite Hfind, Herase. cbn [fst snd].
    pose proof (book_inv_own b s Hinv) as Hl.
    destruct (level_store_erase s _ i p (own b s) q q' Hl)
      as (Hl' & Hkeys & (a & r & c & Hrest & Hr & Hrest') & Hlev); [done..|].
    set (levels' := level_store p q' (own b s)) in *.
    pose proof (inv_nodup _ Hinv) as Hnd.
    pose proof (inv_index _ Hinv) as Hidx.
    assert (all_resting b ≡ₚ (a ++ r :: c) ++ resting (opposite b s)) as Hp
      by (rewrite <-Hrest; destruct s; unfold all_resting; simpl;
          [done|apply Permutation_app_comm]).
    assert (NoDup (id <$> (a ++ r :: c) ++ resting (opposite b s))) as Hnd1
      by (by rewrite <-Hp).
    assert (book_inv (with_opposite b (other_side s) levels'
                        (delete i (id_index_ b)))) as Hinv'.
    { apply with_opposite_inv; [done| | | |].
      - by rewrite other_side_involutive.
      - by destruct s.
      - rewrite Hrest'.
        assert (own b (other_side s) = opposite b s) as -> by (by destruct s).
        apply (sublist_NoDup _ _ Hnd1).
        apply fmap_sublist, sublist_app; [|done].
        apply sublist_app; [done|by apply sublist_cons].
      - rewrite Hrest', Hidx, (index_of_perm _ _ Hnd Hp), <-Hr.
        assert (own b (other_side s) = opposite b s) as -> by (by destruct s).
        rewrite <-!app_assoc. rewrite <-app_assoc in Hnd1.
        by apply (index_of_delete_mid a (c ++ resting (opposite b s)) r). }
    assert (i ∈ id <$> all_resting b) as Hin.
    { rewrite Hp, <-Hr. apply list_elem_of_fmap. exists r. split; [done|].
      apply elem_of_app. left. apply elem_of_app. right. by left. }
    split_and!; try done.
    + intros _. destruct s; unfold all_resting; simpl in *.
      * exists a, r, (c ++ resting (asks_ b)).
        fold levels'. by rewrite Hrest, Hrest', <-!app_assoc.
      * exists (resting (bids_ b) ++ a), r, c.
        fold levels'. by rewrite Hrest, Hrest', <-!app_assoc.
    + intros q1 Hq1.
      apply (queues_sides _ s) in Hq1 as [Hq1|Hq1].
      * assert (own (with_opposite b (other_side s) levels'
                       (delete i (id_index_ b))) s = levels') as E
          by (by destruct s).
        rewrite E in Hq1. apply list_elem_of_fmap in Hq1 as ([px q1'] & -> & Hq1).
        rewrite Forall_forall in Hlev.
        destruct (Hlev _ Hq1) as (q0 & Hq0 & Hsub). exists q0. split; [|done].
        apply (queues_sides _ s). left. apply list_elem_of_fmap.
        by exists (px, q0).
      * assert (opposite (with_opposite b (other_side s) levels'
                            (delete i (id_index_ b))) s = opposite b s) as E
          by (by destruct s).
        rewrite E in Hq1. exists q1. split; [|done].
        apply (queues_sides _ s). by right.
  - cbn [fst snd]. split_and!; try done.
    + split; [done|]. intros Hin. rewrite (inv_index _ Hinv) in Hlook.
      by apply index_of_None in Hlook.
    + intros q' Hq'. by exists q'.
Qed.

(** ** Where index entries come from *)

Lemma match_queue_index_sub o queue idx tr :
  (match_queue o queue idx tr).1.2 ⊆ idx.
Proof.
  revert queue o idx tr.
  apply (match_queue_ind (λ _ _ idx _ res, res.1.2 ⊆ idx)); cbn [fst snd];
    try done.
  intros o r rest idx tr res _ _ IH. etrans; [exact IH|]. apply delete_subseteq.
Qed.

Lemma cross_loop_index_sub fuel before o levels idx tr o' levels' idx' tr' :
  cross_loop fuel before o levels idx tr = Some (o', levels', idx', tr') →
  idx' ⊆ idx ∧ id o' = id o ∧ side o' = side o ∧ price o' = price o.
Proof.
  intros Hrun.
  eapply (cross_loop_rule before (λ o1 _ idx1 _,
    idx1 ⊆ idx ∧ id o1 = id o ∧ side o1 = side o ∧ price o1 = price o));
    [|done|exact Hrun].
  intros o1 px q others idx1 tr1 (Hsub & Hi & Hs & Hp) _ _ o2 q2 idx2 tr2 Hm.
  pose proof (match_queue_index_sub o1 q idx1 tr1) as Hsub'.
  pose proof (match_queue_order o1 q idx1 tr1) as Hord.
  rewrite Hm in *. cbn [fst snd] in *. destruct Hord as (? & ? & ?).
  split_and!; [by etrans|congruence..].
Qed.

Lemma add_order_index_sub b o i v :
  id_index_ (add_order b o).2 !! i = Some v →
  (i = id o ∧ v = (side o, price o)) ∨ id_index_ b !! i = Some v.
Proof.
  destruct (add_order_eq b o) as (o' & levels' & idx' & tr & Hrun & ->).
  apply cross_loop_index_sub in Hrun as (Hsub & Hi & Hs & Hp).
  cbn [snd].
  assert (id_index_ (with_opposite b (side o) levels' idx') = idx') as E
    by (by destruct (side o)).
  destruct (0 <? qty o').
  - assert (id_index_ (enqueue (with_opposite b (side o) levels' idx') o')
            = <[id o := (side o, price o)]> idx') as ->.
    { rewrite enqueue_eq, Hi, Hs, Hp. destruct (side o); by rewrite <-E. }
    rewrite lookup_insert. case_decide as Hd.
    + intros [= <-]. by left.
    + intros Hl. right. by eapply lookup_weaken.
  - rewrite E. intros Hl. right. by eapply lookup_weaken.
Qed.

Lemma cancel_index_sub b i j v :
  id_index_ (cancel b i).2 !! j = Some v → id_index_ b !! j = Some v.
Proof.
  rewrite cancel_eq.
  destruct (id_index_ b !! i) as [[s p]|]; [|done].
  destruct (level_find p (own b s)) as [dq|]; [|done].
  destruct (erase_id i dq) as [dq'|]; [|done].
  cbn [snd].
  assert (id_index_ (with_opposite b (other_side s) (level_store p dq' (own b s))
                       (delete i (id_index_ b))) = delete i (id_index_ b)) as ->
    by (by destruct s).
  intros Hl. eapply lookup_weaken; [exact Hl|apply delete_subseteq].
Qed.

(** ** Runs *)

Lemma run_app b ops1 ops2 :
  run b (ops1 ++ ops2) =
  ((run b ops1).1 ++ (run (run b ops1).2 ops2).1, (run (run b ops1).2 ops2).2).
Proof.
  revert b. induction ops1 as [|op ops1 IH]; intros b.
  - simpl. by destruct (run b ops2).
  - simpl. destruct (apply_op b op) as [out b1]. rewrite IH.
    by destruct (run b1 ops1), (run _ ops2).
Qed.

Lemma book_after_snoc ops op :
  book_after (ops ++ [op]) = (apply_op (book_after ops) op).2.
Proof.
  unfold book_after. rewrite run_app. cbn [fst snd run].
  by destruct (apply_op _ op).
Qed.

Lemma book_after_add ops o :
  book_after (ops ++ [Add o]) = (add_order (book_after ops) o).2.
Proof. rewrite book_after_snoc. simpl. by destruct (add_order _ o). Qed.

Lemma book_after_cancel ops i :
  book_after (ops ++ [Cancel i]) = (cancel (book_after ops) i).2.
Proof. rewrite book_after_snoc. simpl. by destruct (cancel _ i). Qed.

Lemma submitted_app ops1 ops2 :
  submitted (ops1 ++ ops2) = submitted ops1 ++ submitted ops2.
Proof.
  induction ops1 as [|[o|i] ops1 IH]; simpl; [done| |done]. by rewrite IH.
Qed.

Lemma emitted_app outs1 outs2 :
  emitted (outs1 ++ outs2) = emitted outs1 ++ emitted outs2.
Proof.
  induction outs1 as [|[l|ok] outs1 IH]; simpl; [done| |done].
  by rewrite IH, app_assoc.
Qed.

Lemma valid_ops_app ops1 ops2 : valid_ops (ops1 ++ ops2) → valid_ops ops1.
Proof.
  unfold valid_ops. rewrite submitted_app, fmap_app.
  intros [[Hf _]%Forall_app (Hnd & _ & _)%NoDup_app]. done.
Qed.

Lemma valid_ops_add ops o :
  valid_ops (ops ++ [Add o]) →
  valid_ops ops ∧ valid_order o ∧ id o ∉ id <$> submitted ops.
Proof.
  intros Hv. split; [by eapply valid_ops_app|].
  destruct Hv as [Hf Hnd]. rewrite submitted_app in *. simpl in *.
  apply Forall_app in Hf as [_ [Ho _]%Forall_cons].
  rewrite fmap_app in Hnd. apply NoDup_app in Hnd as (_ & Hd & _).
  split; [done|]. intros Hin. apply (Hd _ Hin). by left.
Qed.

(** Every book reached by a valid sequence of calls satisfies the
    invariants, and every resting order is what is left of a submitted
    order with its id, side and price. *)
Lemma run_inv ops :
  valid_ops ops →
  book_inv (book_after ops) ∧
  ∀ r, r ∈ all_resting (book_after ops) →
       ∃ o, o ∈ submitted ops ∧ id o = id r ∧ side o = side r ∧
            price o = price r.
Proof.
  induction ops as [|op ops IH] using rev_ind; intros Hv.
  - split.
    + split; try done; try apply ladder_ok_nil; try constructor.
      intros pb pa Hpb. by apply elem_of_nil in Hpb.
    + intros r Hr. by apply elem_of_nil in Hr.
  - destruct (IH (valid_ops_app _ _ Hv)) as [Hinv Hsub].
    assert (∀ b', book_inv b' →
              (∀ i v, id_index_ b' !! i = Some v →
                 (∃ o, op = Add o ∧ i = id o ∧ v = (side o, price o)) ∨
                 id_index_ (book_after ops) !! i = Some v) →
              ∀ r, r ∈ all_resting b' →
                ∃ o, o ∈ submitted (ops ++ [op]) ∧ id o = id r ∧
                     side o = side r ∧ price o = price r) as Hstep.
    { intros b' Hinv' Hix r Hr. rewrite submitted_app.
      assert (id_index_ b' !! id r = Some (side r, price r)) as Hl.
      { rewrite (inv_index _ Hinv'). apply index_of_Some; [apply Hinv'|].
        by exists r. }
      destruct (Hix _ _ Hl) as [(o & -> & Hi & [= Hs Hp])|Hl0].
      - exists o. split; [|done]. apply elem_of_app. right. by left.
      - rewrite (inv_index _ Hinv) in Hl0.
        apply index_of_Some in Hl0 as (r0 & Hr0 & Hi & Hs & Hp); [|apply Hinv].
        destruct (Hsub _ Hr0) as (o & Ho & ? & ? & ?). exists o.
        split; [apply elem_of_app; by left|]. split_and!; congruence. }
    destruct op as [o|i].
    + apply valid_ops_add in Hv as (_ & [Hwt Hpos] & Hfresh).
      rewrite book_after_add.
      destruct (add_order_step (book_after ops) o Hinv) as (Hinv' & _).
      { destruct Hwt as (_ & _ & Hr). unfold int64_range in Hr. lia. }
      { intros (r & Hi & Hr)%list_elem_of_fmap.
        destruct (Hsub _ Hr) as (o0 & Ho0 & Hi0 & _). apply Hfresh.
        apply list_elem_of_fmap. exists o0. split; [congruence|done]. }
      split; [done|]. apply Hstep; [done|].
      intros i v Hl. apply add_order_index_sub in Hl as [[-> ->]|Hl];
        [left; by exists o|by right].
    + rewrite book_after_cancel.
      destruct (cancel_step (book_after ops) i Hinv) as (Hinv' & _).
      split; [done|]. apply Hstep; [done|].
      intros j v Hl. right. by eapply cancel_index_sub.
Qed.

Lemma valid_add_pre ops o :
  valid_ops (ops ++ [Add o]) →
  book_inv (book_after ops) ∧ 0 < qty o < 2 ^ 63 ∧
  id o ∉ id <$> all_resting (book_after ops).
Proof.
  intros Hv. destruct (run_inv ops (valid_ops_app _ _ Hv)) as [Hinv Hsub].
  apply valid_ops_add in Hv as (_ & [(_ & _ & Hr) Hpos] & Hfresh).
  split; [done|]. split; [unfold int64_range in Hr; lia|].
  intros (r & Hi & Hr')%list_elem_of_fmap.
  destruct (Hsub _ Hr') as (o0 & Ho0 & Hi0 & _). apply Hfresh.
  apply list_elem_of_fmap. exists o0. split; [congruence|done].
Qed.

Lemma valid_ops_prefix pre op post :
  valid_ops (pre ++ op :: post) → valid_ops (pre ++ [op]).
Proof.
  intros Hv. apply (valid_ops_app _ post). by rewrite <-app_assoc.
Qed.

(** A trade emitted by a run is emitted by one of its [add_order] calls. *)
Lemma emitted_elem t ops b :
  t ∈ emitted (run b ops).1 →
  ∃ pre o post, ops = pre ++ Add o :: post ∧
                t ∈ (add_order (run b pre).2 o).1.
Proof.
  revert b. induction ops as [|op ops IH]; intros b Ht;
    [by apply elem_of_nil in Ht|].
  simpl in Ht. destruct (apply_op b op) as [out b1] eqn:Hop.
  destruct (run b1 ops) as [outs b2] eqn:Hrun. simpl in Ht.
  assert (t ∈ emitted outs →
          ∃ pre o post, op :: ops = pre ++ Add o :: post ∧
                        t ∈ (add_order (run b pre).2 o).1) as Hrec.
  { intros Ht'. destruct (IH b1) as (pre & o & post & -> & Hin);
      [by rewrite Hrun|].
    exists (op :: pre), o, post. split; [done|].
    simpl. rewrite Hop. by destruct (run b1 pre). }
  destruct op as [o|i]; simpl in Hop.
  - destruct (add_order b o) as [l b'] eqn:Hadd. injection Hop as <- <-.
    simpl in Ht. apply elem_of_app in Ht as [Ht|Ht]; [|by apply Hrec].
    exists [], o, ops. split; [done|]. simpl. by rewrite Hadd.
  - destruct (cancel b i) as [ok b']. injection Hop as <- <-.
    by apply Hrec.
Qed.

(** ** Trades *)

(** C2: for every sequence of calls whose orders have [qty > 0] and fresh
    ids, every trade emitted comes from the [add_order] of a taker against
    an order resting on the opposite ladder at that moment; its price is
    that maker's price, which is the price the maker was submitted at,
    whatever the taker's limit; and its quantity is strictly positive. *)
Theorem trades_at_maker_price (ops : list Op) (t : Trade) :
  valid_ops ops →
  t ∈ emitted (run empty_book ops).1 →
  ∃ pre o post,
    ops = pre ++ Add o :: post ∧
    t ∈ (add_order (book_after pre) o).1 ∧
    taker_id t = id o ∧
    0 < trade_qty t ∧
    (∃ m, m ∈ resting (opposite (book_after pre) (side o)) ∧
          maker_id t = id m ∧ trade_price t = price m ∧
          trade_qty t ≤ qty m) ∧
    (∃ m0, m0 ∈ submitted pre ∧ maker_id t = id m0 ∧
           trade_price t = price m0).
Proof.
  intros Hv Ht.
  destruct (emitted_elem _ _ _ Ht) as (pre & o & post & -> & Hin).
  exists pre, o, post. split; [done|]. split; [done|].
  apply valid_ops_prefix in Hv.
  destruct (valid_add_pre _ _ Hv) as (Hinv & Hq & Hfresh).
  destruct (add_order_step (book_after pre) o Hinv) as (_ & Htr & _);
    [lia|done|].
  rewrite Forall_forall in Htr.
  destruct (Htr _ Hin) as (Htk & m & Hm & Hmi & Hmp & Hmq).
  split; [done|]. split; [lia|]. split.
  - exists m. split_and!; (done || lia).
  - destruct (run_inv pre (valid_ops_app _ _ Hv)) as [_ Hsub].
    destruct (Hsub m) as (m0 & Hm0 & Hi & _ & Hp).
    { rewrite (all_resting_sides _ (side o)). apply elem_of_app. by left. }
    exists m0. split_and!; congruence.
Qed.

Lemma trades_at_maker_price_witness :
  valid_ops S2.ops ∧
  mkTrade 2%N 4%N 102 30 ∈ emitted (run empty_book S2.ops).1 ∧
  ∃ pre o post,
    S2.ops = pre ++ Add o :: post ∧
    mkTrade 2%N 4%N 102 30 ∈ (add_order (book_after pre) o).1 ∧
    taker_id (mkTrade 2%N 4%N 102 30) = id o ∧
    0 < trade_qty (mkTrade 2%N 4%N 102 30) ∧
    (∃ m, m ∈ resting (opposite (book_after pre) (side o)) ∧
          maker_id (mkTrade 2%N 4%N 102 30) = id m ∧
          trade_price (mkTrade 2%N 4%N 102 30) = price m ∧
          trade_qty (mkTrade 2%N 4%N 102 30) ≤ qty m) ∧
    (∃ m0, m0 ∈ submitted pre ∧ maker_id (mkTrade 2%N 4%N 102 30) = id m0 ∧
           trade_price (mkTrade 2%N 4%N 102 30) = price m0).
Proof.
  assert (valid_ops S2.ops) as Hv by solve_valid_ops.
  assert (mkTrade 2%N 4%N 102 30 ∈ emitted (run empty_book S2.ops).1) as Ht.
  { vm_compute. apply list_elem_of_further, list_elem_of_here. }
  split; [exact Hv|]. split; [exact Ht|].
  exact (trades_at_maker_price S2.ops (mkTrade 2%N 4%N 102 30) Hv Ht).
Defined.

(** ** The book at rest *)

(** C3: after every [add_order] (and every [cancel]) of a sequence of calls
    whose orders have [qty > 0] and fresh ids, the book is not crossed:
    one of the two sides is empty or [best_bid < best_ask]; more generally
    every resting buy is priced below every resting sell. *)
Theorem book_never_crossed (ops : list Op) :
  valid_ops ops →
  (bids_ (book_after ops) = [] ∨ asks_ (book_after ops) = [] ∨
   ∃ pb pa, best_bid (book_after ops) = Some pb ∧
            best_ask (book_after ops) = Some pa ∧ pb < pa) ∧
  (∀ ob oa, ob ∈ all_resting (book_after ops) →
            oa ∈ all_resting (book_after ops) →
            side ob = Buy → side oa = Sell → price ob < price oa).
Proof.
  intros Hv. destruct (run_inv ops Hv) as [Hinv _].
  pose proof (inv_cross _ Hinv) as Hcr.
  split.
  - unfold best_bid, best_ask.
    destruct (bids_ (book_after ops)) as [|[pb qb] bids] eqn:Hb; [by left|].
    destruct (asks_ (book_after ops)) as [|[pa qa] asks] eqn:Ha;
      [right; by left|].
    right. right. exists pb, pa. split; [done|]. split; [done|].
    apply Hcr; rewrite ?Hb, ?Ha, fmap_cons; by left.
  - intros ob oa Hob Hoa Hsb Hsa.
    pose proof (ladder_ok_resting _ _ _ (inv_bids _ Hinv)) as Hfb.
    pose proof (ladder_ok_resting _ _ _ (inv_asks _ Hinv)) as Hfa.
    rewrite Forall_forall in Hfb, Hfa.
    apply elem_of_app in Hob as [Hob|Hob];
      [|destruct (Hfa _ Hob) as [? _]; congruence].
    apply elem_of_app in Hoa as [Hoa|Hoa];
      [destruct (Hfb _ Hoa) as [? _]; congruence|].
    apply elem_of_resting in Hob as (pb & qb & Hinb & Hob).
    apply elem_of_resting in Hoa as (pa & qa & Hina & Hoa).
    destruct (ladder_ok_queue _ _ _ _ _ (inv_bids _ Hinv) Hinb) as [_ Hqb].
    destruct (ladder_ok_queue _ _ _ _ _ (inv_asks _ Hinv) Hina) as [_ Hqa].
    rewrite Forall_forall in Hqb, Hqa.
    destruct (Hqb _ Hob) as (_ & -> & _). destruct (Hqa _ Hoa) as (_ & -> & _).
    apply Hcr; apply list_elem_of_fmap; [by exists (pb, qb)|by exists (pa, qa)].
Qed.

Lemma book_never_crossed_witness :
  valid_ops S2.ops ∧
  (bids_ (book_after S2.ops) = [] ∨ asks_ (book_after S2.ops) = [] ∨
   ∃ pb pa, best_bid (book_after S2.ops) = Some pb ∧
            best_ask (book_after S2.ops) = Some pa ∧ pb < pa).
Proof.
  assert (valid_ops S2.ops) as Hv by solve_valid_ops.
  split; [exact Hv|]. exact (proj1 (book_never_crossed S2.ops Hv)).
Defined.

(** ** Conservation of quantity *)

Lemma run_snoc b ops op :
  (run b (ops ++ [op])).1 =
  (run b ops).1 ++ [(apply_op (run b ops).2 op).1].
Proof.
  rewrite run_app. cbn [fst snd run]. by destruct (apply_op _ op).
Qed.

(** With the traded quantity counted once, the balance of the scenario S3
    (Sell 1 @101 x50, then Buy 2 @101 x30) does not hold: 80 units are
    submitted, 30 are traded and 20 are left resting. *)
Lemma conservation_counted_once_fails :
  only_adds S3.ops ∧ valid_ops S3.ops ∧
  total_qty (submitted S3.ops) ≠
    traded_qty (emitted (run empty_book S3.ops).1) +
    total_qty (all_resting (book_after S3.ops)).
Proof.
  split; [repeat constructor|]. split; [solve_valid_ops|].
  vm_compute. discriminate.
Qed.

(** C4 (amended): for a sequence of [add_order] calls, without [cancel],
    whose orders have [qty > 0] and fresh ids, the quantity submitted is
    twice the quantity traded, a trade taking its quantity from the maker
    and from the taker, plus the quantity still resting in the book. *)
Theorem quantity_conserved (ops : list Op) :
  only_adds ops → valid_ops ops →
  total_qty (submitted ops) =
    2 * traded_qty (emitted (run empty_book ops).1) +
    total_qty (all_resting (book_after ops)).
Proof.
  induction ops as [|op ops IH] using rev_ind; intros Hadds Hv;
    [reflexivity|].
  apply Forall_app in Hadds as [Hadds Hop].
  apply Forall_cons in Hop as [Hop _]. destruct op as [o|i]; [|done].
  specialize (IH Hadds (valid_ops_app _ _ Hv)).
  destruct (valid_add_pre _ _ Hv) as (Hinv & Hq & Hfresh).
  destruct (add_order_step (book_after ops) o Hinv) as (_ & _ & _ & Hsum & _);
    [lia|done|].
  rewrite submitted_app, total_qty_app, run_snoc, emitted_app, traded_qty_app.
  rewrite book_after_add. cbn [submitted apply_op].
  fold (book_after ops).
  destruct (add_order (book_after ops) o) as [l b'] eqn:Hadd.
  cbn [fst snd emitted] in *. rewrite app_nil_r, total_qty_cons.
  change (total_qty []) with 0. lia.
Qed.

Lemma quantity_conserved_witness :
  only_adds S3.ops ∧ valid_ops S3.ops ∧
  total_qty (submitted S3.ops) =
    2 * traded_qty (emitted (run empty_book S3.ops).1) +
    total_qty (all_resting (book_after S3.ops)).
Proof.
  assert (only_adds S3.ops) as Ha by repeat constructor.
  assert (valid_ops S3.ops) as Hv by solve_valid_ops.
  split; [exact Ha|]. split; [exact Hv|].
  exact (quantity_conserved S3.ops Ha Hv).
Defined.

(** ** FIFO within a level *)

Lemma enqueue_own b o :
  own (enqueue b o) (side o) =
  level_push (crossed_by (other_side (side o))) o (own b (side o)).
Proof. rewrite enqueue_eq. by destruct (side o). Qed.

Lemma enqueue_opposite b o :
  opposite (enqueue b o) (side o) = opposite b (side o).
Proof. rewrite enqueue_eq. by destruct (side o). Qed.

(** Each queue after [add_order] is a queue of before, less orders taken
    from its head, or with the incoming order at its tail, or is the
    incoming order alone. *)
Lemma add_order_queues b o q' :
  book_inv b → 0 ≤ qty o < 2 ^ 63 →
  q' ∈ queues (add_order b o).2 →
  ∃ q, (q ∈ queues b ∨ q = []) ∧
       id <$> q' `sublist_of` (id <$> q) ++ [id o].
Proof.
  intros Hinv Hq.
  destruct (add_order_cross b o Hinv Hq)
    as (o' & levels' & idx' & tr & -> & _ & HI & _).
  pose proof (ci_levels _ _ _ _ _ _ _ _ _ HI) as Hlev.
  pose proof (ci_id _ _ _ _ _ _ _ _ _ HI) as Hid.
  pose proof (ci_side _ _ _ _ _ _ _ _ _ HI) as Hside.
  rewrite Forall_forall in Hlev. cbn [snd].
  assert (∀ q1, q1 ∈ levels'.*2 →
            ∃ q, (q ∈ queues b ∨ q = []) ∧
                 id <$> q1 `sublist_of` (id <$> q) ++ [id o]) as Hopp.
  { intros q1 ([px q1'] & -> & Hin)%list_elem_of_fmap.
    destruct (Hlev _ Hin) as (q0 & Hq0 & Hsuf). exists q0. split.
    - left. apply (queues_sides _ (side o)). right.
      apply list_elem_of_fmap. by exists (px, q0).
    - apply sublist_inserts_r. destruct Hsuf as [k ->].
      by apply sublist_inserts_l. }
  assert (∀ q1, q1 ∈ (own b (side o)).*2 →
            ∃ q, (q ∈ queues b ∨ q = []) ∧
                 id <$> q1 `sublist_of` (id <$> q) ++ [id o]) as Hown.
  { intros q1 Hin. exists q1. split.
    - left. apply (queues_sides _ (side o)). by left.
    - by apply sublist_inserts_r. }
  destruct (0 <? qty o').
  - intros [Hin|Hin]%(queues_sides _ (side o')).
    + rewrite enqueue_own, Hside, with_opposite_own in Hin.
      apply list_elem_of_fmap in Hin as ([px q1] & -> & Hin).
      pose proof (level_push_levels (crossed_by (other_side (side o))) o'
                    (own b (side o))) as Hpush.
      rewrite Forall_forall in Hpush.
      destruct (Hpush _ Hin) as [E|(q0 & Hq0 & [E|E])]; cbn [fst snd] in *.
      * exists []. split; [by right|]. rewrite E. simpl. by rewrite Hid.
      * subst q1. apply Hown. apply list_elem_of_fmap. by exists (px, q0).
      * exists q0. split.
        -- left. apply (queues_sides _ (side o)). left.
           apply list_elem_of_fmap. by exists (px, q0).
        -- rewrite E, fmap_app. simpl. by rewrite Hid.
    + rewrite enqueue_opposite, Hside, with_opposite_opposite in Hin.
      by apply Hopp.
  - intros [Hin|Hin]%(queues_sides _ (side o)).
    + rewrite with_opposite_own in Hin. by apply Hown.
    + rewrite with_opposite_opposite in Hin. by apply Hopp.
Qed.

(** In every book reached by a valid sequence of calls, the orders of a
    queue stand in the order of their submission. *)
Lemma run_queues ops q :
  valid_ops ops → q ∈ queues (book_after ops) →
  id <$> q `sublist_of` id <$> submitted ops.
Proof.
  revert q. induction ops as [|op ops IH] using rev_ind; intros q Hv Hq.
  - by apply elem_of_nil in Hq.
  - rewrite submitted_app, fmap_app.
    pose proof (valid_ops_app _ _ Hv) as Hv0.
    destruct op as [o|i].
    + destruct (valid_add_pre _ _ Hv) as (Hinv & Hqty & _).
      rewrite book_after_add in Hq.
      assert (0 ≤ qty o < 2 ^ 63) as Hqty' by lia.
      destruct (add_order_queues _ _ _ Hinv Hqty' Hq)
        as (q0 & [Hq0| ->] & Hsub).
      * etrans; [exact Hsub|]. apply sublist_app; [|done]. by apply IH.
      * etrans; [exact Hsub|]. apply sublist_app; [|done]. apply sublist_nil_l.
    + destruct (run_inv _ Hv0) as [Hinv _].
      rewrite book_after_cancel in Hq.
      destruct (cancel_step _ i Hinv) as (_ & _ & _ & _ & Hlev).
      destruct (Hlev _ Hq) as (q0 & Hq0 & Hsub).
      simpl. rewrite app_nil_r. etrans; [|by apply IH].
      by apply fmap_sublist.
Qed.

(** C5: within a price level arrival order is preserved and earlier
    arrivals match first.  In every book reached by calls whose orders have
    [qty > 0] and fresh ids, the orders of each queue stand in the order of
    their submission; the makers of the trades of an [add_order] are, in
    order, the first orders of the opposite ladder in price-time priority,
    so within a level its earliest arrivals; and Sell 1 @101 x10, Sell 2
    @101 x10, Buy 3 @101 x15 into an empty book gives the trades
    (1,3,101,10) then (2,3,101,5) and leaves only order 2 with 5 at 101 on
    the asks side. *)
Theorem fifo_within_level (ops : list Op) :
  valid_ops ops →
  (∀ q, q ∈ queues (book_after ops) →
        id <$> q `sublist_of` id <$> submitted ops) ∧
  (∀ pre o post, ops = pre ++ Add o :: post →
     maker_id <$> (add_order (book_after pre) o).1 `prefix_of`
       id <$> resting (opposite (book_after pre) (side o))) ∧
  (add_order S4.before3 S4.buy3).1 =
    [mkTrade 1%N 3%N 101 10; mkTrade 2%N 3%N 101 5] ∧
  asks_ (add_order S4.before3 S4.buy3).2 = [(101, [mkOrder 2%N Sell 101 5 0])] ∧
  bids_ (add_order S4.before3 S4.buy3).2 = [].
Proof.
  intros Hv. split_and!.
  - intros q Hq. by apply run_queues.
  - intros pre o post ->. apply valid_ops_prefix in Hv.
    destruct (valid_add_pre _ _ Hv) as (Hinv & Hq & Hfresh).
    by destruct (add_order_step (book_after pre) o Hinv) as (_ & _ & Hpre & _);
      [lia|done|].
  - by vm_compute.
  - by vm_compute.
  - by vm_compute.
Qed.

Lemma fifo_within_level_witness :
  valid_ops S4.ops ∧
  (∀ q, q ∈ queues (book_after S4.ops) →
        id <$> q `sublist_of` id <$> submitted S4.ops) ∧
  maker_id <$> (add_order (book_after [Add S4.sell1; Add S4.sell2]) S4.buy3).1
    `prefix_of`
    id <$> resting (opposite (book_after [Add S4.sell1; Add S4.sell2])
                      (side S4.buy3)).
Proof.
  assert (valid_ops S4.ops) as Hv by solve_valid_ops.
  split; [exact Hv|]. split.
  - exact (proj1 (fifo_within_level S4.ops Hv)).
  - exact (proj1 (proj2 (fifo_within_level S4.ops Hv))
             [Add S4.sell1; Add S4.sell2] S4.buy3 [] eq_refl).
Defined.

(** ** The index and the ladders *)

Lemma resting_split px q (levels : Levels) :
  (px, q) ∈ levels → ∃ a c, resting levels = a ++ q ++ c.
Proof.
  intros (l1 & l2 & ->)%list_elem_of_split.
  exists (resting l1), (resting l2). by rewrite resting_app, resting_cons.
Qed.

Lemma own_resting b s o : o ∈ resting (own b s) → o ∈ all_resting b.
Proof.
  intros Ho. rewrite (all_resting_sides b s). apply elem_of_app. by right.
Qed.

(** The ids of a queue of a book that satisfies the invariants are
    distinct. *)
Lemma queue_nodup b s px q :
  book_inv b → (px, q) ∈ own b s → NoDup (id <$> q).
Proof.
  intros Hinv Hin. pose proof (inv_nodup _ Hinv) as Hnd.
  rewrite (all_resting_sides b s), fmap_app in Hnd.
  apply NoDup_app in Hnd as (_ & _ & Hnd).
  destruct (resting_split _ _ _ Hin) as (a & c & E).
  rewrite E, !fmap_app in Hnd.
  apply NoDup_app in Hnd as (_ & _ & Hnd). by apply NoDup_app in Hnd as (Hnd & _).
Qed.

(** C6: after every call of a sequence of [add_order] and [cancel] calls
    from the empty book, the orders having [qty > 0] and fresh ids, the
    index agrees with the ladders: an id of the index names exactly one
    resting order, of positive quantity, which stands in the queue found at
    the recorded side and price; every resting order is in the index under
    the side and price of its queue; and a level is present at a price of
    a side exactly when an order rests there, no level having an empty
    queue. *)
Theorem index_consistent (ops : list Op) :
  valid_ops ops →
  (∀ i s p, id_index_ (book_after ops) !! i = Some (s, p) →
     ∃ q l1 o l2,
       level_find p (own (book_after ops) s) = Some q ∧
       q = l1 ++ o :: l2 ∧ id o = i ∧ 0 < qty o ∧
       (i ∉ id <$> l1) ∧ (i ∉ id <$> l2)) ∧
  NoDup (id <$> all_resting (book_after ops)) ∧
  (∀ s px q o, (px, q) ∈ own (book_after ops) s → o ∈ q →
     id_index_ (book_after ops) !! id o = Some (s, px) ∧
     side o = s ∧ price o = px ∧ 0 < qty o) ∧
  (∀ s px q, (px, q) ∈ own (book_after ops) s → q ≠ []) ∧
  (∀ s p, is_Some (level_find p (own (book_after ops) s)) ↔
          ∃ o, o ∈ resting (own (book_after ops) s) ∧ price o = p).
Proof.
  intros Hv. destruct (run_inv ops Hv) as [Hinv _].
  set (b := book_after ops) in *.
  assert (∀ s px q o, (px, q) ∈ own b s → o ∈ q →
            side o = s ∧ price o = px ∧ 0 < qty o < 2 ^ 63) as Hok.
  { intros s px q o Hin Ho.
    destruct (ladder_ok_queue _ _ _ _ _ (book_inv_own b s Hinv) Hin) as [_ Hq].
    rewrite Forall_forall in Hq. by apply Hq. }
  split_and!.
  - intros i s p Hlook.
    destruct (index_finds b i s p Hinv Hlook)
      as (q & _ & Hfind & _ & Hin & o & Ho & Hi).
    apply list_elem_of_split in Ho as (l1 & l2 & ->).
    exists (l1 ++ o :: l2), l1, o, l2.
    destruct (Hok s p (l1 ++ o :: l2) o Hin) as (_ & _ & Hq);
      [apply elem_of_app; right; by left|].
    pose proof (queue_nodup b s p _ Hinv Hin) as Hnd.
    rewrite fmap_app, fmap_cons in Hnd.
    apply NoDup_app in Hnd as (_ & Hd & [Hn2 _]%NoDup_cons).
    split_and!; [done|done|done|lia| |by rewrite <-Hi].
    intros Hin1. apply (Hd _ Hin1). rewrite Hi. by left.
  - apply Hinv.
  - intros s px q o Hin Ho. destruct (Hok _ _ _ _ Hin Ho) as (Hs & Hp & Hq).
    split_and!; [|done|done|lia].
    rewrite (inv_index _ Hinv). apply index_of_Some; [apply Hinv|].
    exists o. split_and!; [|done..]. apply (own_resting b s).
    apply elem_of_resting. by exists px, q.
  - intros s px q Hin.
    by destruct (ladder_ok_queue _ _ _ _ _ (book_inv_own b s Hinv) Hin).
  - intros s p. split.
    + intros [q Hfind]. apply level_find_elem in Hfind.
      destruct (ladder_ok_queue _ _ _ _ _ (book_inv_own b s Hinv) Hfind)
        as [Hne _].
      destruct q as [|o q]; [done|]. exists o.
      destruct (Hok s p (o :: q) o Hfind) as (_ & Hp & _); [by left|].
      split; [|done]. apply elem_of_resting. exists p, (o :: q).
      split; [done|by left].
    + intros (o & (px & q & Hin & Ho)%elem_of_resting & Hp).
      destruct (Hok _ _ _ _ Hin Ho) as (_ & Hpx & _).
      exists q. eapply level_find_Some; [apply _|by apply book_inv_own|].
      congruence.
Qed.

Lemma index_consistent_witness :
  valid_ops S2.ops ∧
  id_index_ (book_after S2.ops) !! 2%N = Some (Sell, 102) ∧
  id_index_ (book_after S2.ops) !! 3%N = Some (Buy, 100) ∧
  (∃ q l1 o l2,
     level_find 102 (own (book_after S2.ops) Sell) = Some q ∧
     q = l1 ++ o :: l2 ∧ id o = 2%N ∧ 0 < qty o ∧
     (2%N ∉ id <$> l1) ∧ (2%N ∉ id <$> l2)) ∧
  (∃ q l1 o l2,
     level_find 100 (own (book_after S2.ops) Buy) = Some q ∧
     q = l1 ++ o :: l2 ∧ id o = 3%N ∧ 0 < qty o ∧
     (3%N ∉ id <$> l1) ∧ (3%N ∉ id <$> l2)) ∧
  (100, [mkOrder 3%N Buy 100 70 0]) ∈ own (book_after S2.ops) Buy ∧
  id_index_ (book_after S2.ops) !! id (mkOrder 3%N Buy 100 70 0) =
    Some (Buy, 100) ∧
  NoDup (id <$> all_resting (book_after S2.ops)) ∧
  all_resting (book_after S2.ops) ≠ [].
Proof.
  assert (valid_ops S2.ops) as Hv by solve_valid_ops.
  assert (id_index_ (book_after S2.ops) !! 2%N = Some (Sell, 102)) as H2
    by (vm_compute; reflexivity).
  assert (id_index_ (book_after S2.ops) !! 3%N = Some (Buy, 100)) as H3
    by (vm_compute; reflexivity).
  assert ((100, [mkOrder 3%N Buy 100 70 0]) ∈ own (book_after S2.ops) Buy)
    as Hin by (vm_compute; apply list_elem_of_singleton; reflexivity).
  assert (mkOrder 3%N Buy 100 70 0 ∈ [mkOrder 3%N Buy 100 70 0]) as Ho
    by (apply list_elem_of_singleton; reflexivity).
  split; [exact Hv|]. split; [exact H2|]. split; [exact H3|].
  split; [exact (proj1 (index_consistent S2.ops Hv) 2%N Sell 102 H2)|].
  split; [exact (proj1 (index_consistent S2.ops Hv) 3%N Buy 100 H3)|].
  split; [exact Hin|].
  split.
  { exact (proj1 (proj1 (proj2 (proj2 (index_consistent S2.ops Hv)))
                    Buy 100 _ _ Hin Ho)). }
  split; [exact (proj1 (proj2 (index_consistent S2.ops Hv)))|].
  vm_compute. discriminate.
Defined.

(** ** Cancellation *)

Lemma cancel_resting b i :
  book_inv b →
  id <$> all_resting (cancel b i).2 ⊆ id <$> all_resting b ∧
  ((cancel b i).1 = true →
   (i ∉ id <$> all_resting (cancel b i).2) ∧
   ∀ r, r ∈ all_resting b → id r ≠ i → r ∈ all_resting (cancel b i).2).
Proof.
  intros Hinv.
  destruct (cancel_step b i Hinv) as (_ & _ & Hfalse & Htrue & _).
  destruct (cancel b i).1 eqn:E.
  - destruct (Htrue eq_refl) as (l1 & r & l2 & Hb & Hr & Hb').
    pose proof (inv_nodup _ Hinv) as Hnd.
    rewrite Hb, fmap_app, fmap_cons in Hnd.
    apply NoDup_app in Hnd as (_ & Hd & [Hn2 _]%NoDup_cons).
    rewrite Hb', Hb, !fmap_app, fmap_cons.
    split.
    + intros j [Hj|Hj]%elem_of_app; apply elem_of_app; [by left|].
      right. by right.
    + intros _. split.
      * rewrite <-Hr. intros [Hj|Hj]%elem_of_app; [|done].
        apply (Hd _ Hj). by left.
      * intros r' [Hr'|Hr']%elem_of_app Hne; apply elem_of_app; [by left|].
        right. apply elem_of_cons in Hr' as [->|Hr']; [done|done].
  - rewrite (Hfalse eq_refl). split; [done|]. done.
Qed.

(** An id that was submitted and is not resting never rests again. *)
Lemma not_resting_stays ops1 ops2 i :
  valid_ops (ops1 ++ ops2) →
  i ∈ id <$> submitted ops1 →
  i ∉ id <$> all_resting (book_after ops1) →
  i ∉ id <$> all_resting (book_after (ops1 ++ ops2)).
Proof.
  intros Hv Hsub Hnot.
  induction ops2 as [|op ops2 IH] using rev_ind; [by rewrite app_nil_r|].
  rewrite app_assoc in *. specialize (IH (valid_ops_app _ _ Hv)).
  destruct op as [o|j].
  - destruct (valid_add_pre _ _ Hv) as (Hinv & Hq & Hfresh).
    rewrite book_after_add.
    destruct (add_order_step _ o Hinv) as (_ & _ & _ & _ & Hids); [lia|done|].
    intros Hin. apply Hids in Hin. apply elem_of_cons in Hin as [->|Hin];
      [|done].
    apply valid_ops_add in Hv as (_ & _ & Hnew). apply Hnew.
    rewrite submitted_app, fmap_app. apply elem_of_app. by left.
  - destruct (run_inv _ (valid_ops_app _ _ Hv)) as [Hinv _].
    rewrite book_after_cancel.
    destruct (cancel_resting _ j Hinv) as [Hids _].
    intros Hin. by apply IH, Hids.
Qed.

(** C7: on every book reached by calls whose orders have fresh ids,
    [cancel(id)] returns [true] exactly when an order with that id is
    resting, and then removes that order and no other; otherwise it returns
    [false] and changes nothing, as for an order that was fully filled
    (order 1 of scenario S2); and once [cancel(id)] has returned [true],
    every later [cancel(id)] of the sequence returns [false]. *)
Theorem cancel_true_at_most_once (ops : list Op) (i : OrderId) :
  valid_ops ops →
  ((cancel (book_after ops) i).1 = true ↔
   i ∈ id <$> all_resting (book_after ops)) ∧
  ((cancel (book_after ops) i).1 = true →
   (i ∉ id <$> all_resting (cancel (book_after ops) i).2) ∧
   ∀ r, r ∈ all_resting (book_after ops) → id r ≠ i →
        r ∈ all_resting (cancel (book_after ops) i).2) ∧
  ((cancel (book_after ops) i).1 = false →
   (cancel (book_after ops) i).2 = book_after ops) ∧
  (∀ o, o ∈ submitted ops →
        (id o ∉ id <$> all_resting (book_after ops)) →
        cancel (book_after ops) (id o) = (false, book_after ops)) ∧
  cancel (book_after S2.ops) 1%N = (false, book_after S2.ops) ∧
  (∀ pre mid post,
     ops = pre ++ Cancel i :: mid ++ Cancel i :: post →
     (cancel (book_after pre) i).1 = true →
     (cancel (book_after (pre ++ Cancel i :: mid)) i).1 = false).
Proof.
  intros Hv. destruct (run_inv ops Hv) as [Hinv _].
  destruct (cancel_step (book_after ops) i Hinv) as (_ & Hiff & Hfalse & _).
  split; [done|]. split; [|split; [done|split; [|split]]].
  - intros Ht. destruct (cancel_resting _ i Hinv) as [_ H]. by apply H.
  - intros o _ Hnot.
    destruct (cancel_step (book_after ops) (id o) Hinv) as (_ & Hiff' & Hf' & _).
    destruct (cancel (book_after ops) (id o)) as [[] b'] eqn:E; cbn [fst snd] in *.
    + destruct Hnot. by apply Hiff'.
    + by rewrite Hf'.
  - by vm_compute.
  - intros pre mid post -> Ht.
    assert (valid_ops (pre ++ [Cancel i])) as Hv1 by (by eapply valid_ops_prefix).
    destruct (run_inv pre (valid_ops_app _ _ Hv1)) as [Hinv0 Hsub0].
    destruct (cancel_step (book_after pre) i Hinv0) as (_ & Hiff0 & _).
    destruct (cancel_resting _ i Hinv0) as [_ Hgone].
    destruct (Hgone Ht) as [Hgone' _].
    assert (i ∈ id <$> submitted pre) as Hsubm.
    { apply Hiff0 in Ht. apply list_elem_of_fmap in Ht as (r & -> & Hr).
      destruct (Hsub0 _ Hr) as (o & Ho & Hi & _). rewrite <-Hi.
      apply list_elem_of_fmap. by exists o. }
    assert (valid_ops ((pre ++ [Cancel i]) ++ mid)) as Hv2.
    { apply (valid_ops_app _ (Cancel i :: post)).
      rewrite <-!app_assoc. exact Hv. }
    pose proof (not_resting_stays (pre ++ [Cancel i]) mid i Hv2) as Hstay.
    rewrite submitted_app, app_nil_r, book_after_cancel in Hstay.
    specialize (Hstay Hsubm Hgone').
    rewrite <-app_assoc in Hstay, Hv2. cbn [app] in Hstay, Hv2.
    destruct (run_inv _ Hv2) as [Hinv2 _].
    destruct (cancel_step _ i Hinv2) as (_ & Hiff2 & _).
    destruct (cancel (book_after (pre ++ Cancel i :: mid)) i).1; [|done].
    destruct Hstay. by apply Hiff2.
Qed.

Lemma cancel_true_at_most_once_witness :
  valid_ops S5.ops ∧
  (cancel (book_after [Add S5.buy1; Add S5.buy2]) 1%N).1 = true ∧
  (cancel (book_after [Add S5.buy1; Add S5.buy2; Cancel 1%N; Add S5.sell3])
     1%N).1 = false.
Proof.
  assert (valid_ops S5.ops) as Hv by solve_valid_ops.
  assert ((cancel (book_after [Add S5.buy1; Add S5.buy2]) 1%N).1 = true) as Ht
    by (vm_compute; reflexivity).
  split; [exact Hv|]. split; [exact Ht|].
  exact (proj2 (proj2 (proj2 (proj2 (proj2
           (cancel_true_at_most_once S5.ops 1%N Hv)))))
           [Add S5.buy1; Add S5.buy2] [Add S5.sell3] [Cancel 2%N] eq_refl Ht).
Defined.

(** ** AsyncMatchingEngine: shutdown *)

Lemma drop_schedule_runs : exec_all Drop.schedule new_engine = Some Drop.final.
Proof. reflexivity. Qed.

(** C9 (defect of the code): [shutdown()] does not leave the worker to
    process what was submitted.  On the first run two orders are accepted
    by the inbound [push], [shutdown()] clears [running_] and closes the
    inbound queue, and the worker, at the head of its loop with both
    orders queued, reads [running_] cleared and leaves at
    [while (running_)] in one step, without a [pop]; [shutdown()] joins it
    and returns with both orders still in the inbound queue, none of them
    handed to the book.  On the second run the worker has popped the
    first order before [shutdown()] starts; it hands that order to the
    book and leaves in the same way, and the second order is never
    processed.  In both the worker's exit is not a [pop] that returned
    [false].  On the third run a second invocation of [shutdown()] finds
    [running_] cleared by the first and returns at once, with the worker
    still running and the outbound queue open; the worker publishes an
    event after that return. *)
Theorem shutdown_leaves_orders_unprocessed :
  exec_all [Submit Drop.o1; Submit Drop.o2; Shutdown; Shutdown] new_engine =
    Some Drop.before_exit ∧
  worker_ Drop.before_exit = WTest ∧
  q_ (inq_ Drop.before_exit) = [Drop.o1; Drop.o2] ∧
  (∃ e, exec Worker Drop.before_exit = Some e ∧ worker_ e = WExited ∧
        inq_ e = inq_ Drop.before_exit ∧ processed e = []) ∧
  exec_all Drop.schedule new_engine = Some Drop.final ∧
  caller_ Drop.final = SReturned ∧ worker_ Drop.final = WExited ∧
  accepted Drop.final = [Drop.o1; Drop.o2] ∧
  q_ (inq_ Drop.final) = [Drop.o1; Drop.o2] ∧
  processed Drop.final = [] ∧ book_ Drop.final = empty_book ∧
  ¬ processed Drop.final = accepted Drop.final ∧
  exec_all Drop.schedule_mid new_engine = Some Drop.final_mid ∧
  caller_ Drop.final_mid = SReturned ∧ worker_ Drop.final_mid = WExited ∧
  accepted Drop.final_mid = [Drop.o1; Drop.o2] ∧
  processed Drop.final_mid = [Drop.o1] ∧
  q_ (inq_ Drop.final_mid) = [Drop.o2] ∧
  ¬ processed Drop.final_mid = accepted Drop.final_mid ∧
  exec_all Again.schedule_late new_engine = Some Again.returned_early ∧
  worker_ Again.returned_early = WAdd Drop.o2 ∧
  closed_ (outq_ Again.returned_early) = false ∧
  processed Again.returned_early = [Drop.o1] ∧
  published Again.returned_early = [] ∧
  exec_all [Worker; Worker] Again.returned_early = Some Again.later ∧
  published Again.later = [Again.event].
Proof.
  split; [reflexivity|]. split; [reflexivity|]. split; [reflexivity|].
  split.
  { eexists. split; [reflexivity|]. by repeat split. }
  split; [exact drop_schedule_runs|].
  do 6 (split; [reflexivity|]).
  split; [discriminate|].
  split; [by vm_compute|].
  do 5 (split; [reflexivity|]).
  split; [discriminate|].
  split; [by vm_compute|].
  do 4 (split; [reflexivity|]).
  split; [by vm_compute|].
  reflexivity.
Qed.

Lemma pop_Some {T : Type} (s s' : ConcurrentQueue T) v :
  pop s = Some (Some v, s') → q_ s = v :: q_ s' ∧ closed_ s' = closed_ s.
Proof.
  unfold pop. destruct s as [[|x l] c]; simpl.
  - by destruct c.
  - by intros [= <- <-].
Qed.

Lemma new_engine_inv : engine_inv new_engine.
Proof. by split. Qed.

Lemma closed_push {T : Type} (v : T) s : closed_ (push v s) = closed_ s.
Proof. unfold push. by destruct (closed_ s) eqn:E. Qed.

Lemma closed_try_pop {T : Type} (s : ConcurrentQueue T) :
  closed_ (try_pop s).2 = closed_ s.
Proof. unfold try_pop. by destruct (q_ s). Qed.

Lemma closed_pop {T : Type} (s s' : ConcurrentQueue T) v :
  pop s = Some (v, s') → closed_ s' = closed_ s.
Proof.
  destruct v as [v|].
  - by intros [_ ?]%pop_Some.
  - by intros (_ & _ & ->)%pop_false_iff.
Qed.

Lemma exec_inv a e e' : engine_inv e → exec a e = Some e' → engine_inv e'.
Proof.
  intros [Hfifo Hbook Hrun Hinq Houtq Hexit Hjoin] Hexec.
  destruct e as [b inq outq r w c acc proc pub del]. cbn in *.
  destruct a; cbn in Hexec.
  - (* Submit *)
    injection Hexec as <-. split; cbn; rewrite ?closed_push; try done.
    unfold push. destruct (closed_ inq) eqn:Hc; cbn; [done|].
    by rewrite Hfifo, <-!app_assoc.
  - (* Worker *)
    unfold worker_step in Hexec. cbn in Hexec. destruct w.
    + injection Hexec as <-. split; cbn; try done.
      * by destruct r.
      * destruct r; [done|]. intros _. by destruct c.
      * destruct c; try done; by subst r.
    + destruct (pop inq) as [[[o|] q']|] eqn:Hpop; [| |done].
      * pose proof (closed_pop _ _ _ Hpop) as Hc.
        apply pop_Some in Hpop as [Hq _]. injection Hexec as <-.
        split; cbn; try done; [by rewrite Hfifo, Hq|congruence|by destruct c].
      * pose proof (closed_pop _ _ _ Hpop) as Hc.
        apply pop_false_iff in Hpop as (Hc' & Hq & ->). injection Hexec as <-.
        split; cbn; try done; [|by destruct c].
        intros _. rewrite Hc' in Hinq. by destruct c.
    + destruct (add_order b o) as [l b'] eqn:Hadd. injection Hexec as <-.
      split; cbn; try done.
      * rewrite Hfifo, <-app_assoc. by destruct l.
      * rewrite fmap_app. cbn. rewrite book_after_add, <-Hbook. by rewrite Hadd.
      * by destruct l.
      * by destruct c, l.
    + injection Hexec as <-. split; cbn; rewrite ?closed_push; try done.
      by destruct c.
    + done.
  - (* Shutdown *)
    unfold shutdown_step in Hexec. cbn in Hexec. destruct c.
    + injection Hexec as <-. subst r. by split.
    + injection Hexec as <-. by split.
    + destruct w; try done. injection Hexec as <-. by split.
    + injection Hexec as <-. by split.
    + done.
  - (* ShutdownAgain *)
    injection Hexec as <-. unfold shutdown_again. cbn.
    destruct c; subst r; by split.
  - (* PollEvent *)
    injection Hexec as <-. split; cbn; rewrite ?closed_try_pop; done.
  - (* WaitEvent *)
    destruct (pop outq) as [[v q']|] eqn:Hpop; [|done]. injection Hexec as <-.
    apply closed_pop in Hpop. split; cbn; try done. congruence.
Qed.

Lemma exec_all_inv sched e e' :
  engine_inv e → exec_all sched e = Some e' → engine_inv e'.
Proof.
  revert e. induction sched as [|a sched IH]; intros e Hinv Hexec.
  - by injection Hexec as <-.
  - simpl in Hexec. destruct (exec a e) as [e1|] eqn:E; [|done].
    eapply IH; [|exact Hexec]. by eapply exec_inv.
Qed.

(** Once [shutdown()] has returned nothing moves but the outbound queue
    being read. *)
Lemma exec_after_shutdown a e e' :
  engine_inv e → caller_ e = SReturned → exec a e = Some e' →
  caller_ e' = SReturned ∧ published e' = published e ∧
  processed e' = processed e ∧ book_ e' = book_ e ∧ accepted e' = accepted e.
Proof.
  intros [Hfifo Hbook Hrun Hinq Houtq Hexit Hjoin] Hc Hexec.
  destruct e as [b inq outq r w c acc proc pub del]. cbn in *. subst c.
  destruct a; cbn in Hexec.
  - injection Hexec as <-. cbn. by rewrite Hinq.
  - unfold worker_step in Hexec. cbn in Hexec. by subst w.
  - done.
  - injection Hexec as <-. unfold shutdown_again. cbn. by subst r.
  - by injection Hexec as <-.
  - destruct (pop outq) as [[v q']|]; [|done]. by injection Hexec as <-.
Qed.

Lemma exec_all_after_shutdown sched e e' :
  engine_inv e → caller_ e = SReturned → exec_all sched e = Some e' →
  caller_ e' = SReturned ∧ published e' = published e ∧
  processed e' = processed e ∧ book_ e' = book_ e ∧ accepted e' = accepted e.
Proof.
  revert e. induction sched as [|a sched IH]; intros e Hinv Hc Hexec.
  - by injection Hexec as <-.
  - simpl in Hexec. destruct (exec a e) as [e1|] eqn:E; [|done].
    destruct (exec_after_shutdown _ _ _ Hinv Hc E) as (Hc1 & <- & <- & <- & <-).
    eapply IH; [by eapply exec_inv|done|done].
Qed.

(** What does hold of [shutdown()]: in every state the engine reaches, the
    orders handed to the book are, in FIFO order, the first of the orders
    accepted by the inbound [push], the book is the result of [add_order]
    on exactly these, and the others are the one in the worker's hands and
    those still in the inbound queue; the worker leaves its loop only
    after [running_] has been cleared; and once the invocation of
    [shutdown()] whose compare-exchange succeeded has returned, the worker
    has exited, both queues are closed, and nothing is accepted, processed
    or published any more. *)
Lemma winning_shutdown_stops_worker (sched : list Action) (e : Engine) :
  exec_all sched new_engine = Some e →
  accepted e = processed e ++ inflight (worker_ e) ++ q_ (inq_ e) ∧
  book_ e = book_after (Add <$> processed e) ∧
  (worker_ e = WExited → running_ e = false) ∧
  (worker_ e = WExited → q_ (inq_ e) = [] → processed e = accepted e) ∧
  (caller_ e = SReturned →
   worker_ e = WExited ∧
   closed_ (inq_ e) = true ∧ closed_ (outq_ e) = true ∧
   ∀ sched' e', exec_all sched' e = Some e' →
     caller_ e' = SReturned ∧ published e' = published e ∧
     processed e' = processed e ∧ book_ e' = book_ e ∧
     accepted e' = accepted e).
Proof.
  intros Hexec.
  pose proof (exec_all_inv _ _ _ new_engine_inv Hexec) as Hinv.
  pose proof Hinv as [Hfifo Hbook Hrun Hinq Houtq Hexit Hjoin].
  split; [done|]. split; [done|]. split; [|split].
  - intros Hw. rewrite Hrun. specialize (Hexit Hw). by destruct (caller_ e).
  - intros Hw Hq. by rewrite Hfifo, Hw, Hq, !app_nil_r.
  - intros Hc. rewrite Hc in *. split_and!; [done..|].
    intros sched' e' Hexec'.
    by eapply exec_all_after_shutdown.
Qed.

(** * Further properties of the order book *)

(** ** Extra invariants of the crossing loop *)

(** An invariant of the loop body that may rely on [cross_inv] holds at the
    exit of the loop. *)
Lemma cross_loop_inv_with s before
    (J : Order → Levels → gmap OrderId (Side * Price) → list Trade → Prop)
    fuel o0 levels0 x idx0 o' levels' idx' tr' :
  0 ≤ qty o0 < 2 ^ 63 →
  ladder_ok s before levels0 →
  NoDup (id <$> (resting levels0 ++ x)) →
  idx0 = index_of (resting levels0 ++ x) →
  J o0 levels0 idx0 [] →
  (∀ o px q others idx tr,
     cross_inv s before o0 levels0 x o ((px, q) :: others) idx tr →
     J o ((px, q) :: others) idx tr →
     0 < qty o → before (price o) px = false →
     ∀ o1 q1 idx1 tr1,
       match_queue o q idx tr = (o1, q1, idx1, tr1) →
       J o1 (match q1 with [] => others | _ :: _ => (px, q1) :: others end)
         idx1 tr1) →
  cross_loop fuel before o0 levels0 idx0 [] = Some (o', levels', idx', tr') →
  J o' levels' idx' tr'.
Proof.
  intros Hq Hl Hnd Hidx HJ Hbody Hrun.
  eapply (cross_loop_rule before (λ o levels idx tr,
            cross_inv s before o0 levels0 x o levels idx tr ∧
            J o levels idx tr)); [| |exact Hrun].
  - intros o px q others idx tr [HI HJ'] Hpos Hw o1 q1 idx1 tr1 Hm. split.
    + eapply cross_inv_body; [lia|exact HI|done..].
    + by eapply Hbody.
  - split; [by apply cross_inv_init; [lia|..]|done].
Qed.

(** [add_order] with an extra invariant of its loop. *)
Lemma add_order_with b o
    (J : Order → Levels → gmap OrderId (Side * Price) → list Trade → Prop) :
  book_inv b → 0 ≤ qty o < 2 ^ 63 →
  J o (opposite b (side o)) (id_index_ b) [] →
  (∀ o1 px q others idx tr,
     cross_inv (other_side (side o)) (crossed_by (side o)) o
       (opposite b (side o)) (resting (own b (side o)))
       o1 ((px, q) :: others) idx tr →
     J o1 ((px, q) :: others) idx tr →
     0 < qty o1 → crossed_by (side o) (price o1) px = false →
     ∀ o2 q2 idx2 tr2,
       match_queue o1 q idx tr = (o2, q2, idx2, tr2) →
       J o2 (match q2 with [] => others | _ :: _ => (px, q2) :: others end)
         idx2 tr2) →
  ∃ o' levels' idx' tr,
    add_order b o =
      (tr, if 0 <? qty o'
           then enqueue (with_opposite b (side o) levels' idx') o'
           else with_opposite b (side o) levels' idx') ∧
    residual b o = qty o' ∧
    cross_inv (other_side (side o)) (crossed_by (side o)) o
      (opposite b (side o)) (resting (own b (side o))) o' levels' idx' tr ∧
    J o' levels' idx' tr.
Proof.
  intros Hinv Hq HJ Hbody.
  destruct (add_order_eq b o) as (o' & levels' & idx' & tr & Hrun & Hadd).
  exists o', levels', idx', tr. split; [done|].
  split; [unfold residual; by rewrite Hrun|].
  assert (ladder_ok (other_side (side o)) (crossed_by (side o))
            (opposite b (side o))) as Hl by (by apply book_inv_opposite).
  assert (NoDup (id <$> resting (opposite b (side o)) ++
                        resting (own b (side o)))) as Hnd
    by (rewrite <-all_resting_sides; apply Hinv).
  assert (id_index_ b =
          index_of (resting (opposite b (side o)) ++ resting (own b (side o))))
    as Hidx.
  { rewrite (inv_index _ Hinv). apply index_of_perm; [apply Hinv|].
    apply all_resting_sides. }
  apply (cross_loop_inv_with (other_side (side o)) (crossed_by (side o))
           (λ o1 l1 i1 t1,
              cross_inv (other_side (side o)) (crossed_by (side o)) o
                (opposite b (side o)) (resting (own b (side o))) o1 l1 i1 t1 ∧
              J o1 l1 i1 t1)
           (cross_fuel (opposite b (side o))) o (opposite b (side o))
           (resting (own b (side o))) (id_index_ b) o' levels' idx' tr
           Hq Hl Hnd Hidx); [| |exact Hrun].
  - split; [by apply cross_inv_init; [lia|..]|done].
  - intros o1 px q others idx tr1 HI [_ HJ1] Hpos Hw o2 q2 idx2 tr2 Hm.
    split; [eapply cross_inv_body; [lia|exact HI|done..]|by eapply Hbody].
Qed.

(** ** Takers trade within their limit *)

Lemma match_queue_prices (P : Price → Prop) px o queue idx tr :
  Forall (λ r, price r = px) queue → P px →
  Forall (λ t, P (trade_price t)) tr →
  Forall (λ t, P (trade_price t)) (match_queue o queue idx tr).2.
Proof.
  revert queue o idx tr.
  apply (match_queue_ind (λ o queue idx tr res,
    Forall (λ r, price r = px) queue → P px →
    Forall (λ t, P (trade_price t)) tr →
    Forall (λ t, P (trade_price t)) res.2)); cbn [fst snd]; try done.
  - intros o r rest idx tr _ _ [Hr _]%Forall_cons HP Htr.
    apply Forall_app. split; [done|]. apply Forall_singleton. cbn. by rewrite Hr.
  - intros o r rest idx tr res _ _ IH [Hr Hq]%Forall_cons HP Htr.
    apply IH; [done|done|]. apply Forall_app. split; [done|].
    apply Forall_singleton. cbn. by rewrite Hr.
Qed.

(** X1: every trade of an [add_order] is priced within the taker's limit:
    at or below the limit price of a buy, at or above that of a sell. *)
Theorem taker_limit_respected (ops : list Op) (o : Order) (t : Trade) :
  valid_ops (ops ++ [Add o]) →
  t ∈ (add_order (book_after ops) o).1 →
  within_limit (side o) (price o) (trade_price t).
Proof.
  intros Hv Ht.
  destruct (valid_add_pre _ _ Hv) as (Hinv & Hq & _).
  destruct (add_order_with (book_after ops) o
              (λ _ _ _ tr, Forall (λ t, crossed_by (side o) (price o)
                                          (trade_price t) = false) tr))
    as (o' & levels' & idx' & tr & Hadd & _ & _ & HJ); [done|lia|done| |].
  - intros o1 px q others idx tr HI HJ _ Hw o2 q2 idx2 tr2 Hm.
    pose proof (match_queue_prices
                  (λ p, crossed_by (side o) (price o) p = false) px o1 q idx tr)
      as Hp.
    rewrite Hm in Hp. apply Hp; [| |done].
    + destruct (ladder_ok_queue _ _ _ _ _ (ci_ladder _ _ _ _ _ _ _ _ _ HI)
                  (list_elem_of_here _ _)) as [_ Hall].
      eapply Forall_impl; [exact Hall|]. by intros r (_ & ? & _).
    + by rewrite <-(ci_price _ _ _ _ _ _ _ _ _ HI).
  - rewrite Hadd in Ht. cbn [fst] in Ht. rewrite Forall_forall in HJ.
    specialize (HJ _ Ht). unfold within_limit. destruct (side o); simpl in HJ; lia.
Qed.

Lemma taker_limit_respected_witness :
  valid_ops ([Add S2.sell1; Add S2.sell2; Add S2.buy3] ++ [Add S2.buy4]) ∧
  within_limit (side S2.buy4) (price S2.buy4)
    (trade_price (mkTrade 1%N 4%N 101 50)).
Proof.
  assert (valid_ops ([Add S2.sell1; Add S2.sell2; Add S2.buy3] ++ [Add S2.buy4]))
    as Hv by solve_valid_ops.
  split; [exact Hv|].
  apply (taker_limit_respected _ _ _ Hv).
  vm_compute. apply list_elem_of_here.
Defined.

(** ** Filled and residual quantity *)

Lemma match_queue_fill s px o queue idx tr :
  0 ≤ qty o < 2 ^ 63 →
  Forall (resting_ok s px) queue →
  qty (match_queue o queue idx tr).1.1.1 + traded_qty (match_queue o queue idx tr).2
  = qty o + traded_qty tr.
Proof.
  revert queue o idx tr.
  apply (match_queue_ind (λ o queue idx tr res,
    0 ≤ qty o < 2 ^ 63 → Forall (resting_ok s px) queue →
    qty res.1.1.1 + traded_qty res.2 = qty o + traded_qty tr));
    cbn [fst snd]; try done.
  - intros o r rest idx tr Hpos _ Ho [(_ & _ & Hr) _]%Forall_cons.
    rewrite traded_qty_snoc. cbn [qty sub_qty trade_qty].
    rewrite wrap64_id by (unfold int64_range; lia). lia.
  - intros o r rest idx tr res Hpos _ IH Ho [(_ & _ & Hr) Hq]%Forall_cons.
    rewrite IH; [| |done].
    + rewrite traded_qty_snoc. cbn [qty sub_qty trade_qty].
      rewrite wrap64_id by (unfold int64_range; lia). lia.
    + cbn [qty sub_qty]. rewrite wrap64_id by (unfold int64_range; lia). lia.
Qed.

(** X2: the quantity an incoming order trades and its residual add up to its
    quantity, the residual lying between 0 and that quantity: an order
    never trades more than it asked for. *)
Theorem filled_plus_residual (ops : list Op) (o : Order) :
  valid_ops (ops ++ [Add o]) →
  traded_qty (add_order (book_after ops) o).1 + residual (book_after ops) o
    = qty o ∧
  0 ≤ residual (book_after ops) o ≤ qty o.
Proof.
  intros Hv.
  destruct (valid_add_pre _ _ Hv) as (Hinv & Hq & _).
  destruct (add_order_with (book_after ops) o
              (λ o1 _ _ tr, qty o1 + traded_qty tr = qty o ∧ 0 ≤ qty o1 ≤ qty o))
    as (o' & levels' & idx' & tr & Hadd & Hres & _ & HJ & HJ'); [done|lia| | |].
  - unfold traded_qty. simpl. lia.
  - intros o1 px q others idx tr HI [HJ1 HJ2] _ _ o2 q2 idx2 tr2 Hm.
    destruct (ladder_ok_queue _ _ _ _ _ (ci_ladder _ _ _ _ _ _ _ _ _ HI)
                (list_elem_of_here _ _)) as [_ Hall].
    pose proof (match_queue_fill _ px o1 q idx tr ltac:(lia) Hall) as Hf.
    pose proof (match_queue_arith _ px o1 q idx tr ltac:(lia) Hall) as (Ha & _).
    rewrite Hm in *. cbn [fst snd] in *. lia.
  - rewrite Hadd, Hres. cbn [fst]. lia.
Qed.

Lemma filled_plus_residual_witness :
  valid_ops ([Add S2.sell1; Add S2.sell2; Add S2.buy3] ++ [Add S2.buy4]) ∧
  traded_qty (add_order S2.before4 S2.buy4).1 + residual S2.before4 S2.buy4
    = qty S2.buy4.
Proof.
  assert (valid_ops ([Add S2.sell1; Add S2.sell2; Add S2.buy3] ++ [Add S2.buy4]))
    as Hv by solve_valid_ops.
  split; [exact Hv|].
  exact (proj1 (filled_plus_residual _ _ Hv)).
Defined.

(** ** An order trades exactly when it crosses *)

Lemma match_queue_grows o queue idx tr :
  tr `prefix_of` (match_queue o queue idx tr).2 ∧
  (0 < qty o → queue ≠ [] → (match_queue o queue idx tr).2 ≠ tr).
Proof.
  destruct (match_queue_fifo o queue idx tr) as (new & Hnew & _).
  split; [rewrite Hnew; by apply prefix_app_r|].
  intros Hpos Hne. destruct queue as [|r rest]; [done|].
  rewrite match_queue_cons.
  destruct (Z.ltb_spec 0 (qty o)) as [_|?]; [|lia]. cbv zeta.
  assert (∀ (l k : list Trade) t, l ++ [t] `prefix_of` k → k ≠ l) as Hlen.
  { intros l k t [m ->] E. apply (f_equal length) in E.
    rewrite !length_app in E. simpl in E. lia. }
  destruct (_ =? 0).
  - destruct (match_queue_fifo (sub_qty o (Z.min (qty o) (qty r))) rest
                (delete (id r) idx)
                (tr ++ [mkTrade (id r) (id o) (price r) (Z.min (qty o) (qty r))]))
      as (new' & -> & _).
    eapply Hlen. by apply prefix_app_r.
  - cbn [snd]. by eapply Hlen.
Qed.

Lemma cross_loop_trades_prefix fuel before o levels idx tr o' levels' idx' tr' :
  cross_loop fuel before o levels idx tr = Some (o', levels', idx', tr') →
  tr `prefix_of` tr'.
Proof.
  intros Hrun.
  eapply (cross_loop_rule before (λ _ _ _ tr1, tr `prefix_of` tr1));
    [|done|exact Hrun].
  intros o1 px q others idx1 tr1 Hpre _ _ o2 q2 idx2 tr2 Hm.
  destruct (match_queue_grows o1 q idx1 tr1) as [Hg _]. rewrite Hm in Hg.
  by etrans.
Qed.

Lemma crosses_spec b o :
  crosses b o ↔
  ∃ px q others, opposite b (side o) = (px, q) :: others ∧
                 crossed_by (side o) (price o) px = false.
Proof.
  unfold crosses, best_ask, best_bid, opposite, crossed_by.
  destruct (side o).
  - destruct (asks_ b) as [|[px q] others].
    + split; [done|]. by intros (? & ? & ? & ? & _).
    + split.
      * intros H. exists px, q, others. split; [done|]. lia.
      * intros (? & ? & ? & [= <- <- <-] & H). lia.
  - destruct (bids_ b) as [|[px q] others].
    + split; [done|]. by intros (? & ? & ? & ? & _).
    + split.
      * intros H. exists px, q, others. split; [done|]. lia.
      * intros (? & ? & ? & [= <- <- <-] & H). lia.
Qed.

(** An order of positive quantity that does not cross is enqueued as it
    is, on any book. *)
Lemma add_order_no_cross b o :
  0 < qty o → ¬ crosses b o → add_order b o = ([], enqueue b o).
Proof.
  intros Hpos Hno.
  destruct (add_order_eq b o) as (o' & levels' & idx' & tr & Hrun & ->).
  unfold cross_fuel in Hrun. rewrite cross_loop_S in Hrun.
  destruct (Z.ltb_spec 0 (qty o)) as [_|?]; [|lia].
  assert ((o', levels', idx', tr) = (o, opposite b (side o), id_index_ b, []))
    as [= -> -> -> ->].
  { destruct (opposite b (side o)) as [|[px q] others] eqn:E; [congruence|].
    destruct (crossed_by (side o) (price o) px) eqn:Hw; [congruence|].
    destruct Hno. apply crosses_spec. by exists px, q, others. }
  destruct (Z.ltb_spec 0 (qty o)) as [_|?]; [|lia].
  f_equal. f_equal. destruct b. unfold with_opposite, opposite.
  by destruct (side o).
Qed.

(** X3: on a book reached by valid calls, an incoming order of positive
    quantity trades exactly when it crosses: [add_order] returns no trade
    iff the opposite side is empty or its best price is beyond the order's
    limit, and then the book afterwards is the book with the order
    enqueued. *)
Theorem trades_iff_crosses (ops : list Op) (o : Order) :
  valid_ops (ops ++ [Add o]) →
  ((add_order (book_after ops) o).1 = [] ↔ ¬ crosses (book_after ops) o) ∧
  (¬ crosses (book_after ops) o →
   add_order (book_after ops) o = ([], enqueue (book_after ops) o)).
Proof.
  intros Hv.
  destruct (valid_add_pre _ _ Hv) as (Hinv & Hq & _).
  split; [split|].
  - intros Hnil (px & q & others & Hopp & Hw)%crosses_spec.
    destruct (add_order_eq (book_after ops) o)
      as (o' & levels' & idx' & tr & Hrun & Hadd).
    rewrite Hadd in Hnil. cbn [fst] in Hnil. subst tr.
    unfold cross_fuel in Hrun. rewrite cross_loop_S, Hopp, Hw in Hrun.
    destruct (Z.ltb_spec 0 (qty o)) as [_|?]; [|lia].
    destruct (match_queue o q (id_index_ (book_after ops)) [])
      as [[[o1 q1] idx1] tr1] eqn:Hm.
    apply cross_loop_trades_prefix in Hrun. apply prefix_nil_inv in Hrun.
    destruct (match_queue_grows o q (id_index_ (book_after ops)) []) as [_ Hg].
    rewrite Hm in Hg. cbn [snd] in Hg. apply Hg; [lia| |done].
    pose proof (book_inv_opposite _ (side o) Hinv) as Hl. rewrite Hopp in Hl.
    by destruct (ladder_ok_queue _ _ _ _ _ Hl (list_elem_of_here _ _)).
  - intros Hno. rewrite add_order_no_cross; [done|lia|done].
  - intros Hno. apply add_order_no_cross; [lia|done].
Qed.

Lemma trades_iff_crosses_witness :
  valid_ops ([Add S2.sell1; Add S2.sell2] ++ [Add S2.buy3]) ∧
  ¬ crosses (book_after [Add S2.sell1; Add S2.sell2]) S2.buy3 ∧
  add_order (book_after [Add S2.sell1; Add S2.sell2]) S2.buy3 =
    ([], enqueue (book_after [Add S2.sell1; Add S2.sell2]) S2.buy3).
Proof.
  assert (valid_ops ([Add S2.sell1; Add S2.sell2] ++ [Add S2.buy3]))
    as Hv by solve_valid_ops.
  assert (¬ crosses (book_after [Add S2.sell1; Add S2.sell2]) S2.buy3) as Hno
    by (intros H; vm_compute in H; apply H; reflexivity).
  split; [exact Hv|]. split; [exact Hno|].
  exact (proj2 (trades_iff_crosses _ _ Hv) Hno).
Defined.

(** ** Where the residual rests *)

Lemma level_find_None p (levels : Levels) :
  p ∉ levels.*1 → level_find p levels = None.
Proof.
  induction levels as [|[px q] levels IH]; [done|].
  rewrite fmap_cons. cbn [fst level_find]. intros [Hne Hnot]%not_elem_of_cons.
  destruct (Z.eqb_spec px p); [congruence|]. by apply IH.
Qed.

(** A price that comes before the head of a ladder is not one of its
    keys. *)
Lemma ladder_before_head s before `{!Comparator before} p px q
    (levels : Levels) :
  ladder_ok s before ((px, q) :: levels) → before p px = true →
  level_find p ((px, q) :: levels) = None.
Proof.
  intros Hl Hb. apply level_find_None. rewrite fmap_cons. cbn [fst].
  apply not_elem_of_cons. split.
  - intros ->. by rewrite before_irrefl in Hb.
  - intros Hin. pose proof (ladder_ok_best _ _ _ _ _ _ Hl Hin) as Hb'.
    pose proof (before_trans _ _ _ Hb Hb') as Hpp.
    by rewrite before_irrefl in Hpp.
Qed.

Lemma level_find_push s before `{!Comparator before} o (levels : Levels) p :
  ladder_ok s before levels →
  level_find p (level_push before o levels) =
  if p =? price o
  then Some (default [] (level_find p levels) ++ [o])
  else level_find p levels.
Proof.
  intros Hl. induction levels as [|[px q] levels IH].
  - cbn [level_push level_find]. rewrite (Z.eqb_sym p). by destruct (_ =? _).
  - cbn [level_push]. destruct (Z.eqb_spec px (price o)) as [->|Hne].
    + cbn [level_find]. rewrite (Z.eqb_sym p). by destruct (price o =? p).
    + destruct (before (price o) px) eqn:Hb.
      * change (level_find p ((price o, [o]) :: (px, q) :: levels))
          with (if price o =? p then Some [o]
                else level_find p ((px, q) :: levels)).
        rewrite (Z.eqb_sym p). destruct (Z.eqb_spec (price o) p) as [<-|_];
          [|done].
        by rewrite (ladder_before_head s before (price o) px q levels Hl Hb).
      * cbn [level_find]. rewrite (IH (ladder_ok_tail _ _ _ _ Hl)).
        destruct (Z.eqb_spec px p) as [<-|_]; [|done].
        destruct (Z.eqb_spec px (price o)); [done|done].
Qed.

Lemma enqueue_index b o :
  id_index_ (enqueue b o) = <[id o := (side o, price o)]> (id_index_ b).
Proof. rewrite enqueue_eq. by destruct (side o). Qed.

Lemma with_opposite_index b s levels idx :
  id_index_ (with_opposite b s levels idx) = idx.
Proof. by destruct s. Qed.

(** X4: when an incoming order is left with a residual, what rests is the
    order with that quantity, at the tail of the queue of its price on its
    own side, the other levels of that side being as they were, and the
    index records its side and price; when it is fully filled its own side
    is unchanged and the index does not hold its id. *)
Theorem residual_rests_at_tail (ops : list Op) (o : Order) :
  valid_ops (ops ++ [Add o]) →
  (0 < residual (book_after ops) o →
   ∃ r, id r = id o ∧ side r = side o ∧ price r = price o ∧
        qty r = residual (book_after ops) o ∧
        level_find (price o) (own (add_order (book_after ops) o).2 (side o)) =
          Some (default [] (level_find (price o) (own (book_after ops) (side o)))
                ++ [r]) ∧
        (∀ p, p ≠ price o →
           level_find p (own (add_order (book_after ops) o).2 (side o)) =
           level_find p (own (book_after ops) (side o))) ∧
        id_index_ (add_order (book_after ops) o).2 !! id o =
          Some (side o, price o)) ∧
  (residual (book_after ops) o = 0 →
   own (add_order (book_after ops) o).2 (side o) = own (book_after ops) (side o) ∧
   id_index_ (add_order (book_after ops) o).2 !! id o = None).
Proof.
  intros Hv.
  destruct (valid_add_pre _ _ Hv) as (Hinv & Hq & Hfresh).
  set (b := book_after ops) in *.
  destruct (add_order_cross b o Hinv ltac:(lia))
    as (o' & levels' & idx' & tr & -> & -> & HI & _).
  pose proof (ci_id _ _ _ _ _ _ _ _ _ HI) as Hid.
  pose proof (ci_side _ _ _ _ _ _ _ _ _ HI) as Hside.
  pose proof (ci_price _ _ _ _ _ _ _ _ _ HI) as Hprice.
  cbn [snd]. split.
  - intros Hpos. destruct (Z.ltb_spec 0 (qty o')) as [_|?]; [|lia].
    exists o'. split_and!; [done..| | |].
    + rewrite <-Hside, enqueue_own, Hside, with_opposite_own.
      rewrite (level_find_push (side o) _ _ _ _ (book_inv_own b (side o) Hinv)).
      by rewrite Hprice, Z.eqb_refl.
    + intros p Hne.
      rewrite <-Hside, enqueue_own, Hside, with_opposite_own.
      rewrite (level_find_push (side o) _ _ _ _ (book_inv_own b (side o) Hinv)).
      rewrite Hprice. by destruct (Z.eqb_spec p (price o)).
    + by rewrite enqueue_index, Hid, Hside, Hprice, lookup_insert_eq.
  - intros Hz. destruct (Z.ltb_spec 0 (qty o')) as [?|_]; [lia|].
    split; [apply with_opposite_own|].
    rewrite with_opposite_index, (ci_index _ _ _ _ _ _ _ _ _ HI).
    apply index_of_None. rewrite fmap_app.
    intros [Hin|Hin]%elem_of_app; apply Hfresh;
      rewrite (all_resting_sides b (side o)), fmap_app; apply elem_of_app.
    + left. by apply (ci_ids _ _ _ _ _ _ _ _ _ HI).
    + by right.
Qed.

Lemma residual_rests_at_tail_witness :
  valid_ops ([Add S4.sell1] ++ [Add S4.sell2]) ∧
  0 < residual (book_after [Add S4.sell1]) S4.sell2 ∧
  ∃ r, id r = id S4.sell2 ∧ side r = side S4.sell2 ∧ price r = price S4.sell2 ∧
       qty r = residual (book_after [Add S4.sell1]) S4.sell2 ∧
       level_find (price S4.sell2)
         (own (add_order (book_after [Add S4.sell1]) S4.sell2).2 (side S4.sell2)) =
       Some (default [] (level_find (price S4.sell2)
                           (own (book_after [Add S4.sell1]) (side S4.sell2)))
             ++ [r]).
Proof.
  assert (valid_ops ([Add S4.sell1] ++ [Add S4.sell2])) as Hv
    by solve_valid_ops.
  assert (0 < residual (book_after [Add S4.sell1]) S4.sell2) as Hpos
    by (vm_compute; reflexivity).
  split; [exact Hv|]. split; [exact Hpos|].
  destruct (proj1 (residual_rests_at_tail _ _ Hv) Hpos)
    as (r & H1 & H2 & H3 & H4 & H5 & _).
  exists r. repeat split; assumption.
Defined.

(** ** Submitting then cancelling *)

Lemma erase_id_snoc o (q : list Order) :
  id o ∉ id <$> q → erase_id (id o) (q ++ [o]) = Some q.
Proof.
  induction q as [|r q IH]; intros Hnot.
  - simpl. by rewrite N.eqb_refl.
  - rewrite fmap_cons in Hnot. apply not_elem_of_cons in Hnot as [Hne Hnot].
    cbn [app erase_id]. destruct (N.eqb_spec (id r) (id o)); [congruence|].
    by rewrite (IH Hnot).
Qed.

Lemma level_store_push s before `{!Comparator before} o (levels : Levels) :
  ladder_ok s before levels →
  level_store (price o) (default [] (level_find (price o) levels))
    (level_push before o levels) = levels.
Proof.
  intros Hl. induction levels as [|[px q] levels IH].
  - cbn. by rewrite Z.eqb_refl.
  - cbn [level_push]. destruct (Z.eqb_spec px (price o)) as [->|Hne].
    + cbn [level_find level_store]. rewrite Z.eqb_refl. cbn [default].
      destruct (ladder_ok_queue _ _ _ _ _ Hl (list_elem_of_here _ _)) as [Hq _].
      by destruct q.
    + destruct (before (price o) px) eqn:Hb.
      * rewrite (ladder_before_head s before (price o) px q levels Hl Hb).
        cbn. by rewrite Z.eqb_refl.
      * cbn [level_find level_store].
        destruct (Z.eqb_spec px (price o)); [done|].
        by rewrite (IH (ladder_ok_tail _ _ _ _ Hl)).
Qed.

Lemma enqueue_undo b o :
  with_opposite (enqueue b o) (other_side (side o)) (own b (side o))
    (id_index_ b) = b.
Proof. rewrite enqueue_eq. destruct b. by destruct (side o). Qed.

(** X5: submitting an order that does not cross and then cancelling it
    gives the book back as it was: [cancel] returns [true] and the ladders
    and the index are those of before the submission. *)
Theorem add_then_cancel_restores (ops : list Op) (o : Order) :
  valid_ops (ops ++ [Add o]) →
  ¬ crosses (book_after ops) o →
  cancel (add_order (book_after ops) o).2 (id o) = (true, book_after ops).
Proof.
  intros Hv Hno.
  destruct (valid_add_pre _ _ Hv) as (Hinv & Hq & Hfresh).
  set (b := book_after ops) in *.
  rewrite add_order_no_cross; [|lia|done]. cbn [snd].
  pose proof (book_inv_own b (side o) Hinv) as Hl.
  assert (id_index_ b !! id o = None) as Hnone
    by (rewrite (inv_index _ Hinv); by apply index_of_None).
  rewrite cancel_eq, enqueue_index, lookup_insert_eq, enqueue_own.
  rewrite (level_find_push (side o) _ _ _ _ Hl), Z.eqb_refl.
  rewrite erase_id_snoc.
  - rewrite (level_store_push (side o) _ _ _ Hl).
    rewrite delete_insert_id by done.
    f_equal. apply enqueue_undo.
  - intros Hin. apply Hfresh. apply list_elem_of_fmap in Hin as (r & -> & Hr).
    apply list_elem_of_fmap. exists r. split; [done|].
    apply (own_resting b (side o)).
    destruct (level_find (price o) (own b (side o))) as [q|] eqn:E;
      [|by apply elem_of_nil in Hr].
    apply elem_of_resting. exists (price o), q. split; [|done].
    by apply level_find_elem.
Qed.

Lemma add_then_cancel_restores_witness :
  valid_ops ([Add S2.sell1; Add S2.sell2] ++ [Add S2.buy3]) ∧
  ¬ crosses (book_after [Add S2.sell1; Add S2.sell2]) S2.buy3 ∧
  cancel (add_order (book_after [Add S2.sell1; Add S2.sell2]) S2.buy3).2
    (id S2.buy3) = (true, book_after [Add S2.sell1; Add S2.sell2]).
Proof.
  assert (valid_ops ([Add S2.sell1; Add S2.sell2] ++ [Add S2.buy3]))
    as Hv by solve_valid_ops.
  assert (¬ crosses (book_after [Add S2.sell1; Add S2.sell2]) S2.buy3) as Hno
    by (intros H; vm_compute in H; apply H; reflexivity).
  split; [exact Hv|]. split; [exact Hno|].
  exact (add_then_cancel_restores _ _ Hv Hno).
Defined.

(** ** Best prices *)

(** X6: on a book reached by valid calls, [best_bid] is absent exactly when
    no buy order rests, and otherwise it is the price of a resting buy
    order that no resting buy order exceeds; [best_ask] likewise is the
    least price of the resting sell orders. *)
Theorem best_prices_are_extremal (ops : list Op) :
  valid_ops ops →
  (best_bid (book_after ops) = None ↔
   ∀ r, r ∈ all_resting (book_after ops) → side r ≠ Buy) ∧
  (∀ p, best_bid (book_after ops) = Some p →
     (∃ r, r ∈ all_resting (book_after ops) ∧ side r = Buy ∧ price r = p) ∧
     ∀ r, r ∈ all_resting (book_after ops) → side r = Buy → price r ≤ p) ∧
  (best_ask (book_after ops) = None ↔
   ∀ r, r ∈ all_resting (book_after ops) → side r ≠ Sell) ∧
  (∀ p, best_ask (book_after ops) = Some p →
     (∃ r, r ∈ all_resting (book_after ops) ∧ side r = Sell ∧ price r = p) ∧
     ∀ r, r ∈ all_resting (book_after ops) → side r = Sell → p ≤ price r).
Proof.
  intros Hv. destruct (run_inv ops Hv) as [Hinv _].
  set (b := book_after ops) in *.
  assert (∀ s r, r ∈ all_resting b → side r = s → r ∈ resting (own b s)) as Hside.
  { intros s r Hr Hs. rewrite (all_resting_sides b s) in Hr.
    apply elem_of_app in Hr as [Hr|Hr]; [|done].
    pose proof (ladder_ok_resting _ _ _ (book_inv_opposite b s Hinv)) as Hf.
    rewrite Forall_forall in Hf. destruct (Hf _ Hr) as [Hs' _].
    rewrite Hs in Hs'. by destruct s. }
  assert (∀ s, match own b s with
               | [] => ∀ r, r ∈ all_resting b → side r ≠ s
               | (p, _) :: _ =>
                 (∃ r, r ∈ all_resting b ∧ side r = s ∧ price r = p) ∧
                 ∀ r, r ∈ all_resting b → side r = s →
                      p = price r ∨ crossed_by (other_side s) p (price r) = true
               end) as Hbest.
  { intros s. pose proof (book_inv_own b s Hinv) as Hl.
    specialize (Hside s).
    destruct (own b s) as [|[p q] levels] eqn:E.
    - intros r Hr Hs. specialize (Hside r Hr Hs). by apply elem_of_nil in Hside.
    - destruct (ladder_ok_queue _ _ _ _ _ Hl (list_elem_of_here _ _))
        as [Hne Hq].
      split.
      + destruct q as [|r q]; [done|]. exists r.
        apply Forall_cons in Hq as [(Hs & Hp & _) _].
        split_and!; [|done..]. apply (own_resting b s). rewrite E.
        rewrite resting_cons. by left.
      + intros r Hr Hs. specialize (Hside r Hr Hs).
        apply elem_of_resting in Hside as (px & q' & Hin & Hrq).
        destruct (ladder_ok_queue _ _ _ _ _ Hl Hin) as [_ Hq'].
        rewrite Forall_forall in Hq'. destruct (Hq' _ Hrq) as (_ & <- & _).
        apply elem_of_cons in Hin as [[= -> ->]|Hin]; [by left|].
        right. eapply ladder_ok_best; [exact Hl|].
        apply list_elem_of_fmap. by exists (price r, q'). }
  pose proof (Hbest Buy) as HB. pose proof (Hbest Sell) as HS.
  unfold best_bid, best_ask. cbn [own other_side crossed_by] in HB, HS.
  split_and!.
  - destruct (bids_ b) as [|[p q] l]; [done|].
    destruct HB as [(r & Hr & Hs & _) _]. split; [done|].
    intros H. by destruct (H r Hr).
  - intros p Hp. destruct (bids_ b) as [|[p' q] l]; [done|].
    injection Hp as ->. destruct HB as [Hex Hall]. split; [done|].
    intros r Hr Hs. destruct (Hall r Hr Hs); lia.
  - destruct (asks_ b) as [|[p q] l]; [done|].
    destruct HS as [(r & Hr & Hs & _) _]. split; [done|].
    intros H. by destruct (H r Hr).
  - intros p Hp. destruct (asks_ b) as [|[p' q] l]; [done|].
    injection Hp as ->. destruct HS as [Hex Hall]. split; [done|].
    intros r Hr Hs. destruct (Hall r Hr Hs); lia.
Qed.

Lemma best_prices_are_extremal_witness :
  valid_ops S2.ops ∧
  ∀ p, best_bid (book_after S2.ops) = Some p →
       ∀ r, r ∈ all_resting (book_after S2.ops) → side r = Buy → price r ≤ p.
Proof.
  assert (valid_ops S2.ops) as Hv by solve_valid_ops.
  split; [exact Hv|]. intros p Hp.
  exact (proj2 (proj1 (proj2 (best_prices_are_extremal S2.ops Hv)) p Hp)).
Defined.

(** ** [cancel] on any book *)

Lemma level_store_erase_any i p (levels : Levels) q q' :
  level_find p levels = Some q →
  erase_id i q = Some q' →
  ∃ a r c, resting levels = a ++ r :: c ∧ id r = i ∧
           resting (level_store p q' levels) = a ++ c.
Proof.
  intros Hfind Herase.
  destruct (erase_id_Some _ _ _ Herase) as (l1 & r & l2 & -> & Hr & ->).
  induction levels as [|[px q0] levels IH]; [done|].
  cbn [level_find level_store] in *.
  destruct (Z.eqb_spec px p) as [->|Hne].
  - injection Hfind as ->. exists l1, r, (l2 ++ resting levels).
    split; [by rewrite resting_cons, <-app_assoc|]. split; [done|].
    rewrite app_assoc. by destruct (l1 ++ l2) as [|r' k].
  - destruct (IH Hfind) as (a & r' & c & E1 & Hr' & E2).
    exists (q0 ++ a), r', c. by rewrite !resting_cons, E1, E2, <-!app_assoc.
Qed.

(** X7: [cancel] on any book, consistent or not: when it returns [false]
    (the id is not in the index, or no level stands at the recorded price,
    or the queue there does not hold the id) the book is unchanged; when it
    returns [true] exactly one resting order is removed, one with that id,
    the other orders keep their places, and the index no longer holds the
    id. *)
Theorem cancel_any_book (b : OrderBook) (i : OrderId) :
  ((cancel b i).1 = false → (cancel b i).2 = b) ∧
  ((cancel b i).1 = true →
   id_index_ (cancel b i).2 !! i = None ∧
   ∃ l1 r l2, all_resting b = l1 ++ r :: l2 ∧ id r = i ∧
              all_resting (cancel b i).2 = l1 ++ l2) ∧
  ((cancel b i).1 = false ↔
   match id_index_ b !! i with
   | None => True
   | Some (s, p) =>
     match level_find p (own b s) with
     | None => True
     | Some dq => i ∉ id <$> dq
     end
   end).
Proof.
  rewrite cancel_eq.
  destruct (id_index_ b !! i) as [[s p]|] eqn:Hlook; [|done].
  destruct (level_find p (own b s)) as [dq|] eqn:Hfind; [|done].
  destruct (erase_id i dq) as [dq'|] eqn:Herase.
  - cbn [fst snd]. split; [done|]. split.
    + intros _. split; [rewrite with_opposite_index; apply lookup_delete_eq|].
      destruct (level_store_erase_any _ _ _ _ _ Hfind Herase)
        as (a & r & c & E1 & Hr & E2).
      unfold all_resting.
      destruct s; cbn [own with_opposite other_side bids_ asks_] in *.
      * exists a, r, (c ++ resting (asks_ b)). by rewrite E1, E2, <-!app_assoc.
      * exists (resting (bids_ b) ++ a), r, c. by rewrite E1, E2, <-!app_assoc.
    + split; [done|]. intros Hnot. apply erase_id_None in Hnot. congruence.
  - cbn [fst snd]. split; [done|]. split; [done|]. split; [|done].
    intros _. by apply erase_id_None.
Qed.

(** ** Resting orders are remainders of submitted orders *)

Lemma match_queue_remainder s px o queue idx tr :
  0 ≤ qty o < 2 ^ 63 →
  Forall (resting_ok s px) queue →
  ts (match_queue o queue idx tr).1.1.1 = ts o ∧
  Forall (λ r', ∃ r, r ∈ queue ∧ remainder_of r r')
         (match_queue o queue idx tr).1.1.2.
Proof.
  revert queue o idx tr.
  apply (match_queue_ind (λ o queue idx tr res,
    0 ≤ qty o < 2 ^ 63 → Forall (resting_ok s px) queue →
    ts res.1.1.1 = ts o ∧
    Forall (λ r', ∃ r, r ∈ queue ∧ remainder_of r r') res.1.1.2));
    cbn [fst snd].
  - done.
  - intros o r rest idx tr _ _ Hq. split; [done|].
    apply Forall_forall. intros r' Hr'. exists r'. split; [done|].
    rewrite Forall_forall in Hq. destruct (Hq _ Hr') as (_ & _ & ?).
    unfold remainder_of. repeat split; lia.
  - intros o r rest idx tr Hpos Hnz Ho Hq. split; [done|].
    pose proof (match_queue_arith s px o (r :: rest) idx tr Ho Hq)
      as (_ & Hok & _).
    rewrite match_queue_cons in Hok.
    destruct (Z.ltb_spec 0 (qty o)) as [_|?]; [|lia]. cbv zeta in Hok.
    destruct (Z.eqb_spec (qty (sub_qty r (Z.min (qty o) (qty r)))) 0);
      [done|]. cbn [fst snd] in Hok.
    apply Forall_cons in Hok as [(_ & _ & Hr') _].
    apply Forall_cons in Hq as [(_ & _ & Hr) Hq].
    apply Forall_cons. split.
    + exists r. split; [by left|]. unfold remainder_of.
      split_and!; try done; [lia|].
      cbn [qty sub_qty] in *.
      rewrite wrap64_id in * by (unfold int64_range; lia). lia.
    + apply Forall_forall. intros r' Hr''. exists r'. split; [by right|].
      rewrite Forall_forall in Hq. destruct (Hq _ Hr'') as (_ & _ & ?).
      unfold remainder_of. repeat split; lia.
  - intros o r rest idx tr res Hpos Hz IH Ho Hq.
    apply Forall_cons in Hq as [(_ & _ & Hr) Hq].
    destruct IH as [IH1 IH2]; [|done|].
    + cbn [qty sub_qty]. rewrite wrap64_id by (unfold int64_range; lia). lia.
    + split; [done|]. eapply Forall_impl; [exact IH2|].
      intros r' (r0 & Hr0 & Hrem). exists r0. split; [by right|done].
Qed.

Lemma remainder_of_trans o r r' :
  remainder_of o r → remainder_of r r' → remainder_of o r'.
Proof.
  intros (? & ? & ? & ? & ?) (? & ? & ? & ? & ?).
  unfold remainder_of. split_and!; (congruence || lia).
Qed.

Lemma add_order_remainder b o r' :
  book_inv b → 0 < qty o < 2 ^ 63 →
  r' ∈ all_resting (add_order b o).2 →
  remainder_of o r' ∨ ∃ r, r ∈ all_resting b ∧ remainder_of r r'.
Proof.
  intros Hinv Hq.
  assert (∀ r, r ∈ all_resting b → remainder_of r r) as Hrefl.
  { intros r Hr.
    pose proof (ladder_ok_resting _ _ _ (inv_bids _ Hinv)) as Hb.
    pose proof (ladder_ok_resting _ _ _ (inv_asks _ Hinv)) as Ha.
    rewrite Forall_forall in Hb, Ha. unfold remainder_of.
    apply elem_of_app in Hr as [Hr|Hr];
      [destruct (Hb _ Hr) as [_ ?]|destruct (Ha _ Hr) as [_ ?]];
      repeat split; lia. }
  assert (∀ r, r ∈ resting (opposite b (side o)) → r ∈ all_resting b) as Hopp.
  { intros r Hr. rewrite (all_resting_sides b (side o)). apply elem_of_app.
    by left. }
  destruct (add_order_with b o
              (λ o1 levels _ _,
                 ts o1 = ts o ∧
                 Forall (λ r', ∃ r, r ∈ all_resting b ∧ remainder_of r r')
                        (resting levels)))
    as (o' & levels' & idx' & tr & Hadd & _ & HI & Hts & Hall); [done|lia| | |].
  - split; [done|]. apply Forall_forall. intros r Hr. exists r.
    split; [by apply Hopp|]. by apply Hrefl, Hopp.
  - intros o1 px q others idx tr HI [Hts Hall] Hpos _ o2 q2 idx2 tr2 Hm.
    destruct (ladder_ok_queue _ _ _ _ _ (ci_ladder _ _ _ _ _ _ _ _ _ HI)
                (list_elem_of_here _ _)) as [_ Hok].
    pose proof (ci_qty _ _ _ _ _ _ _ _ _ HI) as Hqty.
    destruct (match_queue_remainder _ px o1 q idx tr ltac:(lia) Hok)
      as [Hts' Hrem].
    rewrite Hm in *. cbn [fst snd] in *. split; [congruence|].
    rewrite resting_cons in Hall. apply Forall_app in Hall as [Hall1 Hall2].
    assert (Forall (λ r', ∃ r, r ∈ all_resting b ∧ remainder_of r r') q2)
      as Hq2.
    { eapply Forall_impl; [exact Hrem|]. intros r2 (r & Hr & Hrr').
      rewrite Forall_forall in Hall1. destruct (Hall1 _ Hr) as (r0 & Hr0 & H0).
      exists r0. split; [done|]. by eapply remainder_of_trans. }
    destruct q2 as [|r2 q2]; [done|]. rewrite resting_cons.
    by apply Forall_app.
  - rewrite Hadd. cbn [snd]. intros Hin.
    pose proof (ci_id _ _ _ _ _ _ _ _ _ HI) as Hid.
    pose proof (ci_side _ _ _ _ _ _ _ _ _ HI) as Hside.
    pose proof (ci_price _ _ _ _ _ _ _ _ _ HI) as Hprice.
    pose proof (ci_qty _ _ _ _ _ _ _ _ _ HI) as Hqty.
    rewrite Forall_forall in Hall.
    assert (r' ∈ all_resting (with_opposite b (side o) levels' idx') →
            ∃ r, r ∈ all_resting b ∧ remainder_of r r') as Hold.
    { rewrite with_opposite_resting. intros [Hr|Hr]%elem_of_app.
      - by apply Hall.
      - exists r'. split; [by apply (own_resting b (side o))|].
        by apply Hrefl, (own_resting b (side o)). }
    destruct (Z.ltb_spec 0 (qty o')) as [Hpos|_]; [|right; by apply Hold].
    rewrite enqueue_resting in Hin. apply elem_of_cons in Hin as [->|Hin];
      [|right; by apply Hold].
    left. unfold remainder_of. split_and!; (done || lia).
Qed.

(** X8: every order resting in a book reached by valid calls is what is left
    of the submitted order with its id: the same id, side, price and
    timestamp, and a quantity that is positive and at most the quantity
    submitted. *)
Theorem resting_is_remainder (ops : list Op) (r : Order) :
  valid_ops ops →
  r ∈ all_resting (book_after ops) →
  ∃ o, o ∈ submitted ops ∧ remainder_of o r.
Proof.
  revert r. induction ops as [|op ops IH] using rev_ind; intros r Hv Hr.
  - by apply elem_of_nil in Hr.
  - pose proof (valid_ops_app _ _ Hv) as Hv0.
    assert (∀ r0, r0 ∈ all_resting (book_after ops) → remainder_of r0 r →
              ∃ o, o ∈ submitted (ops ++ [op]) ∧ remainder_of o r) as Hold.
    { intros r0 Hr0 Hrem. destruct (IH r0 Hv0 Hr0) as (o & Ho & Hor).
      exists o. split; [|by eapply remainder_of_trans].
      rewrite submitted_app. apply elem_of_app. by left. }
    destruct op as [o|i].
    + destruct (valid_add_pre _ _ Hv) as (Hinv & Hq & _).
      rewrite book_after_add in Hr.
      destruct (add_order_remainder _ _ _ Hinv Hq Hr) as [Hrem|(r0 & Hr0 & Hrem)];
        [|by eapply Hold].
      exists o. split; [|done]. rewrite submitted_app. apply elem_of_app.
      right. by left.
    + destruct (run_inv _ Hv0) as [Hinv _].
      rewrite book_after_cancel in Hr.
      destruct (cancel_any_book (book_after ops) i) as (Hfalse & Htrue & _).
      assert (r ∈ all_resting (book_after ops)) as Hr0.
      { destruct (cancel (book_after ops) i).1 eqn:E.
        - destruct (Htrue eq_refl) as (_ & l1 & r1 & l2 & E1 & _ & E2).
          rewrite E2 in Hr. rewrite E1.
          apply elem_of_app in Hr as [?|?]; apply elem_of_app; [by left|].
          right. by right.
        - by rewrite (Hfalse eq_refl) in Hr. }
      eapply Hold; [exact Hr0|].
      destruct (IH r Hv0 Hr0) as (o & _ & (_ & _ & _ & _ & ?)).
      unfold remainder_of. repeat split; lia.
Qed.

Lemma resting_is_remainder_witness :
  valid_ops S2.ops ∧
  mkOrder 2%N Sell 102 10 0 ∈ all_resting (book_after S2.ops) ∧
  ∃ o, o ∈ submitted S2.ops ∧ remainder_of o (mkOrder 2%N Sell 102 10 0).
Proof.
  assert (valid_ops S2.ops) as Hv by solve_valid_ops.
  assert (mkOrder 2%N Sell 102 10 0 ∈ all_resting (book_after S2.ops)) as Hr
    by (vm_compute; apply list_elem_of_further, list_elem_of_here).
  split; [exact Hv|]. split; [exact Hr|].
  exact (resting_is_remainder S2.ops _ Hv Hr).
Defined.

(** * Further properties of the queue and of the engine *)

(** ** Histories of a queue *)

(** X9: whatever the calls made on a queue, the values obtained by its pops
    followed by the values still queued are the values it held followed by
    the values pushed before the first [close]: no value is lost,
    duplicated or reordered, the pushes made after a [close] are all
    dropped, and a closed queue stays closed. *)
Theorem queue_history_fifo {T : Type} (ops : list (QueueOp T))
    (s s' : ConcurrentQueue T) (got : list T) :
  queue_run ops s = Some (got, s') →
  got ++ q_ s' =
    q_ s ++ (if closed_ s then [] else pushed_before_close ops) ∧
  closed_ s' = closed_ s || has_close ops.
Proof.
  revert s s' got. induction ops as [|op ops IH]; intros s s' got Hrun.
  - injection Hrun as <- <-. simpl. destruct (closed_ s); simpl.
    + by rewrite app_nil_r.
    + by rewrite app_nil_r.
  - destruct op as [v| | |]; cbn [queue_run pushed_before_close has_close] in *.
    + destruct (IH _ _ _ Hrun) as [-> ->]. unfold push.
      destruct (closed_ s) eqn:Hc; [by rewrite Hc|]. cbn [q_ closed_].
      by rewrite <-app_assoc.
    + destruct (pop s) as [[v s1]|] eqn:Hpop; [|done].
      destruct (queue_run ops s1) as [[got1 s2]|] eqn:Hrun1; [|done].
      injection Hrun as <- <-. destruct (IH _ _ _ Hrun1) as [E ->].
      rewrite <-app_assoc, E, (closed_pop _ _ _ Hpop).
      split; [|done]. destruct v as [v|].
      * apply pop_Some in Hpop as [-> _]. done.
      * by apply pop_false_iff in Hpop as (_ & _ & ->).
    + destruct (queue_run ops (try_pop s).2) as [[got1 s2]|] eqn:Hrun1; [|done].
      injection Hrun as <- <-. destruct (IH _ _ _ Hrun1) as [E ->].
      rewrite <-app_assoc, E, closed_try_pop. split; [|done].
      unfold try_pop. by destruct s as [[|v l] c].
    + destruct (IH _ _ _ Hrun) as [-> ->]. cbn [close q_ closed_].
      rewrite orb_true_r. by destruct (closed_ s).
Qed.

Lemma queue_history_fifo_witness :
  queue_run [QPush 1; QPush 2; QPop; QClose; QPush 3; QTryPop; QPop] new_queue
    = Some ([1; 2], mkQueue [] true) ∧
  [1; 2] ++ q_ (mkQueue ([] : list Z) true) =
    q_ (new_queue : ConcurrentQueue Z) ++
    (if closed_ (new_queue : ConcurrentQueue Z) then []
     else pushed_before_close
            [QPush 1; QPush 2; QPop; QClose; QPush 3; QTryPop; QPop]).
Proof.
  assert (queue_run [QPush 1; QPush 2; QPop; QClose; QPush 3; QTryPop; QPop]
            new_queue = Some ([1; 2], mkQueue [] true)) as Hrun
    by reflexivity.
  split; [exact Hrun|].
  exact (proj1 (queue_history_fifo _ _ _ _ Hrun)).
Defined.

(** ** Events of the engine *)

Lemma batches_app outs1 outs2 :
  batches (outs1 ++ outs2) = batches outs1 ++ batches outs2.
Proof.
  induction outs1 as [|[[|t l]|ok] outs1 IH]; simpl; [done|done| |done].
  by rewrite IH.
Qed.

Lemma batches_trade_batches outs :
  Forall (λ ev, type ev = TradeBatch ∧ trades ev ≠ []) (batches outs).
Proof.
  induction outs as [|[[|t l]|ok] outs IH]; simpl; [constructor|done| |done].
  by constructor.
Qed.

Lemma new_engine_events : events_inv new_engine.
Proof. by split. Qed.

Lemma exec_events a e e' :
  engine_inv e → events_inv e → exec a e = Some e' → events_inv e'.
Proof.
  intros [Hfifo Hbook Hrun Hinq Houtq Hexit Hjoin] [Hpub Hpend Hq] Hexec.
  destruct e as [b inq outq r w c acc proc pub del]. cbn in *.
  destruct a; cbn in Hexec.
  - injection Hexec as <-. by split.
  - unfold worker_step in Hexec. cbn in Hexec. destruct w.
    + injection Hexec as <-. split; cbn; [|by destruct r|done].
      cbn in Hpub. by destruct r.
    + destruct (pop inq) as [[[o|] q']|]; [| |done];
        injection Hexec as <-; by split.
    + destruct (add_order b o) as [l b'] eqn:Hadd. injection Hexec as <-.
      split; cbn; [|by destruct l|done].
      rewrite fmap_app. cbn [fmap list_fmap]. rewrite run_snoc, batches_app.
      cbn in Hpub. rewrite app_nil_r in Hpub. rewrite <-Hpub.
      cbn [apply_op]. fold (book_after (Add <$> proc)). rewrite <-Hbook, Hadd.
      cbn. destruct l; cbn; by rewrite ?app_nil_r.
    + injection Hexec as <-. split; cbn; [by rewrite app_nil_r|done|].
      unfold push.
      assert (closed_ outq = false) as ->
        by (rewrite Houtq; destruct c; done).
      cbn. by rewrite Hq, <-app_assoc.
    + done.
  - unfold shutdown_step in Hexec. cbn in Hexec.
    destruct c; [| |destruct w; try done| |done]; injection Hexec as <-;
      by split.
  - injection Hexec as <-. by split.
  - injection Hexec as <-. split; cbn; [done|done|].
    unfold try_pop. destruct (q_ outq) as [|v rest] eqn:E; cbn.
    + by rewrite E, !app_nil_r, Hq, app_nil_r.
    + by rewrite Hq, <-app_assoc.
  - destruct (pop outq) as [[v q']|] eqn:Hpop; [|done]. injection Hexec as <-.
    split; cbn; [done|done|]. destruct v as [v|].
    + apply pop_Some in Hpop as [E _]. by rewrite Hq, E, <-app_assoc.
    + apply pop_false_iff in Hpop as (_ & _ & ->). by rewrite app_nil_r.
Qed.

Lemma exec_all_events sched e e' :
  engine_inv e → events_inv e → exec_all sched e = Some e' → events_inv e'.
Proof.
  revert e. induction sched as [|a sched IH]; intros e Hinv Hev Hexec.
  - by injection Hexec as <-.
  - simpl in Hexec. destruct (exec a e) as [e1|] eqn:E; [|done].
    eapply IH; [by eapply exec_inv|by eapply exec_events|exact Hexec].
Qed.

(** X10: in every state the engine reaches, the events published so far,
    with the one the worker is about to publish, are exactly the non-empty
    lists of trades returned by [add_order] for the orders processed, one
    [TradeBatch] per such order, in processing order; no event carries an
    empty list of trades. *)
Theorem events_are_trade_batches (sched : list Action) (e : Engine) :
  exec_all sched new_engine = Some e →
  published e ++ pending (worker_ e) =
    batches (run empty_book (Add <$> processed e)).1 ∧
  Forall (λ ev, type ev = TradeBatch ∧ trades ev ≠ []) (published e).
Proof.
  intros Hexec.
  destruct (exec_all_events _ _ _ new_engine_inv new_engine_events Hexec)
    as [Hpub _ _].
  split; [done|].
  pose proof (batches_trade_batches
                (run empty_book (Add <$> processed e)).1) as Hall.
  rewrite <-Hpub in Hall. by apply Forall_app in Hall as [? _].
Qed.

(** X11: in every state the engine reaches, the events that [poll_event]
    and [wait_event] have handed to consumers, followed by the events
    still in the outbound queue, are exactly the events the worker
    published, in publication order: the outbound [push] drops none of
    them, and none is lost, duplicated or reordered on its way to the
    consumers. *)
Theorem outbound_queue_in_order (sched : list Action) (e : Engine) :
  exec_all sched new_engine = Some e →
  published e = delivered e ++ q_ (outq_ e).
Proof.
  intros Hexec.
  by destruct (exec_all_events _ _ _ new_engine_inv new_engine_events Hexec)
    as [_ _ ?].
Qed.

Lemma events_are_trade_batches_witness :
  exec_all Flow.schedule new_engine = Some Flow.final ∧
  published Flow.final ++ pending (worker_ Flow.final) =
    batches (run empty_book (Add <$> processed Flow.final)).1 ∧
  Forall (λ ev, type ev = TradeBatch ∧ trades ev ≠ []) (published Flow.final).
Proof.
  assert (exec_all Flow.schedule new_engine = Some Flow.final) as Hexec
    by (vm_compute; reflexivity).
  split; [exact Hexec|].
  exact (events_are_trade_batches Flow.schedule Flow.final Hexec).
Defined.

Lemma outbound_queue_in_order_witness :
  exec_all Flow.schedule new_engine = Some Flow.final ∧
  delivered Flow.final = [Flow.event] ∧
  published Flow.final = delivered Flow.final ++ q_ (outq_ Flow.final).
Proof.
  assert (exec_all Flow.schedule new_engine = Some Flow.final) as Hexec
    by (vm_compute; reflexivity).
  split; [exact Hexec|]. split; [reflexivity|].
  exact (outbound_queue_in_order Flow.schedule Flow.final Hexec).
Defined.

(** ** The worker without a shutdown *)

Lemma worker_step_accepted e e' :
  exec Worker e = Some e' →
  accepted e' = accepted e ∧ caller_ e' = caller_ e.
Proof.
  cbn. unfold worker_step. destruct (worker_ e).
  - by intros [= <-].
  - destruct (pop (inq_ e)) as [[[o|] q']|]; [| |done]; by intros [= <-].
  - destruct (add_order (book_ e) o). by intros [= <-].
  - by intros [= <-].
  - done.
Qed.

(** As long as [shutdown()] has not been called, the worker left alone
    comes to wait on an empty inbound queue, with every accepted order
    processed. *)
Lemma worker_drains_within m e :
  engine_inv e → caller_ e = SCas →
  (4 * length (q_ (inq_ e)) + worker_rank (worker_ e) ≤ m)%nat →
  ∃ n e', exec_all (replicate n Worker) e = Some e' ∧
          worker_ e' = WPop ∧ q_ (inq_ e') = [] ∧
          processed e' = accepted e ∧ accepted e' = accepted e ∧
          exec Worker e' = None.
Proof.
  assert (∀ e0, engine_inv e0 → caller_ e0 = SCas → worker_ e0 = WPop →
            q_ (inq_ e0) = [] →
            exec_all (replicate 0 Worker) e0 = Some e0 ∧
            worker_ e0 = WPop ∧ q_ (inq_ e0) = [] ∧
            processed e0 = accepted e0 ∧ accepted e0 = accepted e0 ∧
            exec Worker e0 = None) as Hrest.
  { intros e0 [Hfifo _ _ Hinq _ _ _] Hc Hw Hq.
    split_and!; try done.
    - by rewrite Hfifo, Hw, Hq, !app_nil_r.
    - cbn. unfold worker_step, pop. by rewrite Hw, Hq, Hinq, Hc. }
  revert e. induction m as [|m IH]; intros e Hinv Hc Hm.
  - pose proof (ei_exit _ Hinv) as Hexit.
    assert (q_ (inq_ e) = []) as Hq
      by (destruct (q_ (inq_ e)); [done|simpl in Hm; lia]).
    destruct (worker_ e) eqn:Hw; cbn in Hm; try lia.
    + exists 0%nat, e. by apply Hrest.
    + by destruct (Hexit eq_refl).
  - pose proof Hinv as [Hfifo _ Hrun Hinq _ Hexit _].
    destruct (exec Worker e) as [e1|] eqn:Hstep.
    + destruct (worker_step_accepted _ _ Hstep) as [Hacc Hc1].
      assert (4 * length (q_ (inq_ e1)) + worker_rank (worker_ e1) ≤ m)%nat
        as Hm1.
      { revert Hstep. cbn. unfold worker_step.
        destruct (worker_ e) eqn:Hw; cbn in Hm.
        - intros [= <-]. cbn. rewrite Hrun, Hc. cbn. lia.
        - destruct (pop (inq_ e)) as [[[o|] q']|] eqn:Hpop; [| |done].
          + apply pop_Some in Hpop as [Hq _]. intros [= <-]. cbn.
            rewrite Hq in Hm. cbn in Hm. lia.
          + apply pop_false_iff in Hpop as (Hcl & _). rewrite Hinq, Hc in Hcl.
            done.
        - destruct (add_order (book_ e) o) as [l b']. intros [= <-]. cbn.
          destruct l; cbn; lia.
        - intros [= <-]. cbn. lia.
        - done. }
      assert (caller_ e1 = SCas) as Hc1' by congruence.
      destruct (IH e1 (exec_inv _ _ _ Hinv Hstep) Hc1' Hm1)
        as (n & e' & Hrun' & Hw' & Hq' & Hp' & Ha' & Hb').
      exists (S n), e'. cbn [replicate exec_all]. rewrite Hstep.
      split_and!; try done; congruence.
    + assert (worker_ e = WPop ∧ q_ (inq_ e) = []) as [Hw Hq].
      { revert Hstep. cbn. unfold worker_step.
        destruct (worker_ e) eqn:Hw.
        - done.
        - destruct (pop (inq_ e)) as [[[o|] q']|] eqn:Hpop; [done|done|].
          intros _. unfold pop in Hpop.
          by destruct (q_ (inq_ e)) as [|v l] eqn:Hq.
        - by destruct (add_order (book_ e) o).
        - done.
        - by destruct (Hexit eq_refl). }
      exists 0%nat, e. by apply Hrest.
Qed.

(** X12: in any state the engine reaches before [shutdown()] is called, the
    worker scheduled alone processes every accepted order and then waits in
    [pop] on the empty inbound queue: without a shutdown no accepted order
    is left unprocessed, and the worker never leaves its loop. *)
Theorem worker_drains_without_shutdown (sched : list Action) (e : Engine) :
  exec_all sched new_engine = Some e →
  caller_ e = SCas →
  ∃ n e', exec_all (replicate n Worker) e = Some e' ∧
          worker_ e' = WPop ∧ q_ (inq_ e') = [] ∧
          processed e' = accepted e ∧ accepted e' = accepted e ∧
          exec Worker e' = None.
Proof.
  intros Hexec Hc.
  eapply worker_drains_within; [|done|done].
  by eapply exec_all_inv; [apply new_engine_inv|].
Qed.

Lemma worker_drains_without_shutdown_witness :
  exec_all [Submit Flow.sell; Submit Flow.buy] new_engine
    = Some Flow.submitted_only ∧
  caller_ Flow.submitted_only = SCas ∧
  ∃ n e', exec_all (replicate n Worker) Flow.submitted_only = Some e' ∧
          worker_ e' = WPop ∧ q_ (inq_ e') = [] ∧
          processed e' = accepted Flow.submitted_only ∧
          accepted e' = accepted Flow.submitted_only ∧
          exec Worker e' = None.
Proof.
  assert (exec_all [Submit Flow.sell; Submit Flow.buy] new_engine
          = Some Flow.submitted_only) as Hexec by reflexivity.
  split; [exact Hexec|]. split; [reflexivity|].
  exact (worker_drains_without_shutdown _ _ Hexec eq_refl).
Defined.

(** ** Submitting after the inbound queue is closed *)

(** X13: once [shutdown()] has closed the inbound queue, [submit] changes
    nothing: the order is dropped, the queue, the book and the history of
    the engine stay as they are. *)
Theorem submit_after_close_dropped (sched : list Action) (e : Engine)
    (o : Order) :
  exec_all sched new_engine = Some e →
  caller_ e ≠ SCas → caller_ e ≠ SCloseIn →
  exec (Submit o) e = Some e.
Proof.
  intros Hexec Hc1 Hc2.
  pose proof (exec_all_inv _ _ _ new_engine_inv Hexec) as [_ _ _ Hinq _ _ _].
  assert (closed_ (inq_ e) = true) as Hcl
    by (rewrite Hinq; by destruct (caller_ e)).
  cbn. unfold push. rewrite Hcl. by destruct e.
Qed.

Lemma submit_after_close_dropped_witness :
  exec_all Drop.schedule new_engine = Some Drop.final ∧
  exec (Submit Flow.sell) Drop.final = Some Drop.final.
Proof.
  assert (exec_all Drop.schedule new_engine = Some Drop.final) as Hexec
    by reflexivity.
  split; [exact Hexec|].
  apply (submit_after_close_dropped Drop.schedule Drop.final Flow.sell Hexec);
    discriminate.
Defined.

(** ** Waiting for events *)



(** ** Termination of [add_order] *)

(** X15: the crossing loop of [add_order] terminates on every book, also on
    one that breaks the invariants: with one unit of fuel per level of the
    opposite ladder and one more, or with any larger amount, the fuelled
    function returns, and what it returns is [add_order]. *)
Theorem add_order_terminates (b : OrderBook) (o : Order) (fuel : nat) :
  (S (length (opposite b (side o))) ≤ fuel)%nat →
  add_order_fuel fuel b o = Some (add_order b o).
Proof. apply add_order_fuel_enough. Qed.

Lemma add_order_terminates_witness :
  add_order_fuel 3 S2.before4 S2.buy4 = Some (add_order S2.before4 S2.buy4).
Proof.
  apply (add_order_terminates S2.before4 S2.buy4 3).
  vm_compute. lia.
Defined.
